(** * node-discord-alerts: a shallow embedding of the sizing, batching and
    dispatch code, and the properties of it that the specification states.

  Layout of the development:
  - [JS]            the few JavaScript primitives the code relies on
                    (string [slice], truthiness, numbers with NaN, [parseInt]);
  - [Stringify]     src/utils/stringify.ts;
  - [Types]         src/types.ts;
  - [SizeAdjusting] src/utils/size-adjusting.ts (with get-color-for-level);
  - [Client]        src/client.ts;
  - [LazyLoading]   src/lazy-loading-client.ts;
  - the notions the statements are written with, and sample inputs;
  - the lemmas and theorems, by component. *)

From Stdlib Require Import String.
From Stdlib Require Import List ZArith Lia Bool Ascii Arith.
Import Datatypes.
Import ListNotations.

(** A JavaScript string is a finite sequence of code units. The code only
  measures, slices and concatenates strings, so the width of a code unit
  plays no role; [ascii] is used to keep literals readable. *)
Definition str : Type := list ascii.

Definition lit (s : string) : str := list_ascii_of_string s.
Arguments lit s%_string.

(** What a call can do besides returning: throw, or loop for ever. *)
Inductive Exn : Type :=
| TypeError
| FetchFailed.

Inductive Outcome (A : Type) : Type :=
| Returns (a : A)
| Throws (e : Exn)
| Diverges.

Arguments Returns {A} a.
Arguments Throws {A} e.
Arguments Diverges {A}.

(* ------------------------------------------------------------------ *)
(** ** JavaScript primitives *)

Module JS.

(** [String.prototype.slice]: a negative index counts from the end, both
    indices are clamped to the string, an empty span gives the empty string. *)
Definition relIndex (len : nat) (k : Z) : nat :=
  if (k <? 0)%Z
  then Z.to_nat (Z.max (Z.of_nat len + k) 0)
  else Nat.min (Z.to_nat k) len.

Definition slice (s : str) (from to : Z) : str :=
  let a := relIndex (length s) from in
  let b := relIndex (length s) to in
  firstn (b - a) (skipn a s).

(** [s.length] *)
Definition len (s : str) : Z := Z.of_nat (length s).

Arguments len : simpl never.

(** Truthiness of an optional string: [undefined] and [''] are falsy. *)
Definition truthy (s : option str) : bool :=
  match s with
  | Some (_ :: _) => true
  | _ => false
  end.

(** Numbers, as far as the dispatcher needs them: integers and NaN. *)
Inductive Num : Type :=
| Fin (z : Z)
| NaN.

Definition mul (a b : Num) : Num :=
  match a, b with
  | Fin x, Fin y => Fin (x * y)
  | _, _ => NaN
  end.

Definition numTruthy (n : Num) : bool :=
  match n with
  | Fin z => negb (z =? 0)%Z
  | NaN => false
  end.

(** [parseInt(s)] without a radix: leading white space is skipped, then an
    optional sign, then an optional [0x]/[0X] prefix that selects radix 16,
    then the longest run of digits of the radix. No digit at all gives NaN.
    (The result is kept exact; the rounding of integers above 2^53 to the
    nearest double is not modelled.) *)
Definition isWhiteSpace (c : ascii) : bool :=
  let n := nat_of_ascii c in
  (n =? 9) || (n =? 10) || (n =? 11) || (n =? 12) || (n =? 13)
  || (n =? 32) || (n =? 160).

Fixpoint trimStart (s : str) : str :=
  match s with
  | c :: rest => if isWhiteSpace c then trimStart rest else s
  | [] => []
  end.

Definition digitValue (c : ascii) : option Z :=
  let n := nat_of_ascii c in
  if (48 <=? n) && (n <=? 57) then Some (Z.of_nat (n - 48))
  else if (97 <=? n) && (n <=? 122) then Some (Z.of_nat (n - 87))
  else if (65 <=? n) && (n <=? 90) then Some (Z.of_nat (n - 55))
  else None.

(** Reads digits of the radix from the front; [acc] is [None] until the
    first digit has been read. *)
Fixpoint readDigits (radix : Z) (s : str) (acc : option Z) : option Z :=
  match s with
  | c :: rest =>
      match digitValue c with
      | Some d =>
          if (d <? radix)%Z
          then readDigits radix rest
                 (Some (match acc with Some a => a * radix + d | None => d end)%Z)
          else acc
      | None => acc
      end
  | [] => acc
  end.

Definition stripSign (s : str) : Z * str :=
  match s with
  | "-"%char :: rest => ((-1)%Z, rest)
  | "+"%char :: rest => (1%Z, rest)
  | _ => (1%Z, s)
  end.

Definition stripHexPrefix (s : str) : Z * str :=
  match s with
  | "0"%char :: "x"%char :: rest => (16%Z, rest)
  | "0"%char :: "X"%char :: rest => (16%Z, rest)
  | _ => (10%Z, s)
  end.

Definition parseInt (s : str) : Num :=
  let (sign, s1) := stripSign (trimStart s) in
  let (radix, s2) := stripHexPrefix s1 in
  match readDigits radix s2 None with
  | Some n => Fin (sign * n)
  | None => NaN
  end.

End JS.

(* ------------------------------------------------------------------ *)
(** ** src/utils/stringify.ts *)

Module Stringify.

(** A value as [stringify] sees it: a string, an [Error] (with its optional
    [stack] and the text [toString()] gives), or anything else, represented
    by what [JSON.stringify(input, replacer)] yields for it: a string, or no
    string at all ([undefined], as for [undefined], a function or a symbol;
    a cyclic object, on which it throws a [TypeError], is counted here too,
    since [alertToEmbeds] ends with a [TypeError] in both cases). The
    replacer only changes the text of the string. *)
Inductive JsValue : Type :=
| VString (s : str)
| VError (stack : option str) (shown : str)
| VOther (json : option str).

Definition stringify (input : JsValue) : option str :=
  match input with
  | VString s => Some s
  | VError stack shown =>
      Some (match stack with Some st => st | None => shown end)
  | VOther json => json
  end.

End Stringify.

(* ------------------------------------------------------------------ *)
(** ** src/types.ts *)

Module Types.

Inductive Level : Type := info | error | warn | fatal.

(** [AlertInput]. [context] is any object; it is represented by its own
    enumerable entries in the order [Object.entries] lists them. *)
Record AlertInput : Type := {
  title : option str;
  description : option str;
  footer : option str;
  context : option (list (str * Stringify.JsValue));
  level : option Level
}.

Record Field : Type := { name : str; value : str }.

Record Footer : Type := { text : str }.

End Types.

Module Embed.

Record t : Type := {
  color : option Z;
  title : option str;
  description : option str;
  footer : option Types.Footer;
  timestamp : str;
  fields : list Types.Field
}.

Definition set_title (e : t) (v : str) : t :=
  {| color := color e; title := Some v; description := description e;
     footer := footer e; timestamp := timestamp e; fields := fields e |}.

Definition set_description (e : t) (v : str) : t :=
  {| color := color e; title := title e; description := Some v;
     footer := footer e; timestamp := timestamp e; fields := fields e |}.

Definition set_footer (e : t) (v : Types.Footer) : t :=
  {| color := color e; title := title e; description := description e;
     footer := Some v; timestamp := timestamp e; fields := fields e |}.

Definition push_field (e : t) (f : Types.Field) : t :=
  {| color := color e; title := title e; description := description e;
     footer := footer e; timestamp := timestamp e; fields := fields e ++ [f] |}.

End Embed.

(* ------------------------------------------------------------------ *)
(** ** src/utils/size-adjusting.ts *)

Module SizeAdjusting.
Import Types.

(** [Embed & { charsCount: number }] *)
Record EmbedWithCharCount : Type := {
  embed : Embed.t;
  charsCount : Z
}.

Module DISCORD_LIMITS.
Definition EMBED_TOTAL_CHARS : Z := 6000 - 100.
Definition EMBED_MAX_FIELDS : nat := 25.
Definition TITLE : Z := 256 - 56.
Definition DESCRIPTION : Z := 4096 - 96.
Definition FOOTER : Z := 2048 - 48.
Definition FIELD_NAME : Z := 256 - 16.
Definition FIELD_VALUE : Z := 1024 - 24.
Definition MAX_EMBEDS_PER_PAYLOAD : nat := 10.
End DISCORD_LIMITS.

Definition truncate (txt : str) (max : Z) (TRUNCATED_SUFFIX : str) : str :=
  if (max <? JS.len txt)%Z
  then JS.slice txt 0 (max - JS.len TRUNCATED_SUFFIX) ++ TRUNCATED_SUFFIX
  else txt.

(** The [for (let i = 0; i < txt.length; i += size)] loop of [chunk]. It
    does not terminate when [size] is not positive; [None] is the loop
    running out of [fuel]. *)
Fixpoint chunk_loop (fuel : nat) (txt : str) (size i : Z)
         (chunks : list str) : option (list str) :=
  if (i <? JS.len txt)%Z then
    match fuel with
    | O => None
    | S fuel' =>
        chunk_loop fuel' txt size (i + size)
          (chunks ++ [JS.slice txt i (i + size)])
    end
  else Some chunks.

(** [if (!txt) return []], then the loop. One unit of fuel per character is
    enough whenever [size] is positive; otherwise no amount is, and [chunk]
    is [None]. *)
Definition chunk (txt : str) (size : Z) : option (list str) :=
  match txt with
  | [] => Some []
  | _ => chunk_loop (length txt) txt size 0 []
  end.

(** get-color-for-level.ts. The [default] arm of the switch (black) is for
    strings outside the [level] type and has no counterpart here. *)
Definition getColorForLevel (level : option Level) : option Z :=
  match level with
  | None => None
  | Some fatal => Some 0xff0000%Z
  | Some error => Some 0xff6666%Z
  | Some warn => Some 0xffff00%Z
  | Some info => Some 0x0000ff%Z
  end.

Inductive Segment : Type :=
| SegTitle (content : str)
| SegDescription (content : str)
| SegFooter (content : str)
| SegField (content : Field).

(** The [fields] of [prepared]: one field per context entry. [stringify]
    returning [undefined] makes [truncate] read [.length] of [undefined],
    which throws; [None] is that case. *)
Fixpoint prepareFields (entries : list (str * Stringify.JsValue))
         (TRUNCATED_SUFFIX : str) : option (list Field) :=
  match entries with
  | [] => Some []
  | (k, v) :: rest =>
      match Stringify.stringify v with
      | None => None
      | Some sv =>
          match prepareFields rest TRUNCATED_SUFFIX with
          | None => None
          | Some fs =>
              Some ({| name := truncate k DISCORD_LIMITS.FIELD_NAME TRUNCATED_SUFFIX;
                       value := truncate sv DISCORD_LIMITS.FIELD_VALUE TRUNCATED_SUFFIX |}
                    :: fs)
          end
      end
  end.

(** The [prepared] object of [alertToEmbeds]. *)
Module Prepared.
Record t : Type := {
  title : option str;
  footer : option str;
  descriptionChunks : list str;
  fields : list Types.Field
}.
End Prepared.

(** Step 0 of [alertToEmbeds]. *)
Definition prepare (alert : AlertInput) (TRUNCATED_SUFFIX : str)
  : Outcome Prepared.t :=
  let title :=
    if JS.truthy (Types.title alert)
    then option_map (fun t => truncate t DISCORD_LIMITS.TITLE TRUNCATED_SUFFIX)
           (Types.title alert)
    else None in
  let footer :=
    if JS.truthy (Types.footer alert)
    then option_map (fun t => truncate t DISCORD_LIMITS.FOOTER TRUNCATED_SUFFIX)
           (Types.footer alert)
    else None in
  match chunk (match Types.description alert with Some d => d | None => [] end)
              DISCORD_LIMITS.DESCRIPTION with
  | None => Diverges
  | Some chunks =>
      match (match Types.context alert with
             | None => Some []
             | Some entries => prepareFields entries TRUNCATED_SUFFIX
             end) with
      | None => Throws TypeError
      | Some fs =>
          Returns {| Prepared.title := title; Prepared.footer := footer;
                     Prepared.descriptionChunks := chunks; Prepared.fields := fs |}
      end
  end.

(** Step 1: the linear list of segments. *)
Definition segmentsOf (prepared : Prepared.t) : list Segment :=
  (if JS.truthy (Prepared.title prepared)
   then match Prepared.title prepared with Some t => [SegTitle t] | None => [] end
   else [])
  ++ map SegDescription (Prepared.descriptionChunks prepared)
  ++ map SegField (Prepared.fields prepared)
  ++ (if JS.truthy (Prepared.footer prepared)
      then match Prepared.footer prepared with Some t => [SegFooter t] | None => [] end
      else []).

(** Step 2: the mutable variables of the packing loop. *)
Record Packing : Type := {
  embeds : list EmbedWithCharCount;
  current : option Embed.t;
  charCount : Z;
  fieldCount : nat
}.

Section Packer.

(** The identifier [randomUUID()] returned for this alert, the clock ([now k]
    is what [new Date().toISOString()] gives when the embed number [k] of the
    alert is started) and the level of the alert. *)
Variable alertId : str.
Variable now : nat -> str.
Variable alertLevel : option Level.

Definition startNewEmbed (st : Packing) : Packing :=
  {| embeds := embeds st;
     current :=
       Some {| Embed.color := getColorForLevel alertLevel;
               Embed.title := None;
               Embed.description := None;
               Embed.footer := None;
               Embed.timestamp := now (length (embeds st));
               Embed.fields := [ {| name := lit "alertId"; value := alertId |} ] |};
     charCount := JS.len (lit "alertId") + JS.len alertId;
     fieldCount := 1 |}.

Definition commitEmbed (st : Packing) : Packing :=
  {| embeds :=
       match current st with
       | Some cur => embeds st ++ [ {| embed := cur; charsCount := charCount st |} ]
       | None => embeds st
       end;
     current := None;
     charCount := 0;
     fieldCount := 0 |}.

Definition ensure (st : Packing) : Packing :=
  match current st with
  | None => startNewEmbed st
  | Some _ => st
  end.

(** [current!.slot = ...; charCount += len]. Past [ensure] or [startNewEmbed]
    there always is a current embed; the [None] arm is never taken. *)
Definition place (upd : Embed.t -> Embed.t) (extra : Z) (st : Packing) : Packing :=
  {| embeds := embeds st;
     current := option_map upd (current st);
     charCount := charCount st + extra;
     fieldCount := fieldCount st |}.

Definition slotFilled (slot : Embed.t -> option str) (st : Packing) : bool :=
  match current st with
  | Some cur => JS.truthy (slot cur)
  | None => false
  end.

Definition footerFilled (st : Packing) : bool :=
  match current st with
  | Some cur => match Embed.footer cur with Some _ => true | None => false end
  | None => false
  end.

Definition overflows (st : Packing) (extra : Z) : bool :=
  (DISCORD_LIMITS.EMBED_TOTAL_CHARS <? charCount st + extra)%Z.

(** One iteration of the [for (const seg of segments)] loop. *)
Definition packSegment (st : Packing) (seg : Segment) : Packing :=
  match seg with
  | SegTitle content =>
      let st := ensure st in
      let len := JS.len content in
      let st := if slotFilled Embed.title st || overflows st len
                then startNewEmbed (commitEmbed st) else st in
      place (fun e => Embed.set_title e content) len st
  | SegDescription content =>
      let st := ensure st in
      let len := JS.len content in
      let st := if slotFilled Embed.description st || overflows st len
                then startNewEmbed (commitEmbed st) else st in
      place (fun e => Embed.set_description e content) len st
  | SegFooter content =>
      let st := ensure st in
      let len := JS.len content in
      let st := if footerFilled st || overflows st len
                then startNewEmbed (commitEmbed st) else st in
      place (fun e => Embed.set_footer e {| text := content |}) len st
  | SegField content =>
      let extraChars := (JS.len (name content) + JS.len (value content))%Z in
      let st := if match current st with None => true | Some _ => false end
                   || (DISCORD_LIMITS.EMBED_MAX_FIELDS <=? fieldCount st)
                   || overflows st extraChars
                then startNewEmbed (commitEmbed st) else st in
      let st := place (fun e => Embed.push_field e content) extraChars st in
      {| embeds := embeds st; current := current st;
         charCount := charCount st; fieldCount := fieldCount st + 1 |}
  end.

Definition pack (segments : list Segment) : list EmbedWithCharCount :=
  embeds (commitEmbed
            (fold_left packSegment segments
               {| embeds := []; current := None; charCount := 0; fieldCount := 0 |})).

End Packer.

Definition alertToEmbeds (alertId : str) (now : nat -> str)
           (alert : AlertInput) (TRUNCATED_SUFFIX : str)
  : Outcome (list EmbedWithCharCount) :=
  match prepare alert TRUNCATED_SUFFIX with
  | Returns prepared =>
      Returns (pack alertId now (Types.level alert) (segmentsOf prepared))
  | Throws e => Throws e
  | Diverges => Diverges
  end.

(** The loop of [fillBatch]. [batchSize] is a number of containers: the
    client passes its [BATCH_SIZE], and the default is
    [MAX_EMBEDS_PER_PAYLOAD]. *)
Fixpoint fillBatch_loop (source : list EmbedWithCharCount) (batchSize : nat)
         (batch : list Embed.t) (accumulatedChars : Z) : list Embed.t :=
  match source with
  | [] => batch
  | e :: rest =>
      if batchSize <=? length batch then batch
      else
        let accumulatedChars := (accumulatedChars + charsCount e)%Z in
        if (DISCORD_LIMITS.EMBED_TOTAL_CHARS <? accumulatedChars)%Z then batch
        else fillBatch_loop rest batchSize (batch ++ [embed e]) accumulatedChars
  end.

Definition fillBatch (source : list EmbedWithCharCount) (batchSize : nat)
  : list Embed.t :=
  match source with
  | [] => []
  | _ => fillBatch_loop source batchSize [] 0
  end.

End SizeAdjusting.

(* ------------------------------------------------------------------ *)
(** ** src/client.ts

    A method takes the object and returns it with the effects it had on the
    world (timers, the POST, log lines) and its result. The [flush] loop,
    which only calls [sendAlertsBatch] and waits, is left out. *)

Module Client.
Import Types SizeAdjusting.

(** [AlertsClientOptions] and its [configs]; the logger is not a field here:
    what the client logs is part of the effects it emits. *)
Module Configs.
Record t : Type := {
  TRUNCATED_SUFFIX : option str;
  DEFAULT_TIMEOUT_MS : option JS.Num
}.
End Configs.

Module AlertsClientOptions.
Record t : Type := {
  webhookUrl : str;
  label : option str;
  env : option str;
  disabled : option bool;
  configs : option Configs.t
}.
End AlertsClientOptions.

(** The body [stringify] serialises for the POST. *)
Module Payload.
Record t : Type := {
  embeds : list Embed.t;
  content : str
}.
End Payload.

Inductive LogLine : Type :=
| InfoSkippingAlert (alert : AlertInput)
| InfoDisabled (batch : list Embed.t)
| InfoRateLimit (retryAfterSeconds : JS.Num)
| ErrorFailedToSend (errorMessage : option str)
| InfoSent (count : nat).

(** What a method does to the world outside the object, in order. A timer is
    named by the handle [setTimeout] returned for it. *)
Inductive Effect : Type :=
| SetTimeout (handle : nat) (ms : JS.Num)
| ClearTimeout (handle : nat)
| Fetch (url : str) (body : Payload.t)
| Log (line : LogLine).

(** The fields of the object. [timerSeq] is not in the source: it counts the
    timers created so far and stands for the fresh handle [setTimeout] gives. *)
Record AlertsClient : Type := {
  TRUNCATED_SUFFIX : str;
  BATCH_SIZE : nat;
  webhookUrl : str;
  label : option str;
  env : option str;
  DEFAULT_TIMEOUT_MS : JS.Num;
  embeds : list EmbedWithCharCount;
  timeoutId : option nat;
  disabled : option bool;
  isSending : bool;
  isFlushing : bool;
  timerSeq : nat
}.

Definition set_embeds (c : AlertsClient) (v : list EmbedWithCharCount) : AlertsClient :=
  {| TRUNCATED_SUFFIX := TRUNCATED_SUFFIX c; BATCH_SIZE := BATCH_SIZE c;
     webhookUrl := webhookUrl c; label := label c; env := env c;
     DEFAULT_TIMEOUT_MS := DEFAULT_TIMEOUT_MS c; embeds := v;
     timeoutId := timeoutId c; disabled := disabled c;
     isSending := isSending c; isFlushing := isFlushing c;
     timerSeq := timerSeq c |}.

Definition set_isSending (c : AlertsClient) (v : bool) : AlertsClient :=
  {| TRUNCATED_SUFFIX := TRUNCATED_SUFFIX c; BATCH_SIZE := BATCH_SIZE c;
     webhookUrl := webhookUrl c; label := label c; env := env c;
     DEFAULT_TIMEOUT_MS := DEFAULT_TIMEOUT_MS c; embeds := embeds c;
     timeoutId := timeoutId c; disabled := disabled c;
     isSending := v; isFlushing := isFlushing c;
     timerSeq := timerSeq c |}.

(** [this.timeoutId = setTimeout(...)]: the fresh handle is stored. *)
Definition set_timeout (c : AlertsClient) : AlertsClient :=
  {| TRUNCATED_SUFFIX := TRUNCATED_SUFFIX c; BATCH_SIZE := BATCH_SIZE c;
     webhookUrl := webhookUrl c; label := label c; env := env c;
     DEFAULT_TIMEOUT_MS := DEFAULT_TIMEOUT_MS c; embeds := embeds c;
     timeoutId := Some (timerSeq c); disabled := disabled c;
     isSending := isSending c; isFlushing := isFlushing c;
     timerSeq := S (timerSeq c) |}.

(** The constructor. *)
Definition new (options : AlertsClientOptions.t) : AlertsClient :=
  let configs :=
    match AlertsClientOptions.configs options with
    | Some cfg => cfg
    | None => {| Configs.TRUNCATED_SUFFIX := None; Configs.DEFAULT_TIMEOUT_MS := None |}
    end in
  {| TRUNCATED_SUFFIX :=
       match Configs.TRUNCATED_SUFFIX configs with
       | Some s => if JS.truthy (Some s) then s else lit "..."
       | None => lit "..."
       end;
     BATCH_SIZE := 10;
     webhookUrl := AlertsClientOptions.webhookUrl options;
     label := AlertsClientOptions.label options;
     env := AlertsClientOptions.env options;
     DEFAULT_TIMEOUT_MS :=
       match Configs.DEFAULT_TIMEOUT_MS configs with
       | Some n => if JS.numTruthy n then n else JS.Fin (1000 * 10)
       | None => JS.Fin (1000 * 10)
       end;
     embeds := [];
     timeoutId := None;
     disabled := AlertsClientOptions.disabled options;
     isSending := false;
     isFlushing := false;
     timerSeq := 0 |}.

(** A template literal prints a missing value as [undefined]. *)
Definition interpolate (s : option str) : str :=
  match s with
  | Some v => v
  | None => lit "undefined"
  end.

Definition clearPending (c : AlertsClient) : list Effect :=
  match timeoutId c with
  | Some h => [ClearTimeout h]
  | None => []
  end.

(** [addAlert]. The identifier and the clock are what [alertToEmbeds] draws
    from its environment during this call. *)
Definition addAlert (c : AlertsClient) (alertId : str) (now : nat -> str)
           (alert : AlertInput) : AlertsClient * list Effect * Outcome unit :=
  if isFlushing c then (c, [Log (InfoSkippingAlert alert)], Returns tt)
  else
    match alertToEmbeds alertId now alert (TRUNCATED_SUFFIX c) with
    | Returns produced =>
        let c := set_embeds c (embeds c ++ produced) in
        if match timeoutId c with None => true | Some _ => false end
           && negb (isSending c)
        then (set_timeout c, [SetTimeout (timerSeq c) (DEFAULT_TIMEOUT_MS c)],
              Returns tt)
        else (c, [], Returns tt)
    | Throws e => (c, [], Throws e)
    | Diverges => (c, [], Diverges)
    end.

(** The answer of the network to the one [fetch] of a send attempt. *)
Record Response : Type := {
  ok : bool;
  status : Z;
  retryAfter : option str;   (* [res.headers.get('Retry-After')] *)
  bodyText : option str      (* [res.text().catch(() => null)] *)
}.

Inductive Transport : Type :=
| Responds (res : Response)
| Rejects.

(** The tail of [sendAlertsBatch], from
    [this.embeds = this.embeds.slice(this.BATCH_SIZE)] on. [skipn] is [slice]
    with one non-negative index. *)
Definition finishSend (c : AlertsClient) (batch : list Embed.t)
           (timeoutOverrideMs : option JS.Num) (before : list Effect)
  : AlertsClient * list Effect * Outcome JS.Num :=
  let c := set_embeds c (skipn (BATCH_SIZE c) (embeds c)) in
  let effects := before ++ [Log (InfoSent (length batch))] in
  match embeds c with
  | _ :: _ =>
      let timeoutMs :=
        match timeoutOverrideMs with
        | Some n => if JS.numTruthy n then n else DEFAULT_TIMEOUT_MS c
        | None => DEFAULT_TIMEOUT_MS c
        end in
      (set_timeout c, effects ++ [SetTimeout (timerSeq c) timeoutMs],
       Returns timeoutMs)
  | [] => (set_isSending c false, effects, Returns (JS.Fin 0))
  end.

(** [sendAlertsBatch], given the answer [net] of the network to its [fetch]
    (not consulted in disabled mode, where nothing is fetched). The attempt
    is one step: no other method of the client runs while the [fetch] is
    awaited. The statement [this.embeds.slice(0, batch.length)] computes a
    copy and drops it; it has no counterpart here. *)
Definition sendAlertsBatch (c : AlertsClient) (timeoutOverrideMs : option JS.Num)
           (net : Transport) : AlertsClient * list Effect * Outcome JS.Num :=
  match embeds c with
  | [] => (c, [], Returns (JS.Fin 0))
  | _ :: _ =>
      let cleared := clearPending c in
      let c := set_isSending c true in
      let batch := fillBatch (embeds c) (BATCH_SIZE c) in
      if match disabled c with Some true => true | _ => false end
      then finishSend c batch timeoutOverrideMs
             (cleared ++ [Log (InfoDisabled batch)])
      else
        let posted :=
          cleared ++
          [Fetch (webhookUrl c)
             {| Payload.embeds := batch;
                Payload.content :=
                  lit "**" ++ interpolate (label c) ++ lit " | "
                  ++ interpolate (env c) ++ lit "**" |}] in
        match net with
        | Rejects => (c, posted, Throws FetchFailed)
        | Responds res =>
            if negb (ok res) then
              if (status res =? 429)%Z then
                let retryAfterSeconds :=
                  match retryAfter res with
                  | Some h => if JS.truthy (Some h) then JS.parseInt h else JS.Fin 30
                  | None => JS.Fin 30
                  end in
                let timeoutMs := JS.mul retryAfterSeconds (JS.Fin 1000) in
                (set_isSending (set_timeout c) false,
                 posted ++ [SetTimeout (timerSeq c) timeoutMs;
                            Log (InfoRateLimit retryAfterSeconds)],
                 Returns timeoutMs)
              else
                finishSend c batch timeoutOverrideMs
                  (posted ++ [Log (ErrorFailedToSend (bodyText res))])
            else finishSend c batch timeoutOverrideMs posted
        end
  end.

Definition stop (c : AlertsClient) : AlertsClient * list Effect :=
  (c, clearPending c).

End Client.

(* ------------------------------------------------------------------ *)
(** ** src/lazy-loading-client.ts *)

Module LazyLoading.
Import Types.

(** The core client as the wrapper uses it: it is built from a configuration
    and then receives method calls; [received] lists them, oldest first. *)
Inductive Call : Type :=
| CallAddAlert (alert : AlertInput)
| CallFlush
| CallStop.

Record Core : Type := {
  config : Client.AlertsClientOptions.t;
  received : list Call
}.

Definition call (core : Core) (c : Call) : Core :=
  {| config := config core; received := received core ++ [c] |}.

Inductive LogLine : Type :=
| WarnNotInitialized (method : str) (args : option AlertInput)
| WarnAlreadyInitialized
| InfoInitialized
| InfoProcessing (count : nat).

Record LazyLoadingAlertsClient : Type := {
  client : option Core;
  queuedAlerts : list AlertInput;
  flushRequested : bool;
  log : list LogLine
}.

(** [new LazyLoadingAlertsClient(logger)] *)
Definition new : LazyLoadingAlertsClient :=
  {| client := None; queuedAlerts := []; flushRequested := false; log := [] |}.

Definition logNotInitialized (w : LazyLoadingAlertsClient) (method : str)
           (args : option AlertInput) : LazyLoadingAlertsClient :=
  {| client := client w; queuedAlerts := queuedAlerts w;
     flushRequested := flushRequested w;
     log := log w ++ [WarnNotInitialized method args] |}.

(** [processQueue]. [client.flush()] is called in the same turn as the
    replay; [flushRequested] is reset once the promise it returns settles,
    and the state given here is the one after that. *)
Definition processQueue (w : LazyLoadingAlertsClient) : LazyLoadingAlertsClient :=
  match client w, queuedAlerts w with
  | None, _ => w
  | Some _, [] => w
  | Some core, _ :: _ =>
      let core := fold_left (fun k alert => call k (CallAddAlert alert))
                    (queuedAlerts w) core in
      let logged := log w ++ [InfoProcessing (length (queuedAlerts w))] in
      if flushRequested w
      then {| client := Some (call core CallFlush); queuedAlerts := [];
              flushRequested := false; log := logged |}
      else {| client := Some core; queuedAlerts := [];
              flushRequested := false; log := logged |}
  end.

Definition init (w : LazyLoadingAlertsClient) (cfg : Client.AlertsClientOptions.t)
  : LazyLoadingAlertsClient :=
  match client w with
  | Some _ =>
      {| client := client w; queuedAlerts := queuedAlerts w;
         flushRequested := flushRequested w;
         log := log w ++ [WarnAlreadyInitialized] |}
  | None =>
      processQueue
        {| client := Some {| config := cfg; received := [] |};
           queuedAlerts := queuedAlerts w;
           flushRequested := flushRequested w;
           log := log w ++ [InfoInitialized] |}
  end.

Definition addAlert (w : LazyLoadingAlertsClient) (alert : AlertInput)
  : LazyLoadingAlertsClient :=
  match client w with
  | Some core =>
      {| client := Some (call core (CallAddAlert alert));
         queuedAlerts := queuedAlerts w;
         flushRequested := flushRequested w; log := log w |}
  | None =>
      let w := logNotInitialized w (lit "addAlert") (Some alert) in
      {| client := client w; queuedAlerts := queuedAlerts w ++ [alert];
         flushRequested := flushRequested w; log := log w |}
  end.

Definition flush (w : LazyLoadingAlertsClient) : LazyLoadingAlertsClient :=
  match client w with
  | Some core =>
      {| client := Some (call core CallFlush);
         queuedAlerts := queuedAlerts w;
         flushRequested := flushRequested w; log := log w |}
  | None =>
      let w := logNotInitialized w (lit "flush") None in
      {| client := client w; queuedAlerts := queuedAlerts w;
         flushRequested := true; log := log w |}
  end.

Definition stop (w : LazyLoadingAlertsClient) : LazyLoadingAlertsClient :=
  match client w with
  | Some core =>
      {| client := Some (call core CallStop);
         queuedAlerts := queuedAlerts w;
         flushRequested := flushRequested w; log := log w |}
  | None => logNotInitialized w (lit "stop") None
  end.

(** A history of calls made on the wrapper. *)
Definition perform (w : LazyLoadingAlertsClient) (c : Call) : LazyLoadingAlertsClient :=
  match c with
  | CallAddAlert alert => addAlert w alert
  | CallFlush => flush w
  | CallStop => stop w
  end.

Definition performAll (w : LazyLoadingAlertsClient) (calls : list Call)
  : LazyLoadingAlertsClient :=
  fold_left perform calls w.

(** The alerts among the calls, in call order. *)
Definition alertsOf (calls : list Call) : list AlertInput :=
  flat_map (fun c => match c with CallAddAlert a => [a] | _ => [] end) calls.

Definition flushCalled (calls : list Call) : bool :=
  existsb (fun c => match c with CallFlush => true | _ => false end) calls.

End LazyLoading.

(* ------------------------------------------------------------------ *)
(** ** Notions used to state the properties *)

Import Types SizeAdjusting.


(** The characters a container holds: title, description, footer text and
    the name and value of every field, the [alertId] field included. *)
Definition optLen (s : option str) : Z :=
  match s with
  | Some v => JS.len v
  | None => 0%Z
  end.

Definition fieldCost (f : Field) : Z := (JS.len (name f) + JS.len (value f))%Z.

Definition fieldsCost (fs : list Field) : Z :=
  fold_right (fun f acc => (fieldCost f + acc)%Z) 0%Z fs.

Definition embedCost (e : Embed.t) : Z :=
  (optLen (Embed.title e) + optLen (Embed.description e)
   + optLen (option_map text (Embed.footer e)) + fieldsCost (Embed.fields e))%Z.

(** The size of a segment, as the packing loop measures it. *)
Definition segmentSize (seg : Segment) : Z :=
  match seg with
  | SegTitle c | SegDescription c | SegFooter c => JS.len c
  | SegField f => fieldCost f
  end.

(** The segments a container holds, read back in segment order; the first
    field is the [alertId] field and belongs to no segment. *)
Definition contentOf (e : Embed.t) : list Segment :=
  match Embed.title e with Some t => [SegTitle t] | None => [] end
  ++ match Embed.description e with Some d => [SegDescription d] | None => [] end
  ++ map SegField (tl (Embed.fields e))
  ++ match Embed.footer e with Some f => [SegFooter (text f)] | None => [] end.

Definition descriptionsIn (segs : list Segment) : list str :=
  flat_map (fun seg => match seg with SegDescription d => [d] | _ => [] end) segs.

Definition isTitle (seg : Segment) : bool :=
  match seg with SegTitle _ => true | _ => false end.
Definition isDescription (seg : Segment) : bool :=
  match seg with SegDescription _ => true | _ => false end.
Definition isFooter (seg : Segment) : bool :=
  match seg with SegFooter _ => true | _ => false end.
Definition isField (seg : Segment) : bool :=
  match seg with SegField _ => true | _ => false end.

(** Every context value has a string form, so that no [TypeError] is thrown
    while the fields are prepared. *)
Definition stringifiable (alert : AlertInput) : bool :=
  match context alert with
  | None => true
  | Some entries =>
      forallb (fun kv => match Stringify.stringify (snd kv) with
                         | Some _ => true
                         | None => false
                         end) entries
  end.

Definition sumCosts (es : list EmbedWithCharCount) : Z :=
  fold_right (fun e acc => (charsCount e + acc)%Z) 0%Z es.

(** A committed container is within the limits, and its frozen cost is the
    number of characters it really holds. *)
Definition withinLimits (e : EmbedWithCharCount) : Prop :=
  charsCount e = embedCost (embed e)
  /\ (charsCount e <= DISCORD_LIMITS.EMBED_TOTAL_CHARS)%Z
  /\ length (Embed.fields (embed e)) <= DISCORD_LIMITS.EMBED_MAX_FIELDS.

(** The invariant of the loop: the counters describe the open container. *)
Definition countersAgree (st : Packing) : Prop :=
  Forall withinLimits (embeds st)
  /\ match current st with
     | Some cur =>
         charCount st = embedCost cur
         /\ (charCount st <= DISCORD_LIMITS.EMBED_TOTAL_CHARS)%Z
         /\ fieldCount st = length (Embed.fields cur)
         /\ fieldCount st <= DISCORD_LIMITS.EMBED_MAX_FIELDS
     | None => True
     end.

(** A segment fits a fresh container, next to the [alertId] field. *)
Definition fitsFresh (alertId : str) (seg : Segment) : Prop :=
  (JS.len (lit "alertId") + JS.len alertId + segmentSize seg
   <= DISCORD_LIMITS.EMBED_TOTAL_CHARS)%Z.

(** Segments come in the order title, description chunks, fields, footer. *)
Definition rank (seg : Segment) : nat :=
  match seg with
  | SegTitle _ => 0
  | SegDescription _ => 1
  | SegField _ => 2
  | SegFooter _ => 3
  end.

Fixpoint ascending (r : nat) (segs : list Segment) : Prop :=
  match segs with
  | [] => True
  | seg :: rest => r <= rank seg /\ ascending (rank seg) rest
  end.

(** The text of a title, description or footer segment is never empty. *)
Definition nonblank (seg : Segment) : Prop :=
  match seg with
  | SegTitle c | SegDescription c | SegFooter c => c <> []
  | SegField _ => True
  end.

Definition idField (alertId : str) : Field :=
  {| name := lit "alertId"; value := alertId |}.

Definition headed (alertId : str) (e : Embed.t) : Prop :=
  exists rest, Embed.fields e = idField alertId :: rest.

(** The open container holds nothing that comes after rank [r]. *)
Definition tidy (alertId : str) (r : nat) (cur : Embed.t) : Prop :=
  exists rest,
    Embed.fields cur = idField alertId :: rest
    /\ Embed.title cur <> Some []
    /\ Embed.description cur <> Some []
    /\ (r < 3 -> Embed.footer cur = None)
    /\ (r < 2 -> rest = [])
    /\ (r < 1 -> Embed.description cur = None).

Definition orderly (alertId : str) (r : nat) (st : Packing) : Prop :=
  Forall (fun e => headed alertId (embed e)) (embeds st)
  /\ match current st with
     | Some cur => tidy alertId r cur
     | None => True
     end.

(** The segments placed so far, read back from the containers. *)
Definition readBack (st : Packing) : list Segment :=
  flat_map (fun e => contentOf (embed e)) (embeds st)
  ++ match current st with
     | Some cur => contentOf cur
     | None => []
     end.

(** Sample inputs. *)

Definition sampleId : str := lit "123e4567-e89b-12d3-a456-426614174000".

Definition otherId : str := lit "9b2f0c52-7d1e-4c7b-8a57-0d6c1f3e5a11".

Definition sampleClock (k : nat) : str := lit "2025-01-01T00:00:00.000Z".

Definition dots : str := lit "...".

Definition emptyAlert : AlertInput :=
  {| title := None; description := None; footer := None;
     context := None; level := None |}.

Definition sampleAlert : AlertInput :=
  {| title := Some (lit "Something happened!");
     description := Some (lit "This is an info alert.");
     footer := Some (lit "my-app");
     context := Some [ (lit "userId", Stringify.VOther (Some (lit "123")));
                       (lit "action", Stringify.VString (lit "login")) ];
     level := Some info |}.

(** A 300-character title and nothing else. *)
Definition longTitleAlert : AlertInput :=
  {| title := Some (repeat "A"%char 300); description := None; footer := None;
     context := None; level := None |}.

(** 30 context entries with short values, and 30 with 1000-character values. *)
Definition thirtyEntries (v : str) : list (str * Stringify.JsValue) :=
  map (fun k => (lit "key" ++ repeat "k"%char k, Stringify.VString v)) (seq 0 30).

Definition thirtyAlert (v : str) : AlertInput :=
  {| title := None; description := None; footer := None;
     context := Some (thirtyEntries v); level := Some warn |}.

(** The per-container conditions of the limits, on the container as built. *)
Definition respectsLimits (e : EmbedWithCharCount) : Prop :=
  (embedCost (embed e) <= DISCORD_LIMITS.EMBED_TOTAL_CHARS)%Z
  /\ charsCount e = embedCost (embed e)
  /\ length (Embed.fields (embed e)) <= DISCORD_LIMITS.EMBED_MAX_FIELDS
  /\ length (filter isTitle (contentOf (embed e))) <= 1
  /\ length (filter isDescription (contentOf (embed e))) <= 1
  /\ length (filter isFooter (contentOf (embed e))) <= 1.

(** The statement of C2 at one input: an alert with no title, description,
    footer or context entry gives exactly one container, which holds the
    [alertId] field and nothing else. *)
Definition oneContainerForEmptyAlert alertId now (alert : AlertInput)
           (suffix : str) : Prop :=
  title alert = None -> description alert = None -> footer alert = None ->
  (context alert = None \/ context alert = Some []) ->
  exists e, alertToEmbeds alertId now alert suffix = Returns [e]
            /\ Embed.fields (embed e) = [idField alertId]
            /\ contentOf (embed e) = [].

(** The cost of the [alertId] field, with which every container starts. *)
Definition idCost (alertId : str) : Z :=
  (JS.len (lit "alertId") + JS.len alertId)%Z.

Definition withFields (e : Embed.t) (fs : list Field) : Embed.t :=
  {| Embed.color := Embed.color e; Embed.title := Embed.title e;
     Embed.description := Embed.description e; Embed.footer := Embed.footer e;
     Embed.timestamp := Embed.timestamp e; Embed.fields := fs |}.

(** The container [startNewEmbed] opens when [k] containers are committed. *)
Definition freshEmbed (alertId : str) (now : nat -> str) (lvl : option Level)
           (k : nat) : Embed.t :=
  {| Embed.color := getColorForLevel lvl;
     Embed.title := None;
     Embed.description := None;
     Embed.footer := None;
     Embed.timestamp := now k;
     Embed.fields := [idField alertId] |}.

(** The statement of C6 at one input: 30 context entries and nothing else
    give 30 field segments, and a first container that is closed when it has
    25 fields, followed by a second one with the same [alertId] field. *)
Definition thirtyEntriesSplit alertId now (alert : AlertInput) (suffix : str) : Prop :=
  title alert = None -> description alert = None -> footer alert = None ->
  (exists entries, context alert = Some entries /\ length entries = 30) ->
  exists p e1 e2 rest,
    prepare alert suffix = Returns p
    /\ length (segmentsOf p) = 30
    /\ forallb isField (segmentsOf p) = true
    /\ alertToEmbeds alertId now alert suffix = Returns (e1 :: e2 :: rest)
    /\ length (Embed.fields (embed e1)) = 25
    /\ headed alertId (embed e1)
    /\ headed alertId (embed e2).

Definition fieldCounts (o : Outcome (list EmbedWithCharCount)) : option (list nat) :=
  match o with
  | Returns es => Some (map (fun e => length (Embed.fields (embed e))) es)
  | _ => None
  end.

Definition preparedOr (entries : list (str * Stringify.JsValue)) (suffix : str)
  : list Field :=
  match prepareFields entries suffix with
  | Some fs => fs
  | None => []
  end.

Definition queueOf (r : Client.AlertsClient * list Client.Effect * Outcome JS.Num)
  : list EmbedWithCharCount :=
  Client.embeds (fst (fst r)).

Definition effectsOf (r : Client.AlertsClient * list Client.Effect * Outcome JS.Num)
  : list Client.Effect :=
  snd (fst r).

(** The containers posted by the [fetch] calls among the effects. *)
Definition fetched (effects : list Client.Effect) : list (list Embed.t) :=
  flat_map (fun e => match e with
                     | Client.Fetch _ body => [Client.Payload.embeds body]
                     | _ => []
                     end) effects.

(** The delays of the timers set among the effects. *)
Definition scheduled (effects : list Client.Effect) : list JS.Num :=
  flat_map (fun e => match e with
                     | Client.SetTimeout _ ms => [ms]
                     | _ => []
                     end) effects.

Definition logged (effects : list Client.Effect) : list Client.LogLine :=
  flat_map (fun e => match e with
                     | Client.Log line => [line]
                     | _ => []
                     end) effects.

Definition sampleOptions : Client.AlertsClientOptions.t :=
  {| Client.AlertsClientOptions.webhookUrl := lit "https://example.com/webhook";
     Client.AlertsClientOptions.label := Some (lit "test");
     Client.AlertsClientOptions.env := Some (lit "test");
     Client.AlertsClientOptions.disabled := None;
     Client.AlertsClientOptions.configs := None |}.

Definition okResponse : Client.Response :=
  {| Client.ok := true; Client.status := 200%Z;
     Client.retryAfter := None; Client.bodyText := Some [] |}.

Definition rateLimited (header : option str) : Client.Response :=
  {| Client.ok := false; Client.status := 429%Z;
     Client.retryAfter := header; Client.bodyText := Some [] |}.

(** An alert whose single container costs 3000 characters: the 43 of the
    [alertId] field and a description of 2957. *)
Definition halfBudgetAlert : AlertInput :=
  {| title := None; description := Some (repeat "d"%char 2957); footer := None;
     context := None; level := Some error |}.

(** A client to which two such alerts were added. *)
Definition twoQueued : Client.AlertsClient :=
  let c0 := Client.new sampleOptions in
  let c1 := fst (fst (Client.addAlert c0 sampleId sampleClock halfBudgetAlert)) in
  fst (fst (Client.addAlert c1 otherId sampleClock halfBudgetAlert)).

(** Whether a send attempt ends in the tail of [sendAlertsBatch]: disabled
    mode, a response that is ok, or a failure other than 429. *)
Definition completes (c : Client.AlertsClient) (net : Client.Transport) : bool :=
  match Client.disabled c with
  | Some true => true
  | _ =>
      match net with
      | Client.Responds res =>
          Client.ok res || negb (Client.status res =? 429)%Z
      | Client.Rejects => false
      end
  end.

Definition isRateLimited (c : Client.AlertsClient) (net : Client.Transport) : bool :=
  match Client.disabled c with
  | Some true => false
  | _ =>
      match net with
      | Client.Responds res =>
          negb (Client.ok res) && (Client.status res =? 429)%Z
      | Client.Rejects => false
      end
  end.

Definition receivedBy (w : LazyLoading.LazyLoadingAlertsClient)
  : list LazyLoading.Call :=
  match LazyLoading.client w with
  | Some core => LazyLoading.received core
  | None => []
  end.

Definition noAlerts (calls : list LazyLoading.Call) : bool :=
  match LazyLoading.alertsOf calls with
  | [] => true
  | _ :: _ => false
  end.

(** A header value that is a plain run of decimal digits, and its value. *)
Definition isDigit (c : ascii) : bool :=
  (48 <=? nat_of_ascii c) && (nat_of_ascii c <=? 57).

Definition decimalStep (acc : Z) (c : ascii) : Z :=
  (acc * 10 + Z.of_nat (nat_of_ascii c - 48))%Z.

Definition decimalValue (ds : str) : Z := fold_left decimalStep ds 0%Z.

(* ------------------------------------------------------------------ *)
(** ** Further notions *)

(** The budget of each part of a container, as [prepare] enforces it on the
    segment that carries the part. *)
Definition withinPartBudget (seg : Segment) : Prop :=
  match seg with
  | SegTitle c => (JS.len c <= DISCORD_LIMITS.TITLE)%Z
  | SegDescription c => (JS.len c <= DISCORD_LIMITS.DESCRIPTION)%Z
  | SegFooter c => (JS.len c <= DISCORD_LIMITS.FOOTER)%Z
  | SegField f =>
      (JS.len (name f) <= DISCORD_LIMITS.FIELD_NAME)%Z
      /\ (JS.len (value f) <= DISCORD_LIMITS.FIELD_VALUE)%Z
  end.

(** Whether an alert gives rise to any segment. *)
Definition hasContent (alert : AlertInput) : bool :=
  JS.truthy (title alert)
  || JS.truthy (description alert)
  || JS.truthy (footer alert)
  || match context alert with
     | Some (_ :: _) => true
     | _ => false
     end.

(** An alert every part of which is within its budget, so that [prepare]
    has nothing to cut. *)
Definition fitsBudgets (alert : AlertInput) : Prop :=
  (optLen (title alert) <= DISCORD_LIMITS.TITLE)%Z
  /\ (optLen (footer alert) <= DISCORD_LIMITS.FOOTER)%Z
  /\ match context alert with
     | None => True
     | Some entries =>
         Forall (fun kv =>
                   (JS.len (fst kv) <= DISCORD_LIMITS.FIELD_NAME)%Z
                   /\ (optLen (Stringify.stringify (snd kv))
                       <= DISCORD_LIMITS.FIELD_VALUE)%Z) entries
     end.

(** The field a context entry stands for when nothing is cut. *)
Definition verbatimField (kv : str * Stringify.JsValue) (f : Field) : Prop :=
  name f = fst kv /\ Stringify.stringify (snd kv) = Some (value f).

(** The segment of an optional text, present when the text is truthy. *)
Definition slotSegment (mk : str -> Segment) (s : option str) : list Segment :=
  match s with
  | Some (c :: t) => [mk (c :: t)]
  | _ => []
  end.


(** The total size of a list of segments. *)
Definition sumSizes (segs : list Segment) : Z :=
  fold_right (fun seg acc => (segmentSize seg + acc)%Z) 0%Z segs.

(** The prepared parts of an alert, when [prepare] returns them. *)
Definition preparedAlert (alert : AlertInput) (suffix : str) : Prepared.t :=
  match prepare alert suffix with
  | Returns p => p
  | _ => {| Prepared.title := None; Prepared.footer := None;
            Prepared.descriptionChunks := []; Prepared.fields := [] |}
  end.




(** *** The client under interleaving

    [sendAlertsBatch] is an [async] method: it runs up to [await fetch(...)],
    and resumes when the request settles. Between the two, other methods of
    the client may run ([addAlert], another [sendAlertsBatch] started by
    [flush] or by a timer). [sendStart] is the part before the [await],
    [sendSettle] the part after it; in the branch that awaits [res.text()]
    nothing is read or written between the two awaits, so that branch is
    resumed once, when the text is there. [flush] appears in a run as its
    assignments to [isFlushing] and its calls of [sendAlertsBatch]. *)
Module Runs.
Import Client.

Inductive Started : Type :=
| Awaiting (batch : list Embed.t)
| Settled (result : Outcome JS.Num).

Definition set_isFlushing (c : AlertsClient) (v : bool) : AlertsClient :=
  {| TRUNCATED_SUFFIX := TRUNCATED_SUFFIX c; BATCH_SIZE := BATCH_SIZE c;
     webhookUrl := webhookUrl c; label := label c; env := env c;
     DEFAULT_TIMEOUT_MS := DEFAULT_TIMEOUT_MS c; embeds := embeds c;
     timeoutId := timeoutId c; disabled := disabled c;
     isSending := isSending c; isFlushing := v;
     timerSeq := timerSeq c |}.

(** [sendAlertsBatch] up to [await fetch(...)]; in disabled mode and on an
    empty queue nothing is awaited and the method runs to its end. *)
Definition sendStart (c : AlertsClient) (timeoutOverrideMs : option JS.Num)
  : AlertsClient * list Effect * Started :=
  match embeds c with
  | [] => (c, [], Settled (Returns (JS.Fin 0)))
  | _ :: _ =>
      let cleared := clearPending c in
      let c := set_isSending c true in
      let batch := fillBatch (embeds c) (BATCH_SIZE c) in
      if match disabled c with Some true => true | _ => false end
      then
        let r := finishSend c batch timeoutOverrideMs
                   (cleared ++ [Log (InfoDisabled batch)]) in
        (fst (fst r), snd (fst r), Settled (snd r))
      else
        (c,
         cleared ++
         [Fetch (webhookUrl c)
            {| Payload.embeds := batch;
               Payload.content :=
                 lit "**" ++ interpolate (label c) ++ lit " | "
                 ++ interpolate (env c) ++ lit "**" |}],
         Awaiting batch)
  end.

(** [sendAlertsBatch] from the point where the request has settled. *)
Definition sendSettle (c : AlertsClient) (batch : list Embed.t)
           (timeoutOverrideMs : option JS.Num) (net : Transport)
  : AlertsClient * list Effect * Outcome JS.Num :=
  match net with
  | Rejects => (c, [], Throws FetchFailed)
  | Responds res =>
      if negb (ok res) then
        if (status res =? 429)%Z then
          let retryAfterSeconds :=
            match retryAfter res with
            | Some h => if JS.truthy (Some h) then JS.parseInt h else JS.Fin 30
            | None => JS.Fin 30
            end in
          let timeoutMs := JS.mul retryAfterSeconds (JS.Fin 1000) in
          (set_isSending (set_timeout c) false,
           [SetTimeout (timerSeq c) timeoutMs;
            Log (InfoRateLimit retryAfterSeconds)],
           Returns timeoutMs)
        else
          finishSend c batch timeoutOverrideMs
            [Log (ErrorFailedToSend (bodyText res))]
      else finishSend c batch timeoutOverrideMs []
  end.

(** A send attempt during which nothing else runs. *)
Definition thenSettle (r : AlertsClient * list Effect * Started)
           (timeoutOverrideMs : option JS.Num) (net : Transport)
  : AlertsClient * list Effect * Outcome JS.Num :=
  match snd r with
  | Settled out => (fst (fst r), snd (fst r), out)
  | Awaiting batch =>
      let r2 := sendSettle (fst (fst r)) batch timeoutOverrideMs net in
      (fst (fst r2), snd (fst r) ++ snd (fst r2), snd r2)
  end.

(** What can happen to a client, one uninterrupted piece of code at a time. *)
Inductive Event : Type :=
| EvAddAlert (alertId : str) (now : nat -> str) (alert : AlertInput)
| EvSendStart (timeoutOverrideMs : option JS.Num)
| EvSendSettle (batch : list Embed.t) (timeoutOverrideMs : option JS.Num)
               (net : Transport)
| EvStop
| EvFlushing (v : bool).

Definition step (c : AlertsClient) (ev : Event) : AlertsClient * list Effect :=
  match ev with
  | EvAddAlert alertId now alert => fst (addAlert c alertId now alert)
  | EvSendStart timeoutOverrideMs => fst (sendStart c timeoutOverrideMs)
  | EvSendSettle batch timeoutOverrideMs net =>
      fst (sendSettle c batch timeoutOverrideMs net)
  | EvStop => stop c
  | EvFlushing v => (set_isFlushing c v, [])
  end.

Fixpoint run (c : AlertsClient) (evs : list Event) : AlertsClient * list Effect :=
  match evs with
  | [] => (c, [])
  | ev :: rest =>
      let r1 := step c ev in
      let r2 := run (fst r1) rest in
      (fst r2, snd r1 ++ snd r2)
  end.

(** The number of timers that the [addAlert] calls of a run set. *)
Fixpoint addTimers (c : AlertsClient) (evs : list Event) : nat :=
  match evs with
  | [] => 0
  | ev :: rest =>
      match ev with
      | EvAddAlert _ _ _ => length (scheduled (snd (step c ev)))
      | _ => 0
      end + addTimers (fst (step c ev)) rest
  end.

End Runs.

(** The identifiers drawn by the [addAlert] calls of a run are UUIDs, of 36
    characters. *)
Definition uuidSized (ev : Runs.Event) : Prop :=
  match ev with
  | Runs.EvAddAlert alertId _ _ => JS.len alertId = 36%Z
  | _ => True
  end.

(** A client whose queued containers are within the limits, with a suffix no
    longer than a title and batches of at most ten containers. *)
Definition sound (c : Client.AlertsClient) : Prop :=
  Forall withinLimits (Client.embeds c)
  /\ (JS.len (Client.TRUNCATED_SUFFIX c) <= DISCORD_LIMITS.TITLE)%Z
  /\ Client.BATCH_SIZE c <= DISCORD_LIMITS.MAX_EMBEDS_PER_PAYLOAD.

(** What a posted list of embeds has to satisfy. *)
Definition batchOk (batch : list Embed.t) : Prop :=
  length batch <= DISCORD_LIMITS.MAX_EMBEDS_PER_PAYLOAD
  /\ (fold_right (fun e acc => (embedCost e + acc)%Z) 0%Z batch
      <= DISCORD_LIMITS.EMBED_TOTAL_CHARS)%Z
  /\ Forall (fun e => (embedCost e <= DISCORD_LIMITS.EMBED_TOTAL_CHARS)%Z
                      /\ length (Embed.fields e) <= DISCORD_LIMITS.EMBED_MAX_FIELDS)
       batch.

(** The loop of [processQueue] on the client itself: the alerts on which
    [addAlert] was called, and whether the loop ran to its end. Each call
    draws its identifier and its clock. *)
Fixpoint replayOnClient (c : Client.AlertsClient)
         (adds : list (str * (nat -> str) * AlertInput))
  : Client.AlertsClient * list AlertInput * bool :=
  match adds with
  | [] => (c, [], true)
  | a :: rest =>
      let r := Client.addAlert c (fst (fst a)) (snd (fst a)) (snd a) in
      match snd r with
      | Returns _ =>
          let r' := replayOnClient (fst (fst r)) rest in
          (fst (fst r'), snd a :: snd (fst r'), snd r')
      | _ => (fst (fst r), [snd a], false)
      end
  end.

(** Alerts with the identifier and the clock each [addAlert] call draws. *)
Definition addAll (adds : list (str * (nat -> str) * AlertInput))
  : list Runs.Event :=
  map (fun a => Runs.EvAddAlert (fst (fst a)) (snd (fst a)) (snd a)) adds.

(** The containers [alertToEmbeds] makes of them, in order; an alert on
    which it throws contributes none. *)
Definition producedBy (suffix : str) (adds : list (str * (nat -> str) * AlertInput))
  : list EmbedWithCharCount :=
  flat_map (fun a => match alertToEmbeds (fst (fst a)) (snd (fst a)) (snd a) suffix with
                     | Returns es => es
                     | _ => []
                     end) adds.

(** *** The wrapper when the core client throws

    [processQueue] calls [this.client.addAlert(alert)] for each queued alert.
    The client is the one [init] has just built, so it is not flushing, and
    [addAlert] throws exactly when [alertToEmbeds] does: when a context value
    of the alert has no string form. The exception ends the loop and rejects
    the promise of [processQueue], which [init] drops. *)
Module LazyRuns.
Import LazyLoading.

(** The [for (const alert of this.queuedAlerts)] loop; the boolean tells
    whether it ran to its end. The call that throws was made. *)
Fixpoint replay (core : Core) (alerts : list AlertInput) : Core * bool :=
  match alerts with
  | [] => (core, true)
  | alert :: rest =>
      let core := call core (CallAddAlert alert) in
      if stringifiable alert then replay core rest else (core, false)
  end.

Definition processQueue (w : LazyLoadingAlertsClient)
  : LazyLoadingAlertsClient * Outcome unit :=
  match client w, queuedAlerts w with
  | None, _ => (w, Returns tt)
  | Some _, [] => (w, Returns tt)
  | Some core, _ :: _ =>
      let logged := log w ++ [InfoProcessing (length (queuedAlerts w))] in
      let r := replay core (queuedAlerts w) in
      if snd r then
        if flushRequested w
        then ({| client := Some (call (fst r) CallFlush); queuedAlerts := [];
                 flushRequested := false; log := logged |}, Returns tt)
        else ({| client := Some (fst r); queuedAlerts := [];
                 flushRequested := false; log := logged |}, Returns tt)
      else ({| client := Some (fst r); queuedAlerts := queuedAlerts w;
               flushRequested := flushRequested w; log := logged |},
            Throws TypeError)
  end.

(** [init], with the way the promise of [processQueue] settles. *)
Definition init (w : LazyLoadingAlertsClient) (cfg : Client.AlertsClientOptions.t)
  : LazyLoadingAlertsClient * Outcome unit :=
  match client w with
  | Some _ =>
      ({| client := client w; queuedAlerts := queuedAlerts w;
          flushRequested := flushRequested w;
          log := log w ++ [WarnAlreadyInitialized] |}, Returns tt)
  | None =>
      processQueue
        {| client := Some {| config := cfg; received := [] |};
           queuedAlerts := queuedAlerts w;
           flushRequested := flushRequested w;
           log := log w ++ [InfoInitialized] |}
  end.

(** What the program does with the wrapper: a method call, or [init]. *)
Inductive Action : Type :=
| Do (c : Call)
| Init (cfg : Client.AlertsClientOptions.t).

Definition act (w : LazyLoadingAlertsClient) (a : Action) : LazyLoadingAlertsClient :=
  match a with
  | Do c => perform w c
  | Init cfg => fst (init w cfg)
  end.

Definition actAll (w : LazyLoadingAlertsClient) (history : list Action)
  : LazyLoadingAlertsClient :=
  fold_left act history w.

(** The method calls of a history, in order. *)
Definition callsOf (history : list Action) : list Call :=
  flat_map (fun a => match a with Do c => [c] | Init _ => [] end) history.

End LazyRuns.

(** The configuration the core client was built with. *)
Definition configOf (w : LazyLoading.LazyLoadingAlertsClient)
  : option Client.AlertsClientOptions.t :=
  option_map LazyLoading.config (LazyLoading.client w).

(** Send attempts made one after the other, nothing happening in between;
    each with its override and the answer of the network. *)
Definition sendEach (c : Client.AlertsClient)
           (attempts : list (option JS.Num * Client.Transport))
  : Client.AlertsClient :=
  fold_left (fun k a => fst (fst (Client.sendAlertsBatch k (fst a) (snd a))))
    attempts c.

(* ------------------------------------------------------------------ *)
(** ** Strings: [slice], [truncate], [chunk] *)

Lemma len_nonneg (s : str) : (0 <= JS.len s)%Z.
Proof. unfold JS.len. lia. Qed.

Lemma len_app (a b : str) : JS.len (a ++ b) = (JS.len a + JS.len b)%Z.
Proof. unfold JS.len. rewrite length_app. lia. Qed.

(** A slice from 0 to a non-negative end is a prefix. *)
Lemma slice_prefix (s : str) (k : Z) :
  (0 <= k)%Z -> JS.slice s 0 k = firstn (Z.to_nat k) s.
Proof.
  intros Hk. unfold JS.slice, JS.relIndex.
  destruct (Z.ltb_spec k 0); [lia|].
  simpl. rewrite Nat.sub_0_r.
  destruct (Nat.min_spec (Z.to_nat k) (length s)) as [[Hlt ->]|[Hge ->]].
  - reflexivity.
  - rewrite !firstn_all2; auto.
Qed.

(** A slice from 0 to a negative end drops that many characters at the end. *)
Lemma slice_negative_end (s : str) (k : Z) :
  (k < 0)%Z -> JS.slice s 0 k = firstn (Z.to_nat (JS.len s + k)) s.
Proof.
  intros Hk. unfold JS.slice, JS.relIndex, JS.len.
  destruct (Z.ltb_spec k 0); [|lia].
  simpl. rewrite Nat.sub_0_r. f_equal. lia.
Qed.

(** A slice between two positions inside the string. *)
Lemma slice_inside (s : str) (i j : Z) :
  (0 <= i <= j)%Z -> (i <= JS.len s)%Z ->
  JS.slice s i j = firstn (Z.to_nat j - Z.to_nat i) (skipn (Z.to_nat i) s).
Proof.
  intros Hij Hi. unfold JS.slice, JS.relIndex, JS.len in *.
  destruct (Z.ltb_spec i 0); [lia|].
  destruct (Z.ltb_spec j 0); [lia|].
  replace (Nat.min (Z.to_nat i) (length s)) with (Z.to_nat i) by lia.
  destruct (Nat.min_spec (Z.to_nat j) (length s)) as [[Hlt ->]|[Hge ->]].
  - reflexivity.
  - rewrite !firstn_all2; auto; rewrite length_skipn; lia.
Qed.

Lemma truncate_short (txt : str) (max : Z) (suffix : str) :
  (JS.len txt <= max)%Z -> truncate txt max suffix = txt.
Proof.
  intros H. unfold truncate.
  destruct (Z.ltb_spec max (JS.len txt)); [lia | reflexivity].
Qed.

Lemma truncate_long (txt : str) (max : Z) (suffix : str) :
  (JS.len suffix <= max)%Z -> (max < JS.len txt)%Z ->
  truncate txt max suffix = firstn (Z.to_nat (max - JS.len suffix)) txt ++ suffix.
Proof.
  intros Hs H. unfold truncate.
  destruct (Z.ltb_spec max (JS.len txt)); [|lia].
  rewrite slice_prefix by lia. reflexivity.
Qed.

(** With a suffix no longer than the budget the result fits the budget. *)
Lemma truncate_len_le (txt : str) (max : Z) (suffix : str) :
  (JS.len suffix <= max)%Z -> (JS.len (truncate txt max suffix) <= max)%Z.
Proof.
  intros Hs. destruct (Z.le_gt_cases (JS.len txt) max) as [H|H].
  - rewrite truncate_short; auto.
  - rewrite truncate_long by lia. rewrite len_app.
    unfold JS.len in *. rewrite length_firstn. lia.
Qed.

Lemma truncate_len_exact (txt : str) (max : Z) (suffix : str) :
  (JS.len suffix <= max)%Z -> (max < JS.len txt)%Z ->
  JS.len (truncate txt max suffix) = max.
Proof.
  intros Hs H. rewrite truncate_long by lia. rewrite len_app.
  unfold JS.len in *. rewrite length_firstn. lia.
Qed.

(** A non-empty text stays non-empty under truncation to a positive budget. *)
Lemma truncate_nonempty (txt : str) (max : Z) (suffix : str) :
  (0 < max)%Z -> txt <> [] -> truncate txt max suffix <> [].
Proof.
  intros Hm Hne. unfold truncate.
  destruct (Z.ltb_spec max (JS.len txt)) as [Hlt|Hge]; auto.
  destruct suffix as [|c suffix].
  - rewrite app_nil_r. change (JS.len []) with 0%Z.
    rewrite slice_prefix by lia.
    destruct txt as [|a txt]; [congruence|].
    destruct (Z.to_nat (max - 0)) eqn:E; [lia|]. simpl. congruence.
  - intros Habs. apply app_eq_nil in Habs. destruct Habs. congruence.
Qed.

(** When the suffix is longer than the budget the slice end is negative:
    the text loses only [len suffix - max] characters at its end, and the
    whole suffix is appended. *)
Lemma truncate_long_suffix (txt : str) (max : Z) (suffix : str) :
  (max < JS.len suffix)%Z -> (max < JS.len txt)%Z ->
  truncate txt max suffix
  = firstn (Z.to_nat (JS.len txt - (JS.len suffix - max))) txt ++ suffix
  /\ (max < JS.len (truncate txt max suffix))%Z.
Proof.
  intros Hs H. unfold truncate.
  destruct (Z.ltb_spec max (JS.len txt)); [|lia].
  rewrite slice_negative_end by lia.
  split.
  - f_equal. f_equal. f_equal. lia.
  - rewrite len_app.
    match goal with |- context [JS.len (firstn ?n txt)] =>
      pose proof (len_nonneg (firstn n txt)) end.
    lia.
Qed.

Lemma firstn_then_more (A : Type) (l : list A) (a b : nat) :
  firstn a l ++ firstn b (skipn a l) = firstn (a + b) l.
Proof.
  revert l. induction a as [|a IH]; intros l; simpl.
  - reflexivity.
  - destruct l as [|x l]; simpl.
    + now rewrite firstn_nil.
    + f_equal. apply IH.
Qed.

(** The loop of [chunk] with a positive size: it ends within one step per
    remaining character, and the chunks collected so far always spell the
    prefix of the text already visited. *)
Lemma chunk_loop_spec (size : Z) (txt : str) :
  (0 < size)%Z ->
  forall (fuel : nat) (i : Z) (chunks : list str),
    (0 <= i)%Z ->
    (JS.len txt <= i + Z.of_nat fuel)%Z ->
    concat chunks = firstn (Z.to_nat i) txt ->
    Forall (fun c => 0 < JS.len c <= size)%Z chunks ->
    exists r, chunk_loop fuel txt size i chunks = Some r
              /\ concat r = txt
              /\ Forall (fun c => 0 < JS.len c <= size)%Z r.
Proof.
  intros Hsize. induction fuel as [|fuel IH]; intros i chunks Hi Hfuel Hcat Hall.
  - simpl. destruct (Z.ltb_spec i (JS.len txt)); [lia|].
    exists chunks. repeat split; auto.
    rewrite Hcat. apply firstn_all2. unfold JS.len in *. lia.
  - simpl. destruct (Z.ltb_spec i (JS.len txt)) as [Hlt|Hge].
    + apply IH; try lia.
      * rewrite concat_app. simpl. rewrite app_nil_r, Hcat.
        rewrite slice_inside by lia.
        rewrite firstn_then_more. f_equal. lia.
      * apply Forall_app. split; auto. constructor; auto.
        rewrite slice_inside by lia.
        unfold JS.len in *. rewrite length_firstn, length_skipn. lia.
    + exists chunks. repeat split; auto.
      rewrite Hcat. apply firstn_all2. unfold JS.len in *. lia.
Qed.

Lemma chunk_spec (txt : str) (size : Z) :
  (0 < size)%Z ->
  exists chunks, chunk txt size = Some chunks
                 /\ concat chunks = txt
                 /\ Forall (fun c => 0 < JS.len c <= size)%Z chunks.
Proof.
  intros Hsize. destruct txt as [|c txt].
  - exists []. repeat split; constructor.
  - unfold chunk. apply chunk_loop_spec; auto; try lia.
    unfold JS.len. lia.
Qed.

(** With a size that is not positive the loop never ends on a non-empty text. *)
Lemma chunk_loop_stuck (txt : str) (size : Z) :
  (size <= 0)%Z ->
  forall (fuel : nat) (i : Z) (chunks : list str),
    (i <= 0)%Z -> txt <> [] -> chunk_loop fuel txt size i chunks = None.
Proof.
  intros Hsize. induction fuel as [|fuel IH]; intros i chunks Hi Hne; simpl.
  - destruct (Z.ltb_spec i (JS.len txt)) as [Hlt|Hge]; auto.
    destruct txt; [congruence|]. unfold JS.len in Hge. simpl in Hge. lia.
  - destruct (Z.ltb_spec i (JS.len txt)) as [Hlt|Hge].
    + apply IH; auto. lia.
    + destruct txt; [congruence|]. unfold JS.len in Hge. simpl in Hge. lia.
Qed.

(* ------------------------------------------------------------------ *)
(** ** The packing loop keeps every container within the limits *)

Lemma segmentSize_nonneg (seg : Segment) : (0 <= segmentSize seg)%Z.
Proof.
  destruct seg; simpl; unfold fieldCost;
    repeat match goal with |- context [JS.len ?s] =>
      pose proof (len_nonneg s); generalize dependent (JS.len s); intros end; lia.
Qed.

Lemma fieldsCost_app (a b : list Field) :
  fieldsCost (a ++ b) = (fieldsCost a + fieldsCost b)%Z.
Proof.
  induction a as [|f a IH]; simpl; [reflexivity|].
  unfold fieldsCost in *. simpl. rewrite IH. lia.
Qed.

Lemma falsy_optLen (s : option str) : JS.truthy s = false -> optLen s = 0%Z.
Proof. destruct s as [[|c s]|]; simpl; auto; discriminate. Qed.

Lemma countersAgree_fresh alertId now lvl (st : Packing) :
  countersAgree st ->
  (JS.len (lit "alertId") + JS.len alertId <= DISCORD_LIMITS.EMBED_TOTAL_CHARS)%Z ->
  countersAgree (startNewEmbed alertId now lvl (commitEmbed st)).
Proof.
  intros [Hall Hcur] Hid. split; simpl.
  - destruct (current st) as [cur|]; auto.
    apply Forall_app. split; auto. constructor; [|constructor].
    unfold withinLimits; simpl. intuition lia.
  - unfold embedCost, fieldsCost, fieldCost, DISCORD_LIMITS.EMBED_MAX_FIELDS in *.
    simpl in *. repeat split; lia.
Qed.

Lemma countersAgree_ensure alertId now lvl (st : Packing) :
  countersAgree st ->
  (JS.len (lit "alertId") + JS.len alertId <= DISCORD_LIMITS.EMBED_TOTAL_CHARS)%Z ->
  countersAgree (ensure alertId now lvl st)
  /\ current (ensure alertId now lvl st) <> None.
Proof.
  intros Hinv Hid. unfold ensure.
  destruct (current st) as [cur|] eqn:E.
  - split; auto. rewrite E. discriminate.
  - split; [|discriminate].
    destruct Hinv as [Hall _]. split; simpl; auto.
    unfold embedCost, fieldsCost, fieldCost, DISCORD_LIMITS.EMBED_MAX_FIELDS in *.
    simpl in *. repeat split; lia.
Qed.

(** Filling a slot, or pushing a field, of the open container. *)
Lemma countersAgree_place (upd : Embed.t -> Embed.t) (extra : Z) (grow : nat)
      (st : Packing) (cur : Embed.t) :
  countersAgree st ->
  current st = Some cur ->
  embedCost (upd cur) = (embedCost cur + extra)%Z ->
  length (Embed.fields (upd cur)) = length (Embed.fields cur) + grow ->
  (charCount st + extra <= DISCORD_LIMITS.EMBED_TOTAL_CHARS)%Z ->
  fieldCount st + grow <= DISCORD_LIMITS.EMBED_MAX_FIELDS ->
  countersAgree
    {| embeds := embeds (place upd extra st);
       current := current (place upd extra st);
       charCount := charCount (place upd extra st);
       fieldCount := fieldCount (place upd extra st) + grow |}.
Proof.
  intros [Hall Hcur] E Hcost Hlen Hfit Hcnt. rewrite E in Hcur.
  split; simpl; auto. rewrite E. simpl. intuition lia.
Qed.

Lemma place_as_record (upd : Embed.t -> Embed.t) (extra : Z) (st : Packing) :
  place upd extra st
  = {| embeds := embeds (place upd extra st);
       current := current (place upd extra st);
       charCount := charCount (place upd extra st);
       fieldCount := fieldCount (place upd extra st) + 0 |}.
Proof. unfold place; simpl. now rewrite Nat.add_0_r. Qed.

(** The three singleton slots are filled by the same code: [ensure], then a
    fresh container if the slot is taken or the text would overflow, then the
    assignment. [filled] is the test of the slot and [upd] the assignment. *)
Lemma countersAgree_slot alertId now lvl (filled : Packing -> bool)
      (upd : Embed.t -> Embed.t) (len : Z) (st : Packing) :
  countersAgree st ->
  (0 <= len)%Z ->
  (JS.len (lit "alertId") + JS.len alertId + len
   <= DISCORD_LIMITS.EMBED_TOTAL_CHARS)%Z ->
  (forall cur, Embed.fields (upd cur) = Embed.fields cur) ->
  (forall s cur, current s = Some cur -> filled s = false ->
                 embedCost (upd cur) = (embedCost cur + len)%Z) ->
  (forall s, filled (startNewEmbed alertId now lvl (commitEmbed s)) = false) ->
  countersAgree
    (place upd len
       (if filled (ensure alertId now lvl st)
           || overflows (ensure alertId now lvl st) len
        then startNewEmbed alertId now lvl (commitEmbed (ensure alertId now lvl st))
        else ensure alertId now lvl st)).
Proof.
  intros Hinv Hpos Hfit Hfields Hcost Hfresh.
  assert (Hid : (JS.len (lit "alertId") + JS.len alertId
                 <= DISCORD_LIMITS.EMBED_TOTAL_CHARS)%Z) by lia.
  destruct (countersAgree_ensure alertId now lvl st Hinv Hid) as [H1 Hsome].
  set (st1 := ensure alertId now lvl st) in *.
  rewrite place_as_record.
  destruct (filled st1 || overflows st1 len) eqn:Hc.
  - set (s2 := startNewEmbed alertId now lvl (commitEmbed st1)).
    assert (H2 : countersAgree s2) by (apply countersAgree_fresh; auto).
    assert (E2 : exists cur2, current s2 = Some cur2) by (eexists; reflexivity).
    destruct E2 as [cur2 E2].
    apply (countersAgree_place upd len 0 s2 cur2 H2 E2).
    + eapply Hcost; [exact E2 | apply Hfresh].
    + rewrite Hfields. symmetry. apply Nat.add_0_r.
    + subst s2. unfold startNewEmbed. cbn [charCount]. lia.
    + subst s2. unfold startNewEmbed. cbn [fieldCount].
      unfold DISCORD_LIMITS.EMBED_MAX_FIELDS. lia.
  - apply orb_false_iff in Hc. destruct Hc as [Hslot Hov].
    unfold overflows in Hov. apply Z.ltb_ge in Hov.
    destruct (current st1) as [cur|] eqn:E; [|congruence].
    pose proof H1 as [_ Hcur]. rewrite E in Hcur.
    apply (countersAgree_place _ _ 0 st1 cur H1 E).
    + eapply Hcost; eauto.
    + rewrite Hfields. symmetry. apply Nat.add_0_r.
    + lia.
    + lia.
Qed.

Lemma countersAgree_step alertId now lvl (st : Packing) (seg : Segment) :
  countersAgree st ->
  fitsFresh alertId seg ->
  countersAgree (packSegment alertId now lvl st seg).
Proof.
  intros Hinv Hfit. unfold fitsFresh in Hfit.
  pose proof (segmentSize_nonneg seg) as Hpos.
  assert (Hid : (JS.len (lit "alertId") + JS.len alertId
                 <= DISCORD_LIMITS.EMBED_TOTAL_CHARS)%Z) by lia.
  destruct seg as [c|c|c|f]; cbn [segmentSize] in Hfit, Hpos; unfold packSegment.
  - (* title *)
    apply countersAgree_slot; auto.
    intros s cur E Hslot. unfold slotFilled in Hslot. rewrite E in Hslot.
    apply falsy_optLen in Hslot. unfold embedCost in *; simpl. lia.
  - (* description *)
    apply countersAgree_slot; auto.
    intros s cur E Hslot. unfold slotFilled in Hslot. rewrite E in Hslot.
    apply falsy_optLen in Hslot. unfold embedCost in *; simpl. lia.
  - (* footer *)
    apply countersAgree_slot; auto.
    intros s cur E Hslot. unfold footerFilled in Hslot. rewrite E in Hslot.
    destruct (Embed.footer cur) eqn:Ef; [discriminate|].
    unfold embedCost in *; simpl. rewrite Ef. simpl. lia.
  - (* field *)
    match goal with |- context [if ?b then _ else _] => destruct b eqn:Hc end.
    + eapply countersAgree_place; try reflexivity.
      * apply countersAgree_fresh; auto.
      * unfold embedCost, fieldsCost, fieldCost; simpl. lia.
      * unfold startNewEmbed. cbn [charCount]. unfold fieldCost in Hfit. lia.
      * simpl. unfold DISCORD_LIMITS.EMBED_MAX_FIELDS. lia.
    + apply orb_false_iff in Hc. destruct Hc as [Hc Hov].
      apply orb_false_iff in Hc. destruct Hc as [Hcur Hcnt].
      destruct (current st) as [cur|] eqn:E; [|discriminate].
      apply Nat.leb_gt in Hcnt.
      unfold overflows in Hov. apply Z.ltb_ge in Hov.
      destruct Hinv as [Hes H1]. pose proof H1 as Hcur'. rewrite E in Hcur'.
      apply (countersAgree_place _ _ 1 st cur (conj Hes H1) E).
      * unfold embedCost; simpl. rewrite fieldsCost_app.
        unfold fieldsCost, fieldCost; simpl. lia.
      * simpl. rewrite length_app. reflexivity.
      * lia.
      * lia.
Qed.

Lemma countersAgree_loop alertId now lvl (segs : list Segment) :
  forall st : Packing,
    countersAgree st ->
    Forall (fitsFresh alertId) segs ->
    countersAgree (fold_left (packSegment alertId now lvl) segs st).
Proof.
  induction segs as [|seg segs IH]; intros st Hinv Hall; simpl; auto.
  inversion Hall; subst. apply IH; auto.
  apply countersAgree_step; auto.
Qed.

(** Every container [pack] returns is within the limits. *)
Lemma pack_withinLimits alertId now lvl (segs : list Segment) :
  Forall (fitsFresh alertId) segs ->
  Forall withinLimits (pack alertId now lvl segs).
Proof.
  intros Hall. unfold pack.
  set (st0 := {| embeds := []; current := None; charCount := 0%Z; fieldCount := 0 |}).
  assert (H0 : countersAgree st0) by (split; simpl; auto).
  pose proof (countersAgree_loop alertId now lvl segs st0 H0 Hall) as [Hes Hcur].
  set (st := fold_left _ _ _) in *.
  unfold commitEmbed; simpl.
  destruct (current st) as [cur|]; auto.
  apply Forall_app. split; auto. constructor; [|constructor].
  unfold withinLimits; simpl. intuition lia.
Qed.

(* ------------------------------------------------------------------ *)
(** ** What [prepare] returns *)

Lemma prepareFields_total (entries : list (str * Stringify.JsValue)) (suffix : str) :
  forallb (fun kv => match Stringify.stringify (snd kv) with
                     | Some _ => true
                     | None => false
                     end) entries = true ->
  exists fs, prepareFields entries suffix = Some fs.
Proof.
  induction entries as [|[k v] entries IH]; simpl; intros H.
  - eexists; reflexivity.
  - apply andb_true_iff in H. destruct H as [Hv Hrest].
    destruct (Stringify.stringify v); [|discriminate].
    destruct (IH Hrest) as [fs ->]. eexists; reflexivity.
Qed.

Lemma prepareFields_spec (suffix : str) :
  forall (entries : list (str * Stringify.JsValue)) (fs : list Field),
    prepareFields entries suffix = Some fs ->
    length fs = length entries
    /\ ((JS.len suffix <= DISCORD_LIMITS.FIELD_NAME)%Z ->
        Forall (fun f => (JS.len (name f) <= DISCORD_LIMITS.FIELD_NAME)%Z
                         /\ (JS.len (value f) <= DISCORD_LIMITS.FIELD_VALUE)%Z) fs).
Proof.
  induction entries as [|[k v] entries IH]; simpl; intros fs H.
  - inversion H; subst. split; auto.
  - destruct (Stringify.stringify v) as [sv|]; [|discriminate].
    destruct (prepareFields entries suffix) as [fs'|]; [|discriminate].
    inversion H; subst; clear H.
    destruct (IH fs' eq_refl) as [Hlen Hall].
    split; simpl; [lia|].
    intros Hs. constructor; auto. simpl.
    split; apply truncate_len_le;
      unfold DISCORD_LIMITS.FIELD_NAME, DISCORD_LIMITS.FIELD_VALUE in *; lia.
Qed.

Lemma prepare_inversion (alert : AlertInput) (suffix : str) (p : Prepared.t) :
  prepare alert suffix = Returns p ->
  Prepared.title p = (if JS.truthy (title alert)
               then option_map (fun t => truncate t DISCORD_LIMITS.TITLE suffix)
                      (title alert)
               else None)
  /\ Prepared.footer p = (if JS.truthy (footer alert)
                   then option_map (fun t => truncate t DISCORD_LIMITS.FOOTER suffix)
                          (footer alert)
                   else None)
  /\ chunk (match description alert with Some d => d | None => [] end)
           DISCORD_LIMITS.DESCRIPTION = Some (Prepared.descriptionChunks p)
  /\ match context alert with
     | None => Some []
     | Some entries => prepareFields entries suffix
     end = Some (Prepared.fields p).
Proof.
  unfold prepare. intros H.
  destruct (chunk _ _) as [chunks|]; [|discriminate].
  destruct (match context alert with None => _ | Some _ => _ end) as [fs|];
    [|discriminate].
  inversion H; subst; simpl. repeat split; reflexivity.
Qed.

(** [prepare] returns whenever every context value has a string form. *)
Lemma prepare_total (alert : AlertInput) (suffix : str) :
  stringifiable alert = true -> exists p, prepare alert suffix = Returns p.
Proof.
  unfold stringifiable, prepare. intros H.
  destruct (chunk_spec (match description alert with Some d => d | None => [] end)
              DISCORD_LIMITS.DESCRIPTION) as [chunks [-> _]];
    [unfold DISCORD_LIMITS.DESCRIPTION; lia|].
  destruct (context alert) as [entries|].
  - destruct (prepareFields_total entries suffix H) as [fs ->].
    eexists; reflexivity.
  - eexists; reflexivity.
Qed.

Lemma truthy_nonempty (s : option str) :
  JS.truthy s = true -> exists v, s = Some v /\ v <> [].
Proof.
  destruct s as [[|c v]|]; simpl; try discriminate.
  intros _. eexists; split; [reflexivity|discriminate].
Qed.

(** The optional single segment of a truncated slot (title or footer). *)
Lemma slot_segment_fits (alertId : str) (mk : str -> Segment) (slot : option str)
      (budget : Z) (suffix : str) :
  (forall c, segmentSize (mk c) = JS.len c) ->
  (JS.len suffix <= budget)%Z ->
  (JS.len (lit "alertId") + JS.len alertId + budget
   <= DISCORD_LIMITS.EMBED_TOTAL_CHARS)%Z ->
  forall prepared : option str,
    prepared = (if JS.truthy slot
                then option_map (fun t => truncate t budget suffix) slot
                else None) ->
    Forall (fitsFresh alertId)
      (if JS.truthy prepared
       then match prepared with Some t => [mk t] | None => [] end
       else []).
Proof.
  intros Hmk Hs Hid prepared ->.
  destruct (JS.truthy slot); [|constructor].
  destruct slot as [t|]; simpl option_map; [|constructor].
  destruct (JS.truthy (Some (truncate t budget suffix))); constructor; [|constructor].
  unfold fitsFresh. rewrite Hmk.
  pose proof (truncate_len_le t budget suffix Hs). lia.
Qed.

(** The segments of an alert, when the suffix is no longer than the title
    budget: each one is within the budget of its kind, hence fits a fresh
    container. *)
Lemma segments_fit (alertId : str) (alert : AlertInput) (suffix : str) (p : Prepared.t) :
  prepare alert suffix = Returns p ->
  (JS.len suffix <= DISCORD_LIMITS.TITLE)%Z ->
  (JS.len (lit "alertId") + JS.len alertId + DISCORD_LIMITS.DESCRIPTION
   <= DISCORD_LIMITS.EMBED_TOTAL_CHARS)%Z ->
  Forall (fitsFresh alertId) (segmentsOf p).
Proof.
  intros Hp Hs Hid.
  destruct (prepare_inversion _ _ _ Hp) as (Ht & Hf & Hd & Hc).
  assert (Hlimits :
    DISCORD_LIMITS.TITLE = 200%Z /\ DISCORD_LIMITS.DESCRIPTION = 4000%Z
    /\ DISCORD_LIMITS.FOOTER = 2000%Z /\ DISCORD_LIMITS.FIELD_NAME = 240%Z
    /\ DISCORD_LIMITS.FIELD_VALUE = 1000%Z
    /\ DISCORD_LIMITS.EMBED_TOTAL_CHARS = 5900%Z) by (repeat split).
  destruct Hlimits as (Lt & Ld & Lf & Ln & Lv & Le).
  unfold segmentsOf. repeat (apply Forall_app; split).
  - apply slot_segment_fits with (slot := title alert)
      (budget := DISCORD_LIMITS.TITLE) (suffix := suffix); auto; lia.
  - destruct (chunk_spec (match description alert with Some d => d | None => [] end)
                DISCORD_LIMITS.DESCRIPTION) as [chunks (Hch & _ & Hall)]; [lia|].
    rewrite Hd in Hch. inversion Hch; subst.
    apply Forall_map. eapply Forall_impl; [|exact Hall].
    intros c Hc'. cbv beta in Hc'. unfold fitsFresh. simpl segmentSize. lia.
  - assert (Hfs : Forall (fun f => (JS.len (name f) <= DISCORD_LIMITS.FIELD_NAME)%Z
                         /\ (JS.len (value f) <= DISCORD_LIMITS.FIELD_VALUE)%Z)
                    (Prepared.fields p)).
    { destruct (context alert) as [entries|].
      - apply (prepareFields_spec suffix entries _ Hc). lia.
      - inversion Hc; subst. constructor. }
    apply Forall_map. eapply Forall_impl; [|exact Hfs].
    intros f [Hn Hv]. unfold fitsFresh, fieldCost. simpl segmentSize.
    unfold fieldCost. lia.
  - apply slot_segment_fits with (slot := footer alert)
      (budget := DISCORD_LIMITS.FOOTER) (suffix := suffix); auto; lia.
Qed.

(* ------------------------------------------------------------------ *)
(** ** The packing loop loses no segment and keeps the order *)

Lemma tidy_weaken alertId (r r' : nat) (cur : Embed.t) :
  r <= r' -> tidy alertId r cur -> tidy alertId r' cur.
Proof.
  intros Hle (rest & Hf & Ht & Hd & H3 & H2 & H1).
  exists rest. repeat split; auto; intros; (apply H3 || apply H2 || apply H1); lia.
Qed.

Lemma tidy_headed alertId (r : nat) (cur : Embed.t) :
  tidy alertId r cur -> headed alertId cur.
Proof. intros (rest & Hf & _). exists rest. exact Hf. Qed.

Lemma readBack_fresh alertId now lvl (st : Packing) :
  readBack (startNewEmbed alertId now lvl (commitEmbed st)) = readBack st.
Proof.
  unfold readBack; simpl. destruct (current st) as [cur|]; simpl.
  - rewrite flat_map_app. simpl. unfold contentOf at 3. simpl.
    now rewrite !app_nil_r.
  - reflexivity.
Qed.

Lemma orderly_fresh alertId now lvl (r r' : nat) (st : Packing) :
  orderly alertId r st ->
  orderly alertId r' (startNewEmbed alertId now lvl (commitEmbed st)).
Proof.
  intros [Hall Hcur]. split; simpl.
  - destruct (current st) as [cur|]; auto.
    apply Forall_app. split; auto. constructor; [|constructor].
    simpl. eapply tidy_headed; eauto.
  - exists []. repeat split; auto; discriminate.
Qed.

Lemma readBack_ensure alertId now lvl (st : Packing) :
  readBack (ensure alertId now lvl st) = readBack st.
Proof.
  unfold ensure. destruct (current st) as [cur|] eqn:E; auto.
  unfold readBack; simpl. rewrite E. reflexivity.
Qed.

Lemma orderly_ensure alertId now lvl (r : nat) (st : Packing) :
  orderly alertId r st ->
  orderly alertId r (ensure alertId now lvl st)
  /\ current (ensure alertId now lvl st) <> None.
Proof.
  intros [Hall Hcur]. unfold ensure.
  destruct (current st) as [cur|] eqn:E.
  - split; [split; auto; now rewrite E | rewrite E; discriminate].
  - split; [|discriminate]. split; simpl; auto.
    exists []. repeat split; auto; discriminate.
Qed.

(** Updating the open container so that it holds one more segment. *)
Lemma readBack_extend (st st' : Packing) (cur cur' : Embed.t) (seg : Segment) :
  current st = Some cur ->
  embeds st' = embeds st ->
  current st' = Some cur' ->
  contentOf cur' = contentOf cur ++ [seg] ->
  readBack st' = readBack st ++ [seg].
Proof.
  intros E He E' Hc. unfold readBack. rewrite He, E, E', Hc.
  now rewrite app_assoc.
Qed.

Lemma falsy_not_blank (s : option str) :
  JS.truthy s = false -> s <> Some [] -> s = None.
Proof.
  destruct s as [[|c v]|]; simpl; intros Ht Hn; auto;
    [exfalso; apply Hn; reflexivity | discriminate].
Qed.

(** The common shape of the three singleton slots, as for the counters:
    when the slot of a tidy container is free, [upd] adds [seg] at the end
    of what the container holds. *)
Lemma orderly_slot alertId now lvl (filled : Packing -> bool)
      (upd : Embed.t -> Embed.t) (len : Z) (r r' : nat) (seg : Segment)
      (st : Packing) :
  orderly alertId r st ->
  r <= r' ->
  (forall s cur, current s = Some cur -> tidy alertId r' cur -> filled s = false ->
                 tidy alertId r' (upd cur)
                 /\ contentOf (upd cur) = contentOf cur ++ [seg]) ->
  (forall s, filled (startNewEmbed alertId now lvl (commitEmbed s)) = false) ->
  let st' :=
    place upd len
      (if filled (ensure alertId now lvl st)
          || overflows (ensure alertId now lvl st) len
       then startNewEmbed alertId now lvl (commitEmbed (ensure alertId now lvl st))
       else ensure alertId now lvl st) in
  orderly alertId r' st' /\ readBack st' = readBack st ++ [seg].
Proof.
  intros Hinv Hr Hupd Hfresh. cbv zeta.
  destruct (orderly_ensure alertId now lvl r st Hinv) as [H1 Hsome].
  rewrite <- (readBack_ensure alertId now lvl st).
  set (st1 := ensure alertId now lvl st) in *.
  destruct (filled st1 || overflows st1 len) eqn:Hc.
  - set (s2 := startNewEmbed alertId now lvl (commitEmbed st1)).
    destruct (orderly_fresh alertId now lvl r r' st1 H1) as [Hes Hcur].
    fold s2 in Hes, Hcur.
    assert (E2 : exists cur2, current s2 = Some cur2) by (eexists; reflexivity).
    destruct E2 as [cur2 E2]. rewrite E2 in Hcur.
    destruct (Hupd s2 cur2 E2 Hcur (Hfresh st1)) as [Htidy Hcontent].
    split.
    + split; [exact Hes|]. unfold place. cbn [current]. rewrite E2. exact Htidy.
    + rewrite <- (readBack_fresh alertId now lvl st1). fold s2.
      eapply readBack_extend; [exact E2 | reflexivity | | exact Hcontent].
      unfold place. cbn [current]. now rewrite E2.
  - apply orb_false_iff in Hc. destruct Hc as [Hslot _].
    destruct H1 as [Hes Hcur].
    destruct (current st1) as [cur|] eqn:E; [|congruence].
    destruct (Hupd st1 cur E (tidy_weaken alertId r r' cur Hr Hcur) Hslot)
      as [Htidy Hcontent].
    split.
    + split; [exact Hes|]. unfold place. cbn [current]. rewrite E. exact Htidy.
    + eapply readBack_extend; [exact E | reflexivity | | exact Hcontent].
      unfold place. cbn [current]. now rewrite E.
Qed.

Lemma orderly_step alertId now lvl (r : nat) (st : Packing) (seg : Segment) :
  orderly alertId r st ->
  r <= rank seg ->
  nonblank seg ->
  orderly alertId (rank seg) (packSegment alertId now lvl st seg)
  /\ readBack (packSegment alertId now lvl st seg) = readBack st ++ [seg].
Proof.
  intros Hinv Hr Hnb.
  destruct seg as [c|c|c|f]; simpl in Hr, Hnb; unfold packSegment; simpl rank.
  - (* title: the container holds nothing yet *)
    apply orderly_slot with (r := r); auto.
    intros s cur E (rest & Hf & Ht & Hd & H3 & H2 & H1) Hslot.
    unfold slotFilled in Hslot. rewrite E in Hslot.
    pose proof (falsy_not_blank _ Hslot Ht) as Htitle.
    split.
    + exists rest. repeat split; auto; simpl; congruence.
    + unfold contentOf; simpl.
      rewrite Htitle, Hf, H3, H2, H1 by lia. reflexivity.
  - (* description: at most a title before it *)
    apply orderly_slot with (r := r); auto.
    intros s cur E (rest & Hf & Ht & Hd & H3 & H2 & H1) Hslot.
    unfold slotFilled in Hslot. rewrite E in Hslot.
    pose proof (falsy_not_blank _ Hslot Hd) as Hdesc.
    split.
    + exists rest. repeat split; auto; simpl; try congruence. intros; lia.
    + unfold contentOf; simpl.
      rewrite Hdesc, Hf, H3, H2 by lia. simpl. now rewrite !app_nil_r.
  - (* footer: it comes last *)
    apply orderly_slot with (r := r); auto.
    intros s cur E (rest & Hf & Ht & Hd & H3 & H2 & H1) Hslot.
    unfold footerFilled in Hslot. rewrite E in Hslot.
    destruct (Embed.footer cur) eqn:Ef; [discriminate|].
    split.
    + exists rest. repeat split; auto; simpl; intros; lia.
    + unfold contentOf; simpl. rewrite Ef.
      now rewrite !app_nil_r, !app_assoc.
  - (* field *)
    match goal with |- context [if ?b then _ else _] => destruct b eqn:Hc end.
    + split.
      * destruct (orderly_fresh alertId now lvl r 2 st Hinv) as [Hes _].
        split; [exact Hes|]. simpl.
        exists [f]. repeat split; auto; simpl; try discriminate; lia.
      * rewrite <- (readBack_fresh alertId now lvl st).
        eapply readBack_extend; reflexivity.
    + apply orb_false_iff in Hc. destruct Hc as [Hc _].
      apply orb_false_iff in Hc. destruct Hc as [Hcur _].
      destruct Hinv as [Hes Htidy].
      destruct (current st) as [cur|] eqn:E; [|discriminate].
      destruct Htidy as (rest & Hf & Ht & Hd & H3 & H2 & H1).
      split.
      * split; [exact Hes|]. simpl. rewrite E; simpl.
        exists (rest ++ [f]). repeat split; auto; simpl.
        -- rewrite Hf. reflexivity.
        -- intros; apply H3; lia.
        -- intros; lia.
        -- intros; lia.
      * eapply readBack_extend; try reflexivity; simpl; eauto.
        -- rewrite E; reflexivity.
        -- unfold contentOf; simpl. rewrite Hf, H3 by lia. simpl.
           rewrite map_app. simpl. now rewrite !app_nil_r, !app_assoc.
Qed.

Lemma orderly_loop alertId now lvl (segs : list Segment) :
  forall (r : nat) (st : Packing),
    orderly alertId r st ->
    ascending r segs ->
    Forall nonblank segs ->
    let st' := fold_left (packSegment alertId now lvl) segs st in
    (exists r', orderly alertId r' st') /\ readBack st' = readBack st ++ segs.
Proof.
  induction segs as [|seg segs IH]; intros r st Hinv Hasc Hnb; simpl.
  - split; [exists r; exact Hinv | now rewrite app_nil_r].
  - destruct Hasc as [Hr Hasc]. inversion Hnb; subst.
    destruct (orderly_step alertId now lvl r st seg Hinv Hr) as [Hinv' Hrb]; auto.
    destruct (IH (rank seg) _ Hinv' Hasc) as [Hex Hrb']; auto.
    split; [exact Hex|].
    rewrite Hrb', Hrb, <- app_assoc. reflexivity.
Qed.

(** Reading the containers of [pack] back gives the segments, in order, and
    every container starts with the [alertId] field. *)
Lemma pack_readBack alertId now lvl (segs : list Segment) :
  ascending 0 segs ->
  Forall nonblank segs ->
  flat_map (fun e => contentOf (embed e)) (pack alertId now lvl segs) = segs
  /\ Forall (fun e => headed alertId (embed e)) (pack alertId now lvl segs).
Proof.
  intros Hasc Hnb. unfold pack.
  set (st0 := {| embeds := []; current := None; charCount := 0%Z; fieldCount := 0 |}).
  assert (H0 : orderly alertId 0 st0) by (split; simpl; auto).
  destruct (orderly_loop alertId now lvl segs 0 st0 H0 Hasc Hnb) as [[r' [Hes Hcur]] Hrb].
  set (st := fold_left _ _ _) in *.
  unfold readBack in Hrb. simpl in Hrb.
  unfold commitEmbed; simpl.
  destruct (current st) as [cur|].
  - split.
    + rewrite flat_map_app. simpl. rewrite app_nil_r. exact Hrb.
    + apply Forall_app. split; auto. constructor; [|constructor].
      simpl. eapply tidy_headed; eauto.
  - split; auto. now rewrite app_nil_r in Hrb.
Qed.

Lemma ascending_weaken (r r' : nat) (segs : list Segment) :
  r <= r' -> ascending r' segs -> ascending r segs.
Proof. destruct segs; simpl; auto. intros Hle [H1 H2]. split; auto. lia. Qed.

Lemma ascending_same (k : nat) (segs : list Segment) :
  Forall (fun seg => rank seg = k) segs -> ascending k segs.
Proof.
  induction 1 as [|seg segs Hk _ IH]; simpl; auto.
  rewrite Hk. split; auto.
Qed.

Lemma ascending_app (r k : nat) (l1 l2 : list Segment) :
  r <= k ->
  Forall (fun seg => rank seg = k) l1 ->
  ascending k l2 ->
  ascending r (l1 ++ l2).
Proof.
  intros Hle H1 H2. revert r Hle.
  induction H1 as [|seg l1 Hk _ IH]; intros r Hle; simpl.
  - eapply ascending_weaken; eauto.
  - rewrite Hk. split; auto.
Qed.

(** The segment list of an alert is in rank order and has no blank text. *)
Lemma segments_ascending (alert : AlertInput) (suffix : str) (p : Prepared.t) :
  prepare alert suffix = Returns p ->
  ascending 0 (segmentsOf p) /\ Forall nonblank (segmentsOf p).
Proof.
  intros Hp. destruct (prepare_inversion _ _ _ Hp) as (_ & _ & Hd & _).
  destruct (chunk_spec (match description alert with Some d => d | None => [] end)
              DISCORD_LIMITS.DESCRIPTION) as [chunks (Hch & _ & Hall)];
    [unfold DISCORD_LIMITS.DESCRIPTION; lia|].
  rewrite Hd in Hch. inversion Hch; subst. clear Hch.
  unfold segmentsOf. split.
  - apply ascending_app with (k := 0); auto.
    { destruct (JS.truthy (Prepared.title p)); [|constructor].
      destruct (Prepared.title p); repeat constructor. }
    apply ascending_app with (k := 1); auto.
    { apply Forall_map. apply Forall_forall. reflexivity. }
    apply ascending_app with (k := 2); auto.
    { apply Forall_map. apply Forall_forall. reflexivity. }
    eapply ascending_weaken with (r' := 3); [lia|].
    apply ascending_same.
    destruct (JS.truthy (Prepared.footer p)); [|constructor].
    destruct (Prepared.footer p); repeat constructor.
  - repeat (apply Forall_app; split).
    + destruct (JS.truthy (Prepared.title p)) eqn:E; [|constructor].
      destruct (truthy_nonempty _ E) as [v [-> Hne]]. repeat constructor. exact Hne.
    + apply Forall_map. eapply Forall_impl; [|exact Hall].
      intros c Hc. simpl. intros ->. unfold JS.len in Hc. simpl in Hc. lia.
    + apply Forall_map. apply Forall_forall. intros; exact I.
    + destruct (JS.truthy (Prepared.footer p)) eqn:E; [|constructor].
      destruct (truthy_nonempty _ E) as [v [-> Hne]]. repeat constructor. exact Hne.
Qed.

(* ------------------------------------------------------------------ *)
(** ** Every container respects the limits (C3) *)

Lemma fields_only (p : Segment -> bool) (fs : list Field) :
  (forall f, p (SegField f) = false) -> filter p (map SegField fs) = [].
Proof.
  intros Hp. induction fs as [|f fs IH]; simpl; auto. now rewrite Hp.
Qed.

(** A container holds at most one segment of each singleton kind. *)
Lemma contentOf_singletons (e : Embed.t) :
  length (filter isTitle (contentOf e)) <= 1
  /\ length (filter isDescription (contentOf e)) <= 1
  /\ length (filter isFooter (contentOf e)) <= 1.
Proof.
  unfold contentOf.
  repeat split; rewrite !filter_app, !fields_only by reflexivity;
    destruct (Embed.title e), (Embed.description e), (Embed.footer e);
    simpl; lia.
Qed.

Lemma alertToEmbeds_unfold alertId now alert suffix (p : Prepared.t) :
  prepare alert suffix = Returns p ->
  alertToEmbeds alertId now alert suffix
  = Returns (pack alertId now (level alert) (segmentsOf p)).
Proof. intros H. unfold alertToEmbeds. now rewrite H. Qed.

Lemma alertToEmbeds_returned alertId now alert suffix es :
  alertToEmbeds alertId now alert suffix = Returns es ->
  exists p, prepare alert suffix = Returns p
            /\ es = pack alertId now (level alert) (segmentsOf p).
Proof.
  unfold alertToEmbeds. destruct (prepare alert suffix) as [p| |]; try discriminate.
  intros H. inversion H; subst. eauto.
Qed.

(** C3. Let the identifier be the 36 characters of a UUID and the truncation
    suffix be no longer than the title budget (the smallest of the budgets).
    Then [alertToEmbeds] returns as soon as every context value has a string
    form, and whatever list it returns, every container in it costs at most
    5900 characters (title, description, footer text and all field names and
    values, the [alertId] field included, which is also the cost frozen in
    [charsCount]), has at most 25 fields, and holds at most one title, one
    description and one footer; no segment is overwritten, since reading the
    containers back in order gives the segment list of the alert. *)
Theorem containers_respect_limits alertId now (alert : AlertInput) (suffix : str) :
  JS.len alertId = 36%Z ->
  (JS.len suffix <= DISCORD_LIMITS.TITLE)%Z ->
  (stringifiable alert = true ->
   exists es, alertToEmbeds alertId now alert suffix = Returns es)
  /\ forall es,
       alertToEmbeds alertId now alert suffix = Returns es ->
       Forall respectsLimits es
       /\ exists p, prepare alert suffix = Returns p
                    /\ flat_map (fun e => contentOf (embed e)) es = segmentsOf p.
Proof.
  intros Hid Hs. split.
  - intros Hstr. destruct (prepare_total alert suffix Hstr) as [p Hp].
    eexists. apply alertToEmbeds_unfold. exact Hp.
  - intros es Hes.
    destruct (alertToEmbeds_returned _ _ _ _ _ Hes) as [p [Hp ->]].
    split.
    + assert (Hfit : Forall (fitsFresh alertId) (segmentsOf p)).
      { apply (segments_fit alertId alert suffix p Hp Hs).
        rewrite Hid. vm_compute. discriminate. }
      pose proof (pack_withinLimits alertId now (level alert) _ Hfit) as Hall.
      eapply Forall_impl; [|exact Hall].
      intros e (Hc & Hle & Hn).
      pose proof (contentOf_singletons (embed e)) as (H1 & H2 & H3).
      unfold respectsLimits. rewrite <- Hc. repeat split; auto.
    + exists p. split; auto.
      destruct (segments_ascending alert suffix p Hp) as [Hasc Hnb].
      apply (pack_readBack alertId now (level alert) _ Hasc Hnb).
Qed.

Lemma containers_respect_limits_witness :
  (exists es, alertToEmbeds sampleId sampleClock sampleAlert dots = Returns es)
  /\ forall es,
       alertToEmbeds sampleId sampleClock sampleAlert dots = Returns es ->
       Forall respectsLimits es
       /\ exists p, prepare sampleAlert dots = Returns p
                    /\ flat_map (fun e => contentOf (embed e)) es = segmentsOf p.
Proof.
  destruct (containers_respect_limits sampleId sampleClock sampleAlert dots)
    as [Hret Hall].
  - reflexivity.
  - vm_compute. discriminate.
  - split; [apply Hret; reflexivity | exact Hall].
Defined.

(* ------------------------------------------------------------------ *)
(** ** Truncation (C8, C10) and description splitting (C9) *)

(** An alert that only has a (non-empty) title gives one container, whose
    title is the truncated title, as long as it fits next to the identifier. *)
Lemma title_only_container alertId now lvl (t : str) (suffix : str) :
  t <> [] ->
  truncate t DISCORD_LIMITS.TITLE suffix <> [] ->
  (JS.len (lit "alertId") + JS.len alertId
   + JS.len (truncate t DISCORD_LIMITS.TITLE suffix)
   <= DISCORD_LIMITS.EMBED_TOTAL_CHARS)%Z ->
  alertToEmbeds alertId now
    {| title := Some t; description := None; footer := None;
       context := None; level := lvl |} suffix
  = Returns
      [ {| embed :=
             {| Embed.color := getColorForLevel lvl;
                Embed.title := Some (truncate t DISCORD_LIMITS.TITLE suffix);
                Embed.description := None;
                Embed.footer := None;
                Embed.timestamp := now 0;
                Embed.fields := [idField alertId] |};
           charsCount := (JS.len (lit "alertId") + JS.len alertId
                          + JS.len (truncate t DISCORD_LIMITS.TITLE suffix))%Z |} ].
Proof.
  intros Ht Htr Hfit.
  unfold alertToEmbeds, prepare.
  cbn [title description footer context level chunk].
  destruct t as [|c t]; [congruence|].
  cbn [JS.truthy option_map].
  unfold segmentsOf.
  cbn [Prepared.title Prepared.footer Prepared.descriptionChunks Prepared.fields
       map app JS.truthy].
  destruct (truncate (c :: t) DISCORD_LIMITS.TITLE suffix) as [|c' t'] eqn:E;
    [congruence|].
  unfold pack. cbn [fold_left app].
  unfold packSegment, ensure. cbn [current].
  unfold slotFilled, overflows, startNewEmbed at 2 3.
  cbn [current charCount Embed.title JS.truthy orb embeds].
  destruct (Z.ltb_spec DISCORD_LIMITS.EMBED_TOTAL_CHARS
              (JS.len (lit "alertId") + JS.len alertId + JS.len (c' :: t'))%Z);
    [lia|].
  reflexivity.
Qed.

(** C8. With a suffix no longer than [max]: a text of length at most [max]
    is returned unchanged; a longer one becomes its first
    [max - suffix.length] characters followed by the suffix, a string of
    length exactly [max]. In particular an alert whose title has 300
    characters, with suffix [...] and the title budget of 200, gives a
    container whose title has length exactly 200 and ends in [...]. *)
Theorem truncate_contract (txt : str) (max : Z) (suffix : str) :
  (JS.len suffix <= max)%Z ->
  ((JS.len txt <= max)%Z -> truncate txt max suffix = txt)
  /\ ((max < JS.len txt)%Z ->
      truncate txt max suffix
      = firstn (Z.to_nat (max - JS.len suffix)) txt ++ suffix
      /\ JS.len (truncate txt max suffix) = max)
  /\ (forall alertId now lvl,
        JS.len alertId = 36%Z ->
        max = DISCORD_LIMITS.TITLE -> suffix = dots -> JS.len txt = 300%Z ->
        exists e,
          alertToEmbeds alertId now
            {| title := Some txt; description := None; footer := None;
               context := None; level := lvl |} suffix = Returns [e]
          /\ Embed.title (embed e) = Some (firstn 197 txt ++ dots)
          /\ JS.len (firstn 197 txt ++ dots) = 200%Z).
Proof.
  intros Hs. split; [|split].
  - apply truncate_short.
  - intros Hlong. split.
    + apply truncate_long; auto.
    + apply truncate_len_exact; auto.
  - intros alertId now lvl Hid -> -> Hlen.
    assert (Htr : truncate txt DISCORD_LIMITS.TITLE dots = firstn 197 txt ++ dots).
    { rewrite truncate_long; auto. rewrite Hlen. reflexivity. }
    assert (H200 : JS.len (firstn 197 txt ++ dots) = 200%Z).
    { rewrite <- Htr. apply truncate_len_exact; auto. rewrite Hlen. reflexivity. }
    eexists. split; [|split].
    + apply title_only_container.
      * intros ->. discriminate.
      * rewrite Htr. intros Habs. rewrite Habs in H200. discriminate.
      * rewrite Htr, H200, Hid. vm_compute. discriminate.
    + simpl. now rewrite Htr.
    + exact H200.
Qed.

Lemma truncate_contract_witness :
  truncate (repeat "A"%char 300) DISCORD_LIMITS.TITLE dots
  = repeat "A"%char 197 ++ dots
  /\ exists e,
       alertToEmbeds sampleId sampleClock longTitleAlert dots = Returns [e]
       /\ Embed.title (embed e) = Some (repeat "A"%char 197 ++ dots).
Proof.
  destruct (truncate_contract (repeat "A"%char 300) DISCORD_LIMITS.TITLE dots)
    as (_ & Hlong & Hscenario).
  - vm_compute. discriminate.
  - split.
    + destruct Hlong as [Heq _]; [reflexivity | exact Heq].
    + destruct (Hscenario sampleId sampleClock None) as (e & He & Ht & _);
        try reflexivity.
      exists e. split; [exact He | exact Ht].
Defined.

(** C10. There are a text, a budget and a suffix, the suffix and the text
    both longer than the budget, for which [truncate] returns a string longer
    than the budget: the slice end [max - suffix.length] is negative and
    counts from the end of the text, so all but [suffix.length - max]
    characters of the text are kept and the whole suffix is appended. *)
Theorem truncate_overlong_suffix :
  exists (txt : str) (max : Z) (suffix : str),
    (max < JS.len suffix)%Z
    /\ (max < JS.len txt)%Z
    /\ (max - JS.len suffix < 0)%Z
    /\ truncate txt max suffix
       = JS.slice txt 0 (max - JS.len suffix) ++ suffix
    /\ JS.slice txt 0 (max - JS.len suffix)
       = firstn (length txt - Z.to_nat (JS.len suffix - max)) txt
    /\ truncate txt max suffix = lit "abcdefg....."
    /\ (max < JS.len (truncate txt max suffix))%Z.
Proof.
  exists (lit "abcdefghij"), 2%Z, (lit ".....").
  repeat split; reflexivity.
Qed.

(** C9. The description of an alert is split, never truncated: [chunk]
    returns on every description, the chunks concatenated in order are the
    description, none is empty or longer than the description budget, an
    empty (or missing) description gives no chunk, and the description
    segments of the alert are exactly these chunks, in order. *)
Theorem description_split_lossless (alert : AlertInput) (suffix : str) :
  let d := match description alert with Some d => d | None => [] end in
  exists chunks,
    chunk d DISCORD_LIMITS.DESCRIPTION = Some chunks
    /\ concat chunks = d
    /\ Forall (fun c => 0 < JS.len c <= DISCORD_LIMITS.DESCRIPTION)%Z chunks
    /\ (d = [] <-> chunks = [])
    /\ forall p, prepare alert suffix = Returns p ->
                 descriptionsIn (segmentsOf p) = chunks.
Proof.
  intros d.
  destruct (chunk_spec d DISCORD_LIMITS.DESCRIPTION) as (chunks & Hch & Hcat & Hall);
    [unfold DISCORD_LIMITS.DESCRIPTION; lia|].
  exists chunks. repeat split; auto.
  - intros Hd. rewrite Hd in Hch. simpl in Hch. congruence.
  - intros ->. simpl in Hcat. congruence.
  - intros p Hp. destruct (prepare_inversion _ _ _ Hp) as (_ & _ & Hd & _).
    fold d in Hd. rewrite Hch in Hd. inversion Hd; subst.
    unfold segmentsOf, descriptionsIn. rewrite !flat_map_app.
    fold (descriptionsIn (map SegDescription (Prepared.descriptionChunks p))).
    fold (descriptionsIn (map SegField (Prepared.fields p))).
    assert (H1 : forall l, descriptionsIn (map SegDescription l) = l).
    { induction l as [|x l IH]; simpl; congruence. }
    assert (H2 : forall l, descriptionsIn (map SegField l) = []).
    { induction l as [|x l IH]; simpl; congruence. }
    rewrite H1, H2.
    destruct (JS.truthy (Prepared.title p)), (Prepared.title p),
      (JS.truthy (Prepared.footer p)), (Prepared.footer p);
      simpl; now rewrite ?app_nil_r.
Qed.

(* ------------------------------------------------------------------ *)
(** ** An alert without content (C2) *)

(** Counterexample to C2 as stated: for the alert with no content the loop
    never opens a container, [commitEmbed] finds no current one, and the
    list is empty. *)
Lemma empty_alert_counterexample :
  alertToEmbeds sampleId sampleClock emptyAlert dots = Returns []
  /\ ~ oneContainerForEmptyAlert sampleId sampleClock emptyAlert dots.
Proof.
  split; [reflexivity|].
  intros H. destruct H as (e & He & _); auto.
  vm_compute in He. discriminate.
Qed.

(** C2, amended. An alert with no title, no description, no footer and no
    context entry produces no segment, and packing returns the empty list:
    a container is only committed when one has been opened. *)
Theorem empty_alert_no_container alertId now (alert : AlertInput) (suffix : str) :
  title alert = None -> description alert = None -> footer alert = None ->
  (context alert = None \/ context alert = Some []) ->
  exists p, prepare alert suffix = Returns p
            /\ segmentsOf p = []
            /\ alertToEmbeds alertId now alert suffix = Returns [].
Proof.
  intros Ht Hd Hf Hc.
  set (p := {| Prepared.title := None; Prepared.footer := None;
               Prepared.descriptionChunks := []; Prepared.fields := [] |}).
  exists p.
  assert (Hp : prepare alert suffix = Returns p).
  { unfold prepare. rewrite Ht, Hd, Hf. destruct Hc as [-> | ->]; reflexivity. }
  split; [exact Hp|]. split; [reflexivity|].
  rewrite (alertToEmbeds_unfold _ _ _ _ _ Hp). reflexivity.
Qed.

Lemma empty_alert_no_container_witness :
  exists p, prepare emptyAlert dots = Returns p
            /\ segmentsOf p = []
            /\ alertToEmbeds sampleId sampleClock emptyAlert dots = Returns [].
Proof.
  apply (empty_alert_no_container sampleId sampleClock emptyAlert dots);
    try reflexivity.
  left. reflexivity.
Defined.

(* ------------------------------------------------------------------ *)
(** ** The batcher (C7) *)

(** The loop of [fillBatch] appends to [batch] the embeds of a prefix of the
    source; it keeps the batch within [batchSize] and the accumulated cost of
    what it appended within the budget. *)
Lemma fillBatch_loop_spec (batchSize : nat) :
  forall (source : list EmbedWithCharCount) (batch : list Embed.t) (acc : Z),
  exists k,
    k <= length source
    /\ fillBatch_loop source batchSize batch acc
       = batch ++ map embed (firstn k source)
    /\ (length batch <= batchSize -> length batch + k <= batchSize)
    /\ ((acc <= DISCORD_LIMITS.EMBED_TOTAL_CHARS)%Z ->
        (acc + sumCosts (firstn k source) <= DISCORD_LIMITS.EMBED_TOTAL_CHARS)%Z)
    /\ (forall e rest, source = e :: rest ->
                       (DISCORD_LIMITS.EMBED_TOTAL_CHARS < acc + charsCount e)%Z ->
                       k = 0).
Proof.
  induction source as [|e rest IH]; intros batch acc.
  - exists 0. simpl. rewrite app_nil_r. repeat split; auto; lia.
  - simpl. destruct (Nat.leb_spec batchSize (length batch)) as [Hfull|Hroom].
    + exists 0. simpl. rewrite app_nil_r. repeat split; auto; lia.
    + destruct (Z.ltb_spec DISCORD_LIMITS.EMBED_TOTAL_CHARS (acc + charsCount e))
        as [Hover|Hfits].
      * exists 0. simpl. rewrite app_nil_r. repeat split; auto; lia.
      * destruct (IH (batch ++ [embed e]) (acc + charsCount e)%Z)
          as (k & Hk & Heq & Hcnt & Hsum & _).
        exists (S k). simpl. rewrite length_app in Hcnt. simpl in Hcnt.
        repeat split.
        -- lia.
        -- rewrite Heq, <- app_assoc. reflexivity.
        -- lia.
        -- intros _. specialize (Hsum Hfits). lia.
        -- intros e' rest' Heq' Hover. inversion Heq'; subst. lia.
Qed.

(** C7. For every queue of committed containers and every maximum count,
    [fillBatch] returns the embeds of a prefix of the queue; the prefix has
    at most [batchSize] containers and its frozen costs sum to at most the
    budget of 5900. It is the empty list when the queue is empty and when
    the cost of the first container alone exceeds the budget. *)
Theorem fillBatch_selects_prefix (source : list EmbedWithCharCount) (batchSize : nat) :
  let batch := fillBatch source batchSize in
  let taken := firstn (length batch) source in
  batch = map embed taken
  /\ length batch <= length source
  /\ length batch <= batchSize
  /\ (sumCosts taken <= DISCORD_LIMITS.EMBED_TOTAL_CHARS)%Z
  /\ (source = [] -> batch = [])
  /\ (forall e rest, source = e :: rest ->
                     (DISCORD_LIMITS.EMBED_TOTAL_CHARS < charsCount e)%Z ->
                     batch = []).
Proof.
  destruct source as [|e rest].
  - simpl. repeat split; auto; try lia.
    unfold DISCORD_LIMITS.EMBED_TOTAL_CHARS. lia.
  - destruct (fillBatch_loop_spec batchSize (e :: rest) [] 0%Z)
      as (k & Hk & Heq & Hcnt & Hsum & Hfirst).
    cbv zeta. unfold fillBatch. rewrite Heq. simpl app.
    assert (Hlen : length (map embed (firstn k (e :: rest))) = k).
    { rewrite length_map, length_firstn. lia. }
    rewrite Hlen. repeat split; auto.
    + apply Hcnt. simpl. lia.
    + assert (H0 : (0 <= DISCORD_LIMITS.EMBED_TOTAL_CHARS)%Z)
        by (unfold DISCORD_LIMITS.EMBED_TOTAL_CHARS; lia).
      specialize (Hsum H0). lia.
    + intros; discriminate.
    + intros e' rest' Heq' Hover.
      rewrite (Hfirst e' rest' Heq') by lia. reflexivity.
Qed.

(* ------------------------------------------------------------------ *)
(** ** Thirty context entries (C6) *)

Lemma fieldsCost_cons (f : Field) (fs : list Field) :
  fieldsCost (f :: fs) = (fieldCost f + fieldsCost fs)%Z.
Proof. reflexivity. Qed.

Lemma fieldsCost_nonneg (fs : list Field) : (0 <= fieldsCost fs)%Z.
Proof.
  induction fs as [|f fs IH]; [unfold fieldsCost; simpl; lia|].
  rewrite fieldsCost_cons. unfold fieldCost.
  pose proof (len_nonneg (name f)). pose proof (len_nonneg (value f)). lia.
Qed.

(** A field goes into the open container when there is room for it. *)
Lemma packSegment_field_room alertId now lvl (st : Packing) (cur : Embed.t) (f : Field) :
  current st = Some cur ->
  fieldCount st < DISCORD_LIMITS.EMBED_MAX_FIELDS ->
  (charCount st + fieldCost f <= DISCORD_LIMITS.EMBED_TOTAL_CHARS)%Z ->
  packSegment alertId now lvl st (SegField f)
  = {| embeds := embeds st;
       current := Some (withFields cur (Embed.fields cur ++ [f]));
       charCount := (charCount st + fieldCost f)%Z;
       fieldCount := fieldCount st + 1 |}.
Proof.
  intros E Hcnt Hfit. unfold packSegment, overflows. rewrite E.
  destruct (Nat.leb_spec DISCORD_LIMITS.EMBED_MAX_FIELDS (fieldCount st)); [lia|].
  fold (fieldCost f).
  destruct (Z.ltb_spec DISCORD_LIMITS.EMBED_TOTAL_CHARS (charCount st + fieldCost f));
    [lia|].
  cbn [orb]. unfold place. cbn [embeds current charCount fieldCount].
  rewrite E. reflexivity.
Qed.

(** Otherwise (no open container, or 25 fields already) the open container
    is committed and the field goes into a fresh one. *)
Lemma packSegment_field_fresh alertId now lvl (st : Packing) (f : Field) :
  current st = None \/ DISCORD_LIMITS.EMBED_MAX_FIELDS <= fieldCount st ->
  packSegment alertId now lvl st (SegField f)
  = {| embeds := embeds (commitEmbed st);
       current :=
         Some (withFields (freshEmbed alertId now lvl (length (embeds (commitEmbed st))))
                 [idField alertId; f]);
       charCount := (idCost alertId + fieldCost f)%Z;
       fieldCount := 2 |}.
Proof.
  intros H. unfold packSegment.
  replace (match current st with Some _ => false | None => true end
           || (DISCORD_LIMITS.EMBED_MAX_FIELDS <=? fieldCount st)) with true.
  - reflexivity.
  - destruct H as [-> | H]; [reflexivity|].
    apply Nat.leb_le in H. rewrite H. now rewrite orb_true_r.
Qed.

(** A run of fields that fits the open container goes into it entirely. *)
Lemma pack_field_run alertId now lvl (fs : list Field) :
  forall (st : Packing) (cur : Embed.t),
    current st = Some cur ->
    fieldCount st + length fs <= DISCORD_LIMITS.EMBED_MAX_FIELDS ->
    (charCount st + fieldsCost fs <= DISCORD_LIMITS.EMBED_TOTAL_CHARS)%Z ->
    fold_left (packSegment alertId now lvl) (map SegField fs) st
    = {| embeds := embeds st;
         current := Some (withFields cur (Embed.fields cur ++ fs));
         charCount := (charCount st + fieldsCost fs)%Z;
         fieldCount := fieldCount st + length fs |}.
Proof.
  induction fs as [|f fs IH]; intros st cur E Hcnt Hfit.
  - destruct st as [es c cc fc]. simpl in *. subst c.
    destruct cur. unfold withFields. simpl.
    rewrite app_nil_r, Z.add_0_r, Nat.add_0_r. reflexivity.
  - cbn [map fold_left]. simpl in Hcnt.
    rewrite fieldsCost_cons in Hfit.
    pose proof (fieldsCost_nonneg fs).
    rewrite (packSegment_field_room alertId now lvl st cur f E) by lia.
    erewrite IH; [|reflexivity|simpl; lia|simpl; lia].
    simpl. unfold withFields. simpl. rewrite <- app_assoc. simpl.
    f_equal; lia.
Qed.

(** The loop only ever adds containers at the end of the committed list, and
    after a segment there always is an open container. *)
Lemma packSegment_grows alertId now lvl (st : Packing) (seg : Segment) :
  (exists more, embeds (packSegment alertId now lvl st seg) = embeds st ++ more)
  /\ current (packSegment alertId now lvl st seg) <> None.
Proof.
  assert (Hfresh : forall s, exists more,
             embeds (startNewEmbed alertId now lvl (commitEmbed s)) = embeds s ++ more).
  { intros s. simpl. destruct (current s); eexists; [reflexivity|].
    symmetry. apply app_nil_r. }
  assert (Hens : embeds (ensure alertId now lvl st) = embeds st
                 /\ current (ensure alertId now lvl st) <> None).
  { unfold ensure. destruct (current st) eqn:E; simpl; split; congruence. }
  destruct Hens as [Hens1 Hens2].
  destruct seg as [c|c|c|f]; unfold packSegment;
    match goal with |- context [if ?b then _ else _] => destruct b eqn:Hb end;
    unfold place; cbn [embeds current]; try rewrite Hens1.
  all: split;
    try (destruct (Hfresh (ensure alertId now lvl st)) as [more Hm];
         rewrite Hens1 in Hm; exists more; exact Hm);
    try (apply Hfresh);
    try (exists []; symmetry; apply app_nil_r);
    try (simpl; discriminate).
  all: try (destruct (current (ensure alertId now lvl st)); simpl; congruence).
  apply orb_false_iff in Hb. destruct Hb as [Hb _].
  apply orb_false_iff in Hb. destruct Hb as [Hb _].
  destruct (current st); [simpl; discriminate | discriminate].
Qed.

Lemma pack_loop_grows alertId now lvl (segs : list Segment) :
  forall st : Packing,
    exists more,
      embeds (fold_left (packSegment alertId now lvl) segs st) = embeds st ++ more.
Proof.
  induction segs as [|seg segs IH]; intros st; simpl.
  - exists []. symmetry. apply app_nil_r.
  - destruct (IH (packSegment alertId now lvl st seg)) as [more Hm].
    destruct (packSegment_grows alertId now lvl st seg) as [[more' Hm'] _].
    exists (more' ++ more). rewrite Hm, Hm'. now rewrite app_assoc.
Qed.

Lemma pack_loop_open alertId now lvl (segs : list Segment) :
  forall st : Packing,
    current st <> None ->
    current (fold_left (packSegment alertId now lvl) segs st) <> None.
Proof.
  induction segs as [|seg segs IH]; intros st Hst; simpl; auto.
  apply IH. apply packSegment_grows.
Qed.

(** Thirty fields whose first 24 fit the budget: the first container is
    closed when it has 25 fields (the [alertId] field and 24 of the alert),
    and a second one is opened for the 25th field of the alert. *)
Lemma pack_thirty_fields alertId now lvl (fs : list Field) :
  length fs = 30 ->
  (idCost alertId + fieldsCost (firstn 24 fs) <= DISCORD_LIMITS.EMBED_TOTAL_CHARS)%Z ->
  exists e1 e2 rest,
    pack alertId now lvl (map SegField fs) = e1 :: e2 :: rest
    /\ Embed.fields (embed e1) = idField alertId :: firstn 24 fs
    /\ charsCount e1 = (idCost alertId + fieldsCost (firstn 24 fs))%Z
    /\ ((idCost alertId + fieldsCost (skipn 24 fs)
         <= DISCORD_LIMITS.EMBED_TOTAL_CHARS)%Z ->
        rest = [] /\ Embed.fields (embed e2) = idField alertId :: skipn 24 fs).
Proof.
  intros Hlen Hfit.
  assert (Ha : length (firstn 24 fs) = 24) by (rewrite length_firstn; lia).
  assert (Hb : length (skipn 24 fs) = 6) by (rewrite length_skipn; lia).
  assert (Hsplit : map SegField fs
                   = map SegField (firstn 24 fs) ++ map SegField (skipn 24 fs))
    by (now rewrite <- map_app, firstn_skipn).
  unfold pack. rewrite Hsplit. clear Hsplit.
  destruct (firstn 24 fs) as [|f1 a'] eqn:Ea; [discriminate|].
  destruct (skipn 24 fs) as [|g1 b'] eqn:Eb; [discriminate|].
  simpl in Ha, Hb. rewrite fieldsCost_cons in Hfit.
  pose proof (fieldsCost_nonneg a') as Hpos.
  rewrite fold_left_app.
  (* the first field of the alert opens the first container *)
  set (st0 := {| embeds := []; current := None; charCount := 0%Z; fieldCount := 0 |}).
  cbn [map fold_left].
  rewrite (packSegment_field_fresh alertId now lvl st0 f1) by (left; reflexivity).
  (* the 23 next ones join it *)
  erewrite (pack_field_run alertId now lvl a');
    [|reflexivity
     |cbn [fieldCount]; unfold DISCORD_LIMITS.EMBED_MAX_FIELDS; lia
     |cbn [charCount]; lia].
  subst st0.
  cbn [embeds charCount fieldCount commitEmbed current].
  (* the 25th finds 25 fields in the container: commit, and a fresh one *)
  rewrite packSegment_field_fresh
    by (right; cbn [fieldCount]; unfold DISCORD_LIMITS.EMBED_MAX_FIELDS; lia).
  cbn [embeds charCount fieldCount commitEmbed current app length].
  match goal with
  | |- context [fold_left _ (map SegField b') ?s] => set (s3 := s)
  end.
  set (e1 := {| embed := _; charsCount := _ |}) in s3.
  destruct (pack_loop_grows alertId now lvl (map SegField b') s3) as [more Hmore].
  assert (Hopen : current (fold_left (packSegment alertId now lvl)
                             (map SegField b') s3) <> None).
  { apply pack_loop_open. subst s3. simpl. discriminate. }
  set (final := fold_left (packSegment alertId now lvl) (map SegField b') s3) in *.
  destruct (current final) as [cur|] eqn:Ecur; [|congruence].
  rewrite Hmore. subst s3. cbn [embeds app].
  exists e1.
  set (last := {| embed := cur; charsCount := charCount final |}).
  exists (match more with [] => last | m :: _ => m end).
  exists (match more with [] => [] | _ :: more' => more' ++ [last] end).
  split; [destruct more; reflexivity|].
  split; [subst e1; simpl; reflexivity|].
  split; [subst e1; simpl; lia|].
  intros Hfit2. rewrite fieldsCost_cons in Hfit2.
  pose proof (fieldsCost_nonneg b') as Hpos'.
  subst final.
  erewrite pack_field_run in Hmore, Ecur;
    [|reflexivity
     |cbn [fieldCount]; unfold DISCORD_LIMITS.EMBED_MAX_FIELDS; lia
     |cbn [charCount]; lia
     |reflexivity
     |cbn [fieldCount]; unfold DISCORD_LIMITS.EMBED_MAX_FIELDS; lia
     |cbn [charCount]; lia].
  cbn [embeds current] in Hmore, Ecur.
  assert (more = []) as ->.
  { destruct more; [reflexivity|]. simpl in Hmore.
    apply (f_equal (@length _)) in Hmore. simpl in Hmore. lia. }
  split; [reflexivity|].
  inversion Ecur; subst. simpl. reflexivity.
Qed.

Lemma large_entries_field_counts :
  fieldCounts (alertToEmbeds sampleId sampleClock
                 (thirtyAlert (repeat "v"%char 1000)) dots)
  = Some [6; 6; 6; 6; 6; 6].
Proof. vm_compute. reflexivity. Qed.

(** With one-character values nothing but the field count closes the first
    container: it has the [alertId] field and 24 entries, the second one the
    [alertId] field and the 6 others. *)
Lemma short_entries_field_counts :
  fieldCounts (alertToEmbeds sampleId sampleClock (thirtyAlert (lit "v")) dots)
  = Some [25; 7].
Proof. vm_compute. reflexivity. Qed.

(** Counterexample to C6 as stated: the entries are large. With 30 values of
    1000 characters every entry costs more than 1000, so a container takes
    the [alertId] field (43 characters) and five entries, and a sixth entry
    would pass 5900: the first container is closed at 6 fields, not 25, and
    there are six containers. *)
Lemma thirty_large_entries_counterexample :
  fieldCounts (alertToEmbeds sampleId sampleClock
                 (thirtyAlert (repeat "v"%char 1000)) dots)
  = Some [6; 6; 6; 6; 6; 6]
  /\ ~ thirtyEntriesSplit sampleId sampleClock
         (thirtyAlert (repeat "v"%char 1000)) dots.
Proof.
  split; [exact large_entries_field_counts|].
  intros H.
  destruct H as (p & e1 & e2 & rest & _ & _ & _ & He & H25 & _).
  - reflexivity.
  - reflexivity.
  - reflexivity.
  - exists (thirtyEntries (repeat "v"%char 1000)). split; reflexivity.
  - pose proof large_entries_field_counts as Hc.
    rewrite He in Hc. simpl in Hc. rewrite H25 in Hc. discriminate.
Qed.

(** C6, amended. Take an alert with exactly 30 context entries and no title,
    description or footer, whose values all have a string form ([fs] are the
    prepared fields), and let the [alertId] field and the first 24 prepared
    fields together stay within the budget of 5900 characters. Then the
    segments are the 30 fields; the first container is closed when it has 25
    fields, the [alertId] field followed by the first 24 fields of the alert;
    a second container is opened; and every container starts with the same
    [alertId] field. If the [alertId] field and the last 6 fields also stay
    within the budget there are exactly two containers, the second holding
    the [alertId] field and those 6 fields. *)
Theorem thirty_entries_split alertId now (alert : AlertInput) (suffix : str)
        (entries : list (str * Stringify.JsValue)) (fs : list Field) :
  title alert = None -> description alert = None -> footer alert = None ->
  context alert = Some entries ->
  length entries = 30 ->
  prepareFields entries suffix = Some fs ->
  (idCost alertId + fieldsCost (firstn 24 fs) <= DISCORD_LIMITS.EMBED_TOTAL_CHARS)%Z ->
  exists p e1 e2 rest,
    prepare alert suffix = Returns p
    /\ segmentsOf p = map SegField fs
    /\ length (segmentsOf p) = 30
    /\ alertToEmbeds alertId now alert suffix = Returns (e1 :: e2 :: rest)
    /\ Embed.fields (embed e1) = idField alertId :: firstn 24 fs
    /\ length (Embed.fields (embed e1)) = 25
    /\ Forall (fun e => headed alertId (embed e)) (e1 :: e2 :: rest)
    /\ ((idCost alertId + fieldsCost (skipn 24 fs)
         <= DISCORD_LIMITS.EMBED_TOTAL_CHARS)%Z ->
        rest = [] /\ Embed.fields (embed e2) = idField alertId :: skipn 24 fs).
Proof.
  intros Ht Hd Hf Hc Hlen Hfs Hfit.
  set (p := {| Prepared.title := None; Prepared.footer := None;
               Prepared.descriptionChunks := []; Prepared.fields := fs |}).
  assert (Hp : prepare alert suffix = Returns p).
  { unfold prepare. rewrite Ht, Hd, Hf, Hc, Hfs. reflexivity. }
  assert (Hsegs : segmentsOf p = map SegField fs).
  { unfold segmentsOf. simpl. apply app_nil_r. }
  assert (Hfslen : length fs = 30).
  { destruct (prepareFields_spec suffix entries fs Hfs) as [H _]. lia. }
  destruct (pack_thirty_fields alertId now (level alert) fs Hfslen Hfit)
    as (e1 & e2 & rest & Hpack & He1 & _ & Htwo).
  exists p, e1, e2, rest.
  split; [exact Hp|]. split; [exact Hsegs|].
  split; [rewrite Hsegs, length_map; exact Hfslen|].
  split; [rewrite (alertToEmbeds_unfold _ _ _ _ _ Hp), Hsegs, Hpack; reflexivity|].
  split; [exact He1|].
  split; [rewrite He1; cbn [length]; rewrite length_firstn; lia|].
  split; [|exact Htwo].
  rewrite <- Hpack, <- Hsegs.
  destruct (segments_ascending alert suffix p Hp) as [Hasc Hnb].
  apply (pack_readBack alertId now (level alert) _ Hasc Hnb).
Qed.

Lemma thirty_entries_split_witness :
  exists p e1 e2 rest,
    prepare (thirtyAlert (lit "v")) dots = Returns p
    /\ segmentsOf p = map SegField (preparedOr (thirtyEntries (lit "v")) dots)
    /\ length (segmentsOf p) = 30
    /\ alertToEmbeds sampleId sampleClock (thirtyAlert (lit "v")) dots
       = Returns (e1 :: e2 :: rest)
    /\ Embed.fields (embed e1)
       = idField sampleId :: firstn 24 (preparedOr (thirtyEntries (lit "v")) dots)
    /\ length (Embed.fields (embed e1)) = 25
    /\ Forall (fun e => headed sampleId (embed e)) (e1 :: e2 :: rest)
    /\ ((idCost sampleId
         + fieldsCost (skipn 24 (preparedOr (thirtyEntries (lit "v")) dots))
         <= DISCORD_LIMITS.EMBED_TOTAL_CHARS)%Z ->
        rest = []
        /\ Embed.fields (embed e2)
           = idField sampleId :: skipn 24 (preparedOr (thirtyEntries (lit "v")) dots)).
Proof.
  apply (thirty_entries_split sampleId sampleClock (thirtyAlert (lit "v")) dots
           (thirtyEntries (lit "v")) (preparedOr (thirtyEntries (lit "v")) dots));
    try reflexivity.
  vm_compute. discriminate.
Defined.

(* ------------------------------------------------------------------ *)
(** ** The dispatcher: what a send attempt removes (C1) and how a rate
       limit is retried (C4) *)

Lemma finishSend_queue (c : Client.AlertsClient) batch override before :
  queueOf (Client.finishSend c batch override before)
  = skipn (Client.BATCH_SIZE c) (Client.embeds c).
Proof.
  unfold Client.finishSend, queueOf. simpl.
  destruct (skipn (Client.BATCH_SIZE c) (Client.embeds c)) eqn:E; simpl; auto.
Qed.

(** What the code does on a completed attempt: it removes the first
    [BATCH_SIZE] containers of the queue, whatever the batch was. *)
Lemma completed_send_drops_batch_size (c : Client.AlertsClient) override net :
  Client.embeds c <> [] ->
  completes c net = true ->
  queueOf (Client.sendAlertsBatch c override net)
  = skipn (Client.BATCH_SIZE c) (Client.embeds c).
Proof.
  intros Hne Hc. unfold Client.sendAlertsBatch, completes in *.
  destruct (Client.embeds c) as [|e es] eqn:E; [congruence|].
  cbn [Client.disabled Client.set_isSending].
  destruct (Client.disabled c) as [[|]|].
  - rewrite finishSend_queue. simpl. now rewrite E.
  - destruct net as [res|]; [|discriminate].
    destruct (Client.ok res); simpl in Hc |- *.
    + rewrite finishSend_queue. simpl. now rewrite E.
    + apply negb_true_iff in Hc. rewrite Hc. rewrite finishSend_queue.
      simpl. now rewrite E.
  - destruct net as [res|]; [|discriminate].
    destruct (Client.ok res); simpl in Hc |- *.
    + rewrite finishSend_queue. simpl. now rewrite E.
    + apply negb_true_iff in Hc. rewrite Hc. rewrite finishSend_queue.
      simpl. now rewrite E.
Qed.

(** The cut coincides with the batch exactly when the batch has [BATCH_SIZE]
    containers or is the whole queue. *)
Lemma completed_send_exact_when_full (c : Client.AlertsClient) override net :
  Client.embeds c <> [] ->
  completes c net = true ->
  length (fillBatch (Client.embeds c) (Client.BATCH_SIZE c))
  = Nat.min (Client.BATCH_SIZE c) (length (Client.embeds c)) ->
  queueOf (Client.sendAlertsBatch c override net)
  = skipn (length (fillBatch (Client.embeds c) (Client.BATCH_SIZE c)))
      (Client.embeds c).
Proof.
  intros Hne Hc Hlen.
  rewrite (completed_send_drops_batch_size c override net Hne Hc), Hlen.
  destruct (Nat.min_spec (Client.BATCH_SIZE c) (length (Client.embeds c)))
    as [[Hlt ->]|[Hge ->]]; [reflexivity|].
  rewrite !skipn_all2; auto.
Qed.

(** C1 (the code departs from it). Two containers of 3000 characters are
    queued. [fillBatch] selects only the first (both would cost 6000, over
    5900), the POST carries that one container and the log says
    [Sent 1 alerts]; yet the queue is then cut by [BATCH_SIZE] = 10, so the
    second container is removed without having been sent. *)
Theorem unsent_container_dropped :
  map charsCount (Client.embeds twoQueued) = [3000%Z; 3000%Z]
  /\ fillBatch (Client.embeds twoQueued) (Client.BATCH_SIZE twoQueued)
     = map embed (firstn 1 (Client.embeds twoQueued))
  /\ let r := Client.sendAlertsBatch twoQueued None (Client.Responds okResponse) in
     fetched (effectsOf r) = [map embed (firstn 1 (Client.embeds twoQueued))]
     /\ logged (effectsOf r) = [Client.InfoSent 1]
     /\ queueOf r = []
     /\ queueOf r <> skipn 1 (Client.embeds twoQueued).
Proof.
  split; [vm_compute; reflexivity|].
  split; [vm_compute; reflexivity|].
  cbv zeta.
  split; [vm_compute; reflexivity|].
  split; [vm_compute; reflexivity|].
  split; [vm_compute; reflexivity|].
  vm_compute. discriminate.
Qed.

(** On a 429 answer nothing is removed from the queue. *)
Lemma rate_limited_keeps_queue (c : Client.AlertsClient) override net :
  isRateLimited c net = true ->
  queueOf (Client.sendAlertsBatch c override net) = Client.embeds c.
Proof.
  intros Hc. unfold Client.sendAlertsBatch, isRateLimited in *.
  destruct (Client.embeds c) as [|e es] eqn:E; [unfold queueOf; simpl; congruence|].
  cbn [Client.disabled Client.set_isSending].
  destruct (Client.disabled c) as [[|]|]; try discriminate;
    (destruct net as [res|]; [|discriminate]);
    apply andb_true_iff in Hc; destruct Hc as [Hok H429];
    rewrite Hok, H429; unfold queueOf; simpl; exact E.
Qed.

(** The delay of the retry: the header parsed by [parseInt] when it is
    present and not empty, 30 otherwise, times 1000. *)
Lemma rate_limited_delay (c : Client.AlertsClient) override net :
  Client.embeds c <> [] ->
  isRateLimited c net = true ->
  exists res,
    net = Client.Responds res
    /\ scheduled (effectsOf (Client.sendAlertsBatch c override net))
       = [JS.mul (if JS.truthy (Client.retryAfter res)
                  then match Client.retryAfter res with
                       | Some h => JS.parseInt h
                       | None => JS.Fin 30
                       end
                  else JS.Fin 30) (JS.Fin 1000)].
Proof.
  intros Hne Hc. unfold Client.sendAlertsBatch, isRateLimited in *.
  destruct (Client.embeds c) as [|e es] eqn:E; [congruence|].
  cbn [Client.disabled Client.set_isSending].
  assert (Hclear : scheduled (Client.clearPending c) = []).
  { unfold Client.clearPending. destruct (Client.timeoutId c); reflexivity. }
  destruct (Client.disabled c) as [[|]|]; try discriminate;
    (destruct net as [res|]; [|discriminate]);
    apply andb_true_iff in Hc; destruct Hc as [Hok H429];
    exists res; (split; [reflexivity|]);
    rewrite Hok, H429; unfold effectsOf, scheduled; cbn [fst snd];
    rewrite !flat_map_app; fold (scheduled (Client.clearPending c));
    rewrite Hclear; simpl;
    destruct (Client.retryAfter res) as [[|ch h]|]; reflexivity.
Qed.

Lemma digit_value (c : ascii) :
  isDigit c = true ->
  JS.digitValue c = Some (Z.of_nat (nat_of_ascii c - 48))
  /\ (Z.of_nat (nat_of_ascii c - 48) < 10)%Z
  /\ JS.isWhiteSpace c = false.
Proof.
  unfold isDigit, JS.digitValue, JS.isWhiteSpace. intros H.
  apply andb_true_iff in H. destruct H as [Hlo Hhi].
  rewrite Hlo, Hhi. simpl.
  apply Nat.leb_le in Hlo. apply Nat.leb_le in Hhi.
  repeat split; try lia.
  repeat (apply orb_false_iff; split); apply Nat.eqb_neq; lia.
Qed.

Lemma readDigits_decimal (ds : str) :
  forall acc : Z,
    forallb isDigit ds = true ->
    JS.readDigits 10 ds (Some acc) = Some (fold_left decimalStep ds acc).
Proof.
  induction ds as [|c ds IH]; intros acc H; simpl in *; auto.
  apply andb_true_iff in H. destruct H as [Hc Hds].
  destruct (digit_value c Hc) as (-> & Hlt & _).
  apply Z.ltb_lt in Hlt. rewrite Hlt. rewrite IH by exact Hds. reflexivity.
Qed.

(** [parseInt] reads a non-empty run of decimal digits as its value. *)
Lemma parseInt_decimal (ds : str) :
  ds <> [] -> forallb isDigit ds = true ->
  JS.parseInt ds = JS.Fin (decimalValue ds).
Proof.
  destruct ds as [|c ds]; [congruence|]. intros _ H.
  pose proof H as Hall. simpl in H.
  apply andb_true_iff in H. destruct H as [Hc Hds].
  destruct (digit_value c Hc) as (Hv & Hlt & Hws).
  unfold JS.parseInt. cbn [JS.trimStart]. rewrite Hws.
  assert (Hsign : JS.stripSign (c :: ds) = (1%Z, c :: ds)).
  { destruct c as [[] [] [] [] [] [] [] []]; try reflexivity; discriminate Hc. }
  rewrite Hsign.
  assert (Hpre : JS.stripHexPrefix (c :: ds) = (10%Z, c :: ds)).
  { destruct ds as [|c2 ds].
    - destruct c as [[] [] [] [] [] [] [] []]; reflexivity.
    - simpl in Hds. apply andb_true_iff in Hds. destruct Hds as [Hc2 _].
      destruct c as [[] [] [] [] [] [] [] []]; try reflexivity;
        destruct c2 as [[] [] [] [] [] [] [] []]; try reflexivity;
        discriminate Hc2. }
  rewrite Hpre.
  cbn [JS.readDigits]. rewrite Hv.
  apply Z.ltb_lt in Hlt. rewrite Hlt.
  rewrite readDigits_decimal by exact Hds.
  unfold decimalValue. cbn [fold_left]. unfold decimalStep at 2.
  now rewrite Z.mul_1_l.
Qed.

(** The parts of C4 that hold: with no header the retry comes after 30
    seconds, and with a header made of decimal digits after that many
    seconds. *)
Lemma rate_limited_delay_absent (c : Client.AlertsClient) override res :
  Client.embeds c <> [] ->
  isRateLimited c (Client.Responds res) = true ->
  Client.retryAfter res = None ->
  scheduled (effectsOf (Client.sendAlertsBatch c override (Client.Responds res)))
  = [JS.Fin 30000].
Proof.
  intros Hne Hc Hh.
  destruct (rate_limited_delay c override _ Hne Hc) as (res' & Heq & ->).
  inversion Heq; subst res'. rewrite Hh. reflexivity.
Qed.

Lemma rate_limited_delay_decimal (c : Client.AlertsClient) override res (ds : str) :
  Client.embeds c <> [] ->
  isRateLimited c (Client.Responds res) = true ->
  Client.retryAfter res = Some ds ->
  ds <> [] -> forallb isDigit ds = true ->
  scheduled (effectsOf (Client.sendAlertsBatch c override (Client.Responds res)))
  = [JS.Fin (decimalValue ds * 1000)].
Proof.
  intros Hne Hc Hh Hds Hdigits.
  destruct (rate_limited_delay c override _ Hne Hc) as (res' & Heq & ->).
  inversion Heq; subst res'. rewrite Hh.
  destruct ds as [|d ds]; [congruence|]. cbn [JS.truthy].
  rewrite (parseInt_decimal (d :: ds) Hds Hdigits). reflexivity.
Qed.

Lemma parseInt_examples :
  JS.parseInt (lit "2") = JS.Fin 2
  /\ JS.parseInt (lit "120") = JS.Fin 120
  /\ JS.parseInt (lit " 7 ") = JS.Fin 7
  /\ JS.parseInt (lit "1.5") = JS.Fin 1
  /\ JS.parseInt (lit "0x10") = JS.Fin 16
  /\ JS.parseInt (lit "soon") = JS.NaN
  /\ JS.parseInt (lit "Wed, 21 Oct 2015 07:28:00 GMT") = JS.NaN.
Proof. repeat split; reflexivity. Qed.

(** C4 (the code departs from it). On a 429 answer the queue is left as it
    is, the retry is set after 30 seconds when there is no [Retry-After]
    header and after 2 seconds when the header is [2]; but for a header that
    is not a number (here an HTTP date) [parseInt] gives NaN, no fallback
    applies, and the timer is set with a delay of NaN instead of 30000 ms. *)
Theorem unparseable_retry_after_not_defaulted :
  let attempt header :=
    Client.sendAlertsBatch twoQueued None
      (Client.Responds (rateLimited header)) in
  queueOf (attempt None) = Client.embeds twoQueued
  /\ scheduled (effectsOf (attempt None)) = [JS.Fin 30000]
  /\ queueOf (attempt (Some (lit "2"))) = Client.embeds twoQueued
  /\ scheduled (effectsOf (attempt (Some (lit "2")))) = [JS.Fin 2000]
  /\ queueOf (attempt (Some (lit "Wed, 21 Oct 2015 07:28:00 GMT")))
     = Client.embeds twoQueued
  /\ scheduled (effectsOf (attempt (Some (lit "Wed, 21 Oct 2015 07:28:00 GMT"))))
     = [JS.NaN]
  /\ logged (effectsOf (attempt (Some (lit "Wed, 21 Oct 2015 07:28:00 GMT"))))
     = [Client.InfoRateLimit JS.NaN]
  /\ snd (attempt (Some (lit "Wed, 21 Oct 2015 07:28:00 GMT"))) = Returns JS.NaN.
Proof.
  cbv zeta. repeat split; vm_compute; reflexivity.
Qed.

(* ------------------------------------------------------------------ *)
(** ** The lazy-loading wrapper (C5) *)

(** Before [init] the wrapper only records: the alerts in call order, and
    whether [flush] was called. *)
Lemma performAll_uninitialised (calls : list LazyLoading.Call) :
  forall w : LazyLoading.LazyLoadingAlertsClient,
    LazyLoading.client w = None ->
    let w' := LazyLoading.performAll w calls in
    LazyLoading.client w' = None
    /\ LazyLoading.queuedAlerts w'
       = LazyLoading.queuedAlerts w ++ LazyLoading.alertsOf calls
    /\ LazyLoading.flushRequested w'
       = LazyLoading.flushRequested w || LazyLoading.flushCalled calls.
Proof.
  induction calls as [|c calls IH]; intros w Hw.
  - simpl. now rewrite app_nil_r, orb_false_r.
  - unfold LazyLoading.performAll in *. cbn [fold_left].
    assert (Hstep :
      LazyLoading.client (LazyLoading.perform w c) = None
      /\ LazyLoading.queuedAlerts (LazyLoading.perform w c)
         = LazyLoading.queuedAlerts w ++ LazyLoading.alertsOf [c]
      /\ LazyLoading.flushRequested (LazyLoading.perform w c)
         = LazyLoading.flushRequested w || LazyLoading.flushCalled [c]).
    { destruct c as [a| |]; simpl;
        unfold LazyLoading.addAlert, LazyLoading.flush, LazyLoading.stop;
        rewrite Hw; simpl; rewrite ?app_nil_r, ?orb_false_r, ?orb_true_r; auto. }
    destruct Hstep as (S1 & S2 & S3).
    destruct (IH (LazyLoading.perform w c) S1) as (H1 & H2 & H3).
    cbv zeta in *. rewrite H1, H2, H3, S2, S3.
    split; [reflexivity|]. split.
    + rewrite <- app_assoc. f_equal.
      unfold LazyLoading.alertsOf. simpl. now rewrite app_nil_r.
    + rewrite <- orb_assoc. f_equal.
      unfold LazyLoading.flushCalled. simpl. now rewrite orb_false_r.
Qed.

Lemma replay_appends (alerts : list AlertInput) :
  forall core : LazyLoading.Core,
    LazyLoading.received
      (fold_left (fun k alert => LazyLoading.call k (LazyLoading.CallAddAlert alert))
         alerts core)
    = LazyLoading.received core ++ map LazyLoading.CallAddAlert alerts.
Proof.
  induction alerts as [|a alerts IH]; intros core; simpl.
  - now rewrite app_nil_r.
  - rewrite IH. simpl. now rewrite <- app_assoc.
Qed.

(** What [init] makes the core client receive, for every history of calls
    made before it: the buffered alerts in call order, followed by one
    [flush] when [flush] was called and at least one alert was buffered. *)
Lemma init_replays (calls : list LazyLoading.Call) (cfg : Client.AlertsClientOptions.t) :
  receivedBy (LazyLoading.init (LazyLoading.performAll LazyLoading.new calls) cfg)
  = map LazyLoading.CallAddAlert (LazyLoading.alertsOf calls)
    ++ (if LazyLoading.flushCalled calls && negb (noAlerts calls)
        then [LazyLoading.CallFlush] else []).
Proof.
  destruct (performAll_uninitialised calls LazyLoading.new eq_refl) as (H1 & H2 & H3).
  simpl in H2, H3. unfold LazyLoading.init. rewrite H1.
  unfold LazyLoading.processQueue, receivedBy, noAlerts. simpl.
  rewrite H2, H3.
  destruct (LazyLoading.alertsOf calls) as [|a alerts] eqn:E.
  - simpl. now rewrite andb_false_r.
  - rewrite andb_true_r.
    destruct (LazyLoading.flushCalled calls); simpl;
      rewrite replay_appends; simpl; rewrite ?app_nil_r; reflexivity.
Qed.

(** C5 (the code departs from it). [flush] is called on the wrapper, no
    alert is, and the wrapper is initialised: [processQueue] returns at once
    because the queue is empty, so the core client receives no call at all,
    not even the [flush], and the request stays recorded. With one alert
    before or after the [flush], the alert is replayed and then [flush] is
    called. *)
Theorem flush_without_alerts_not_replayed :
  let after calls :=
    LazyLoading.init (LazyLoading.performAll LazyLoading.new calls) sampleOptions in
  LazyLoading.flushCalled [LazyLoading.CallFlush] = true
  /\ receivedBy (after [LazyLoading.CallFlush]) = []
  /\ LazyLoading.flushRequested (after [LazyLoading.CallFlush]) = true
  /\ receivedBy (after [LazyLoading.CallFlush; LazyLoading.CallAddAlert sampleAlert])
     = [LazyLoading.CallAddAlert sampleAlert; LazyLoading.CallFlush]
  /\ receivedBy (after [LazyLoading.CallAddAlert sampleAlert; LazyLoading.CallFlush;
                        LazyLoading.CallAddAlert emptyAlert])
     = [LazyLoading.CallAddAlert sampleAlert; LazyLoading.CallAddAlert emptyAlert;
        LazyLoading.CallFlush].
Proof.
  cbv zeta. repeat split; reflexivity.
Qed.

(* ------------------------------------------------------------------ *)
(** ** Further properties of [truncate] and [chunk] *)

(** X1. Truncation is idempotent when the suffix is no longer than the
    budget: a truncated text already fits and is returned unchanged. *)
Theorem truncate_idempotent (txt : str) (max : Z) (suffix : str) :
  (JS.len suffix <= max)%Z ->
  truncate (truncate txt max suffix) max suffix = truncate txt max suffix.
Proof.
  intros Hs. apply truncate_short. apply truncate_len_le. exact Hs.
Qed.

Lemma truncate_idempotent_witness :
  truncate (truncate (lit "abcdefghij") 5 dots) 5 dots
  = truncate (lit "abcdefghij") 5 dots.
Proof.
  apply (truncate_idempotent (lit "abcdefghij") 5 dots).
  vm_compute. discriminate.
Defined.

(** The shape of what the loop of [chunk] returns: the chunks it had, then
    chunks of exactly [size] characters, then a last one that is not empty. *)
Lemma chunk_loop_pieces (size : Z) (txt : str) :
  (0 < size)%Z ->
  forall (fuel : nat) (i : Z) (chunks r : list str),
    (0 <= i < JS.len txt)%Z ->
    chunk_loop fuel txt size i chunks = Some r ->
    exists full lastc,
      r = chunks ++ full ++ [lastc]
      /\ Forall (fun c => JS.len c = size) full
      /\ (0 < JS.len lastc <= size)%Z
      /\ (i + size * Z.of_nat (length full) < JS.len txt
          <= i + size * (Z.of_nat (length full) + 1))%Z.
Proof.
  intros Hsize. induction fuel as [|fuel IH]; intros i chunks r Hi Hr; simpl in Hr.
  - destruct (Z.ltb_spec i (JS.len txt)); [discriminate | lia].
  - destruct (Z.ltb_spec i (JS.len txt)) as [Hlt|Hge]; [|lia].
    assert (Hc : JS.len (JS.slice txt i (i + size))
                 = Z.min size (JS.len txt - i)).
    { rewrite slice_inside by lia. unfold JS.len in *.
      rewrite length_firstn, length_skipn. lia. }
    destruct (Z.lt_ge_cases (i + size) (JS.len txt)) as [Hmore|Hlast].
    + destruct (IH (i + size)%Z _ r ltac:(lia) Hr)
        as (full & lastc & Heq & Hfull & Hlast & Hbounds).
      exists (JS.slice txt i (i + size) :: full), lastc.
      split; [rewrite Heq, <- app_assoc; reflexivity|].
      split; [constructor; [lia | exact Hfull]|].
      split; [exact Hlast|].
      cbn [length]. lia.
    + exists [], (JS.slice txt i (i + size)).
      destruct fuel as [|fuel']; simpl in Hr;
        (destruct (Z.ltb_spec (i + size) (JS.len txt)); [lia|]);
        inversion Hr; subst.
      all: split; [reflexivity|]; split; [constructor|]; simpl; lia.
Qed.

(** X2. For a positive size and a non-empty text, [chunk] returns chunks of
    exactly [size] characters followed by one last chunk of 1 to [size]
    characters: there are as many chunks as the length divided by [size],
    rounded up. *)
Theorem chunk_pieces (txt : str) (size : Z) :
  (0 < size)%Z -> txt <> [] ->
  exists full lastc,
    chunk txt size = Some (full ++ [lastc])
    /\ Forall (fun c => JS.len c = size) full
    /\ (0 < JS.len lastc <= size)%Z
    /\ Z.of_nat (length (full ++ [lastc])) = ((JS.len txt + size - 1) / size)%Z.
Proof.
  intros Hsize Hne.
  destruct (chunk_spec txt size Hsize) as (chunks & Hch & _ & _).
  destruct txt as [|c txt]; [congruence|].
  unfold chunk in *.
  assert (H0 : (0 <= 0 < JS.len (c :: txt))%Z) by (unfold JS.len; simpl; lia).
  destruct (chunk_loop_pieces size (c :: txt) Hsize _ 0%Z [] chunks H0 Hch) as
    (full & lastc & Heq & Hfull & Hlast & Hbounds).
  simpl in Heq. subst chunks.
  set (L := JS.len (c :: txt)) in *.
  exists full, lastc. split; [exact Hch|]. split; [exact Hfull|].
  split; [exact Hlast|].
  rewrite length_app. cbn [length].
  set (n := Z.of_nat (length full)) in *.
  replace (Z.of_nat (length full + 1)) with (n + 1)%Z by lia.
  rewrite Z.mul_add_distr_l, Z.mul_1_r in Hbounds.
  apply Z.div_unique with (r := (L - 1 - size * n)%Z); [left|]; lia.
Qed.

Lemma chunk_pieces_witness :
  exists full lastc,
    chunk (lit "abcdefghij") 3 = Some (full ++ [lastc])
    /\ Forall (fun c => JS.len c = 3%Z) full
    /\ (0 < JS.len lastc <= 3)%Z
    /\ Z.of_nat (length (full ++ [lastc])) = ((JS.len (lit "abcdefghij") + 3 - 1) / 3)%Z.
Proof.
  apply (chunk_pieces (lit "abcdefghij") 3); [reflexivity | discriminate].
Defined.

(* ------------------------------------------------------------------ *)
(** ** Further properties of [alertToEmbeds] *)

Lemma prepareFields_some (entries : list (str * Stringify.JsValue)) (suffix : str)
      (fs : list Field) :
  prepareFields entries suffix = Some fs ->
  forallb (fun kv => match Stringify.stringify (snd kv) with
                     | Some _ => true
                     | None => false
                     end) entries = true.
Proof.
  revert fs. induction entries as [|[k v] entries IH]; simpl; intros fs H; auto.
  destruct (Stringify.stringify v); [|discriminate].
  destruct (prepareFields entries suffix) as [fs'|]; [|discriminate].
  simpl. eapply IH; reflexivity.
Qed.


Lemma pack_nil alertId now lvl : pack alertId now lvl [] = [].
Proof. reflexivity. Qed.

Lemma slot_segments_empty (mk : str -> Segment) (slot : option str)
      (budget : Z) (suffix : str) (prepared : option str) :
  (0 < budget)%Z ->
  prepared = (if JS.truthy slot
              then option_map (fun t => truncate t budget suffix) slot
              else None) ->
  (if JS.truthy prepared
   then match prepared with Some t => [mk t] | None => [] end
   else []) = []
  <-> JS.truthy slot = false.
Proof.
  intros Hb ->. destruct (JS.truthy slot) eqn:E.
  - destruct (truthy_nonempty _ E) as [v [-> Hne]]. simpl option_map.
    pose proof (truncate_nonempty v budget suffix Hb Hne) as Hn.
    destruct (truncate v budget suffix); [congruence|].
    simpl. split; discriminate.
  - simpl. split; reflexivity.
Qed.

(** An alert has segments exactly when it has content. *)
Lemma segments_empty_iff (alert : AlertInput) (suffix : str) (p : Prepared.t) :
  prepare alert suffix = Returns p ->
  segmentsOf p = [] <-> hasContent alert = false.
Proof.
  intros Hp. destruct (prepare_inversion _ _ _ Hp) as (Ht & Hf & Hd & Hc).
  destruct (chunk_spec (match description alert with Some d => d | None => [] end)
              DISCORD_LIMITS.DESCRIPTION) as (chunks & Hch & Hcat & Hall);
    [unfold DISCORD_LIMITS.DESCRIPTION; lia|].
  rewrite Hd in Hch. inversion Hch; subst chunks. clear Hch.
  assert (Htitle := slot_segments_empty SegTitle (title alert)
                      DISCORD_LIMITS.TITLE suffix (Prepared.title p)
                      ltac:(unfold DISCORD_LIMITS.TITLE; lia) Ht).
  assert (Hfooter := slot_segments_empty SegFooter (footer alert)
                       DISCORD_LIMITS.FOOTER suffix (Prepared.footer p)
                       ltac:(unfold DISCORD_LIMITS.FOOTER; lia) Hf).
  assert (Hdesc : Prepared.descriptionChunks p = []
                  <-> JS.truthy (description alert) = false).
  { destruct (description alert) as [[|c d]|]; simpl in *.
    - split; auto. intros _. unfold chunk in Hd. congruence.
    - split; [|discriminate]. intros E. rewrite E in Hcat. discriminate.
    - split; auto. intros _. unfold chunk in Hd. congruence. }
  assert (Hfields : Prepared.fields p = []
                    <-> match context alert with Some (_ :: _) => true | _ => false end
                        = false).
  { destruct (context alert) as [entries|].
    - destruct (prepareFields_spec suffix entries _ Hc) as [Hlen _].
      destruct entries, (Prepared.fields p); simpl in *; try lia;
        split; congruence.
    - inversion Hc; subst. split; reflexivity. }
  unfold segmentsOf, hasContent.
  rewrite !orb_false_iff.
  rewrite <- Htitle, <- Hfooter, <- Hdesc, <- Hfields.
  split.
  - intros H. apply app_eq_nil in H. destruct H as [H1 H].
    apply app_eq_nil in H. destruct H as [H2 H].
    apply app_eq_nil in H. destruct H as [H3 H4].
    apply map_eq_nil in H2. apply map_eq_nil in H3. auto.
  - intros [[[H1 H2] H3] H4]. rewrite H1, H2, H3, H4. reflexivity.
Qed.

(** X4. [alertToEmbeds] returns the empty list exactly for an alert without
    content (no non-empty title, description or footer, and no context
    entry); any content gives at least one container. *)
Theorem no_container_iff_no_content alertId now (alert : AlertInput)
        (suffix : str) (es : list EmbedWithCharCount) :
  alertToEmbeds alertId now alert suffix = Returns es ->
  es = [] <-> hasContent alert = false.
Proof.
  intros Hes.
  destruct (alertToEmbeds_returned _ _ _ _ _ Hes) as [p [Hp ->]].
  rewrite <- (segments_empty_iff alert suffix p Hp).
  destruct (segments_ascending alert suffix p Hp) as [Hasc Hnb].
  destruct (pack_readBack alertId now (level alert) _ Hasc Hnb) as [Hrb _].
  split.
  - intros E. rewrite E in Hrb. simpl in Hrb. congruence.
  - intros E. rewrite E. reflexivity.
Qed.

Lemma no_container_iff_no_content_witness :
  exists es,
    alertToEmbeds sampleId sampleClock sampleAlert dots = Returns es
    /\ (es = [] <-> hasContent sampleAlert = false).
Proof.
  eexists. split; [reflexivity|].
  apply (no_container_iff_no_content sampleId sampleClock sampleAlert dots).
  reflexivity.
Defined.

Lemma slot_segment_budget (mk : str -> Segment) (slot : option str)
      (budget : Z) (suffix : str) (prepared : option str) :
  (forall c, withinPartBudget (mk c) <-> (JS.len c <= budget)%Z) ->
  (JS.len suffix <= budget)%Z ->
  prepared = (if JS.truthy slot
              then option_map (fun t => truncate t budget suffix) slot
              else None) ->
  Forall withinPartBudget
    (if JS.truthy prepared
     then match prepared with Some t => [mk t] | None => [] end
     else []).
Proof.
  intros Hmk Hs ->.
  destruct (JS.truthy slot); [|constructor].
  destruct slot as [t|]; simpl option_map; [|constructor].
  destruct (JS.truthy (Some (truncate t budget suffix))); constructor; [|constructor].
  apply Hmk. apply truncate_len_le. exact Hs.
Qed.

(** With a suffix no longer than the title budget, every segment of an alert
    is within the budget of its kind. *)
Lemma segments_within_budget (alert : AlertInput) (suffix : str) (p : Prepared.t) :
  prepare alert suffix = Returns p ->
  (JS.len suffix <= DISCORD_LIMITS.TITLE)%Z ->
  Forall withinPartBudget (segmentsOf p).
Proof.
  intros Hp Hs.
  destruct (prepare_inversion _ _ _ Hp) as (Ht & Hf & Hd & Hc).
  assert (Lt : DISCORD_LIMITS.TITLE = 200%Z) by reflexivity.
  assert (Lf : DISCORD_LIMITS.FOOTER = 2000%Z) by reflexivity.
  assert (Ln : DISCORD_LIMITS.FIELD_NAME = 240%Z) by reflexivity.
  assert (Ld : (0 < DISCORD_LIMITS.DESCRIPTION)%Z) by reflexivity.
  unfold segmentsOf. repeat (apply Forall_app; split).
  - apply slot_segment_budget with (slot := title alert)
      (budget := DISCORD_LIMITS.TITLE) (suffix := suffix); auto.
    intros c; reflexivity.
  - destruct (chunk_spec (match description alert with Some d => d | None => [] end)
                DISCORD_LIMITS.DESCRIPTION Ld) as [chunks (Hch & _ & Hall)].
    rewrite Hd in Hch. inversion Hch; subst.
    apply Forall_map. eapply Forall_impl; [|exact Hall].
    intros c Hc'. cbv beta in Hc'. simpl. lia.
  - apply Forall_map.
    destruct (context alert) as [entries|].
    + apply (prepareFields_spec suffix entries _ Hc). lia.
    + inversion Hc; subst. constructor.
  - apply slot_segment_budget with (slot := footer alert)
      (budget := DISCORD_LIMITS.FOOTER) (suffix := suffix); auto; [|lia].
    intros c; reflexivity.
Qed.

(** X5. With a suffix no longer than the title budget, every part of every
    container is within the budget of its kind: title 200, description 4000,
    footer 2000, and for each field of the alert name 240 and value 1000
    characters; and every container starts with the [alertId] field. *)
Theorem containers_within_part_budgets alertId now (alert : AlertInput)
        (suffix : str) (es : list EmbedWithCharCount) :
  (JS.len suffix <= DISCORD_LIMITS.TITLE)%Z ->
  alertToEmbeds alertId now alert suffix = Returns es ->
  Forall (fun e =>
            headed alertId (embed e)
            /\ (optLen (Embed.title (embed e)) <= DISCORD_LIMITS.TITLE)%Z
            /\ (optLen (Embed.description (embed e)) <= DISCORD_LIMITS.DESCRIPTION)%Z
            /\ (optLen (option_map text (Embed.footer (embed e)))
                <= DISCORD_LIMITS.FOOTER)%Z
            /\ Forall (fun f =>
                         (JS.len (name f) <= DISCORD_LIMITS.FIELD_NAME)%Z
                         /\ (JS.len (value f) <= DISCORD_LIMITS.FIELD_VALUE)%Z)
                      (tl (Embed.fields (embed e)))) es.
Proof.
  intros Hs Hes.
  destruct (alertToEmbeds_returned _ _ _ _ _ Hes) as [p [Hp ->]].
  destruct (segments_ascending alert suffix p Hp) as [Hasc Hnb].
  destruct (pack_readBack alertId now (level alert) _ Hasc Hnb) as [Hrb Hhead].
  pose proof (segments_within_budget alert suffix p Hp Hs) as Hall.
  rewrite <- Hrb in Hall. rewrite Forall_flat_map in Hall.
  rewrite Forall_forall in *. intros e He.
  specialize (Hall e He). specialize (Hhead e He).
  split; [exact Hhead|].
  unfold contentOf in Hall.
  apply Forall_app in Hall. destruct Hall as [H1 Hall].
  apply Forall_app in Hall. destruct Hall as [H2 Hall].
  apply Forall_app in Hall. destruct Hall as [H3 H4].
  repeat split.
  - destruct (Embed.title (embed e)); simpl; [now inversion H1 | vm_compute; discriminate].
  - destruct (Embed.description (embed e)); simpl; [now inversion H2 | vm_compute; discriminate].
  - destruct (Embed.footer (embed e)); simpl; [now inversion H4 | vm_compute; discriminate].
  - rewrite Forall_map in H3. exact H3.
Qed.

Lemma containers_within_part_budgets_witness :
  exists es,
    alertToEmbeds sampleId sampleClock longTitleAlert dots = Returns es
    /\ Forall (fun e =>
            headed sampleId (embed e)
            /\ (optLen (Embed.title (embed e)) <= DISCORD_LIMITS.TITLE)%Z
            /\ (optLen (Embed.description (embed e)) <= DISCORD_LIMITS.DESCRIPTION)%Z
            /\ (optLen (option_map text (Embed.footer (embed e)))
                <= DISCORD_LIMITS.FOOTER)%Z
            /\ Forall (fun f =>
                         (JS.len (name f) <= DISCORD_LIMITS.FIELD_NAME)%Z
                         /\ (JS.len (value f) <= DISCORD_LIMITS.FIELD_VALUE)%Z)
                      (tl (Embed.fields (embed e)))) es.
Proof.
  eexists. split; [reflexivity|].
  apply (containers_within_part_budgets sampleId sampleClock longTitleAlert dots).
  - vm_compute. discriminate.
  - reflexivity.
Defined.

Lemma slot_segment_verbatim (mk : str -> Segment) (slot : option str)
      (budget : Z) (suffix : str) (prepared : option str) :
  (optLen slot <= budget)%Z ->
  prepared = (if JS.truthy slot
              then option_map (fun t => truncate t budget suffix) slot
              else None) ->
  (if JS.truthy prepared
   then match prepared with Some t => [mk t] | None => [] end
   else []) = slotSegment mk slot.
Proof.
  intros Hb ->. destruct slot as [[|c t]|]; simpl; auto.
  simpl in Hb. rewrite truncate_short by exact Hb. reflexivity.
Qed.

Lemma prepareFields_verbatim (suffix : str) :
  forall (entries : list (str * Stringify.JsValue)) (fs : list Field),
    prepareFields entries suffix = Some fs ->
    Forall (fun kv =>
              (JS.len (fst kv) <= DISCORD_LIMITS.FIELD_NAME)%Z
              /\ (optLen (Stringify.stringify (snd kv))
                  <= DISCORD_LIMITS.FIELD_VALUE)%Z) entries ->
    Forall2 verbatimField entries fs.
Proof.
  induction entries as [|[k v] entries IH]; simpl; intros fs H Hall.
  - inversion H; subst. constructor.
  - destruct (Stringify.stringify v) as [sv|] eqn:Ev; [|discriminate].
    destruct (prepareFields entries suffix) as [fs'|]; [|discriminate].
    inversion H; subst; clear H. inversion Hall as [|? ? [Hk Hv] Hrest]; subst.
    simpl in Hk, Hv. rewrite Ev in Hv. simpl in Hv.
    constructor; [|apply IH; auto].
    unfold verbatimField. simpl.
    rewrite !truncate_short by assumption. auto.
Qed.

(** X6. An alert whose parts are all within their budgets is kept verbatim,
    whatever the suffix: read back in order, the containers give the title,
    chunks that concatenate to the description, one field per context entry
    with its key and the string form of its value, and the footer. *)
Theorem within_budget_alert_kept_verbatim alertId now (alert : AlertInput)
        (suffix : str) (es : list EmbedWithCharCount) :
  fitsBudgets alert ->
  alertToEmbeds alertId now alert suffix = Returns es ->
  exists chunks fs,
    concat chunks = match description alert with Some d => d | None => [] end
    /\ Forall2 verbatimField
         (match context alert with Some entries => entries | None => [] end) fs
    /\ flat_map (fun e => contentOf (embed e)) es
       = slotSegment SegTitle (title alert)
         ++ map SegDescription chunks
         ++ map SegField fs
         ++ slotSegment SegFooter (footer alert).
Proof.
  intros (Bt & Bf & Bc) Hes.
  destruct (alertToEmbeds_returned _ _ _ _ _ Hes) as [p [Hp ->]].
  destruct (prepare_inversion _ _ _ Hp) as (Ht & Hf & Hd & Hc).
  destruct (chunk_spec (match description alert with Some d => d | None => [] end)
              DISCORD_LIMITS.DESCRIPTION) as (chunks & Hch & Hcat & _);
    [unfold DISCORD_LIMITS.DESCRIPTION; lia|].
  rewrite Hd in Hch. inversion Hch; subst chunks. clear Hch.
  exists (Prepared.descriptionChunks p), (Prepared.fields p).
  split; [exact Hcat|]. split.
  - destruct (context alert) as [entries|].
    + apply (prepareFields_verbatim suffix entries _ Hc Bc).
    + inversion Hc; subst. constructor.
  - destruct (segments_ascending alert suffix p Hp) as [Hasc Hnb].
    destruct (pack_readBack alertId now (level alert) _ Hasc Hnb) as [-> _].
    unfold segmentsOf.
    rewrite (slot_segment_verbatim SegTitle (title alert) _ suffix _ Bt Ht).
    rewrite (slot_segment_verbatim SegFooter (footer alert) _ suffix _ Bf Hf).
    reflexivity.
Qed.

Lemma within_budget_alert_kept_verbatim_witness :
  exists es chunks fs,
    alertToEmbeds sampleId sampleClock sampleAlert [] = Returns es
    /\ concat chunks = lit "This is an info alert."
    /\ Forall2 verbatimField
         [ (lit "userId", Stringify.VOther (Some (lit "123")));
           (lit "action", Stringify.VString (lit "login")) ] fs
    /\ flat_map (fun e => contentOf (embed e)) es
       = slotSegment SegTitle (title sampleAlert)
         ++ map SegDescription chunks
         ++ map SegField fs
         ++ slotSegment SegFooter (footer sampleAlert).
Proof.
  eexists.
  destruct (within_budget_alert_kept_verbatim sampleId sampleClock sampleAlert []
              _ ltac:(repeat split; try (vm_compute; discriminate);
                      repeat constructor; vm_compute; discriminate)
              eq_refl) as (chunks & fs & H1 & H2 & H3).
  exists chunks, fs. repeat split; [exact H1 | exact H2 | exact H3].
Defined.

(* ------------------------------------------------------------------ *)
(** ** An alert that fits one container *)

Lemma sumSizes_app (a b : list Segment) :
  sumSizes (a ++ b) = (sumSizes a + sumSizes b)%Z.
Proof.
  induction a as [|x a IH]; simpl; [reflexivity|].
  unfold sumSizes in *. simpl. rewrite IH. lia.
Qed.

Lemma sumSizes_nonneg (segs : list Segment) : (0 <= sumSizes segs)%Z.
Proof.
  induction segs as [|x segs IH]; [unfold sumSizes; simpl; lia|].
  change (sumSizes (x :: segs)) with (segmentSize x + sumSizes segs)%Z.
  pose proof (segmentSize_nonneg x). lia.
Qed.

Lemma sumSizes_fields (fs : list Field) :
  sumSizes (map SegField fs) = fieldsCost fs.
Proof.
  induction fs as [|f fs IH]; [reflexivity|].
  change (sumSizes (map SegField (f :: fs)))
    with (fieldCost f + sumSizes (map SegField fs))%Z.
  rewrite IH. reflexivity.
Qed.

(** The cost of a container is that of the [alertId] field and of the
    segments it holds. *)
Lemma embedCost_content alertId (e : Embed.t) :
  headed alertId e ->
  embedCost e = (idCost alertId + sumSizes (contentOf e))%Z.
Proof.
  intros [rest Hf]. unfold embedCost, contentOf. rewrite Hf.
  rewrite !sumSizes_app, sumSizes_fields. cbn [tl].
  rewrite fieldsCost_cons. unfold idCost, fieldCost at 1, idField. cbn [name value].
  destruct (Embed.title e), (Embed.description e), (Embed.footer e);
    unfold sumSizes; simpl; lia.
Qed.

Lemma content_field_count (e : Embed.t) :
  length (filter isField (contentOf e)) = length (tl (Embed.fields e)).
Proof.
  unfold contentOf. rewrite !filter_app.
  assert (H : forall fs, filter isField (map SegField fs) = map SegField fs).
  { induction fs as [|f fs IH]; simpl; congruence. }
  rewrite H, !length_app, length_map.
  destruct (Embed.title e), (Embed.description e), (Embed.footer e); simpl; lia.
Qed.

(** In a list with at most one segment of a kind, nothing before a segment
    of that kind is of the kind. *)
Lemma only_one_before (p : Segment -> bool) (done rest : list Segment) (seg : Segment) :
  length (filter p (done ++ seg :: rest)) <= 1 ->
  p seg = true ->
  forall x, In x done -> p x = false.
Proof.
  intros Hlen Hp x Hx. rewrite filter_app, length_app in Hlen.
  simpl in Hlen. rewrite Hp in Hlen. simpl in Hlen.
  destruct (p x) eqn:E; [|reflexivity].
  assert (Hin : In x (filter p done)) by (apply filter_In; auto).
  destruct (filter p done); [contradiction | simpl in Hlen; lia].
Qed.

Lemma slot_keeps_embeds alertId now lvl (filled : Packing -> bool)
      (upd : Embed.t -> Embed.t) (len : Z) (st : Packing) :
  filled (ensure alertId now lvl st) = false ->
  overflows (ensure alertId now lvl st) len = false ->
  embeds
    (place upd len
       (if filled (ensure alertId now lvl st)
           || overflows (ensure alertId now lvl st) len
        then startNewEmbed alertId now lvl (commitEmbed (ensure alertId now lvl st))
        else ensure alertId now lvl st))
  = embeds st.
Proof.
  intros -> ->. simpl. unfold ensure. destruct (current st); reflexivity.
Qed.

Lemma field_keeps_embeds alertId now lvl (st : Packing) (f : Field) :
  current st = None
  \/ (fieldCount st < DISCORD_LIMITS.EMBED_MAX_FIELDS
      /\ overflows st (fieldCost f) = false) ->
  embeds (packSegment alertId now lvl st (SegField f)) = embeds st.
Proof.
  intros H. unfold packSegment. fold (fieldCost f).
  destruct H as [E | [Hcnt Hov]].
  - rewrite E. simpl. rewrite E. reflexivity.
  - rewrite Hov.
    destruct (Nat.leb_spec DISCORD_LIMITS.EMBED_MAX_FIELDS (fieldCount st)); [lia|].
    destruct (current st) eqn:E; simpl; rewrite ?E; reflexivity.
Qed.

(** What the invariants say of an open container when nothing is committed
    yet: it holds the segments placed so far. *)
Lemma open_container_facts alertId (r : nat) (st : Packing) (cur : Embed.t) :
  embeds st = [] ->
  countersAgree st ->
  orderly alertId r st ->
  current st = Some cur ->
  contentOf cur = readBack st
  /\ charCount st = (idCost alertId + sumSizes (readBack st))%Z
  /\ fieldCount st = S (length (filter isField (readBack st))).
Proof.
  intros He [_ Hc] [_ Ht] E. rewrite E in Hc, Ht.
  assert (Hrb : readBack st = contentOf cur).
  { unfold readBack. rewrite He, E. reflexivity. }
  rewrite Hrb. split; [reflexivity|].
  destruct Hc as (Hcost & _ & Hcnt & _).
  pose proof (tidy_headed alertId r cur Ht) as Hh.
  split.
  - rewrite Hcost. apply embedCost_content. exact Hh.
  - rewrite Hcnt, content_field_count. destruct Hh as [rest ->]. reflexivity.
Qed.

Lemma content_has (e : Embed.t) :
  (forall t, Embed.title e = Some t -> In (SegTitle t) (contentOf e))
  /\ (forall d, Embed.description e = Some d -> In (SegDescription d) (contentOf e))
  /\ (forall f, Embed.footer e = Some f -> In (SegFooter (text f)) (contentOf e)).
Proof.
  unfold contentOf. repeat split; intros x Hx; rewrite Hx.
  - left. reflexivity.
  - apply in_or_app. right. left. reflexivity.
  - apply in_or_app. right. apply in_or_app. right. apply in_or_app. right.
    left. reflexivity.
Qed.

Lemma ensured_container_facts alertId now lvl (r : nat) (st : Packing) :
  embeds st = [] ->
  countersAgree st ->
  orderly alertId r st ->
  (idCost alertId <= DISCORD_LIMITS.EMBED_TOTAL_CHARS)%Z ->
  exists cur,
    current (ensure alertId now lvl st) = Some cur
    /\ contentOf cur = readBack st
    /\ charCount (ensure alertId now lvl st)
       = (idCost alertId + sumSizes (readBack st))%Z.
Proof.
  intros He Hc Ho Hid.
  destruct (countersAgree_ensure alertId now lvl st Hc Hid) as [Hc1 Hcur].
  destruct (orderly_ensure alertId now lvl r st Ho) as [Ho1 _].
  assert (He1 : embeds (ensure alertId now lvl st) = []).
  { unfold ensure. destruct (current st); [exact He | exact He]. }
  destruct (current (ensure alertId now lvl st)) as [cur|] eqn:E; [|congruence].
  exists cur. split; [reflexivity|].
  destruct (open_container_facts alertId r _ cur He1 Hc1 Ho1 E) as (H1 & H2 & _).
  rewrite (readBack_ensure alertId now lvl st) in H1, H2. split; assumption.
Qed.

Lemma sumSizes_split (done rest : list Segment) (seg : Segment) :
  sumSizes (done ++ seg :: rest)
  = (sumSizes done + segmentSize seg + sumSizes rest)%Z.
Proof.
  rewrite sumSizes_app.
  change (sumSizes (seg :: rest)) with (segmentSize seg + sumSizes rest)%Z. lia.
Qed.

(** While the segments seen so far and the next one fit one container, the
    loop commits nothing. *)
Lemma pack_single_step alertId now lvl (r : nat) (st : Packing)
      (done rest : list Segment) (seg : Segment) :
  length (filter isTitle (done ++ seg :: rest)) <= 1 ->
  length (filter isDescription (done ++ seg :: rest)) <= 1 ->
  length (filter isFooter (done ++ seg :: rest)) <= 1 ->
  length (filter isField (done ++ seg :: rest)) < DISCORD_LIMITS.EMBED_MAX_FIELDS ->
  (idCost alertId + sumSizes (done ++ seg :: rest)
   <= DISCORD_LIMITS.EMBED_TOTAL_CHARS)%Z ->
  embeds st = [] ->
  countersAgree st ->
  orderly alertId r st ->
  readBack st = done ->
  embeds (packSegment alertId now lvl st seg) = [].
Proof.
  intros Ht Hd Hf Hn Hsum He Hc Ho Hrb.
  rewrite sumSizes_split in Hsum.
  pose proof (sumSizes_nonneg done) as Hdone.
  pose proof (sumSizes_nonneg rest) as Hrest.
  pose proof (segmentSize_nonneg seg) as Hseg.
  assert (Hid : (idCost alertId <= DISCORD_LIMITS.EMBED_TOTAL_CHARS)%Z) by lia.
  destruct seg as [c | c | c | f].
  - destruct (ensured_container_facts alertId now lvl r st He Hc Ho Hid)
      as (cur & E & Hcont & Hch).
    rewrite Hrb in Hcont, Hch.
    unfold packSegment. cbv zeta.
    etransitivity; [|exact He].
    apply (slot_keeps_embeds alertId now lvl (slotFilled Embed.title)
             (fun e => Embed.set_title e c) (JS.len c) st).
    + unfold slotFilled. rewrite E.
      destruct (JS.truthy (Embed.title cur)) eqn:T; [|reflexivity].
      destruct (truthy_nonempty _ T) as (v & Hv & _).
      destruct (content_has cur) as (Hin & _ & _).
      specialize (Hin v Hv). rewrite Hcont in Hin.
      pose proof (only_one_before isTitle done rest (SegTitle c) Ht eq_refl _ Hin) as X.
      discriminate X.
    + unfold overflows. rewrite Hch. apply Z.ltb_ge.
      cbn [segmentSize] in Hsum. lia.
  - destruct (ensured_container_facts alertId now lvl r st He Hc Ho Hid)
      as (cur & E & Hcont & Hch).
    rewrite Hrb in Hcont, Hch.
    unfold packSegment. cbv zeta.
    etransitivity; [|exact He].
    apply (slot_keeps_embeds alertId now lvl (slotFilled Embed.description)
             (fun e => Embed.set_description e c) (JS.len c) st).
    + unfold slotFilled. rewrite E.
      destruct (JS.truthy (Embed.description cur)) eqn:T; [|reflexivity].
      destruct (truthy_nonempty _ T) as (v & Hv & _).
      destruct (content_has cur) as (_ & Hin & _).
      specialize (Hin v Hv). rewrite Hcont in Hin.
      pose proof (only_one_before isDescription done rest (SegDescription c) Hd
                    eq_refl _ Hin) as X.
      discriminate X.
    + unfold overflows. rewrite Hch. apply Z.ltb_ge.
      cbn [segmentSize] in Hsum. lia.
  - destruct (ensured_container_facts alertId now lvl r st He Hc Ho Hid)
      as (cur & E & Hcont & Hch).
    rewrite Hrb in Hcont, Hch.
    unfold packSegment. cbv zeta.
    etransitivity; [|exact He].
    apply (slot_keeps_embeds alertId now lvl footerFilled
             (fun e => Embed.set_footer e {| text := c |}) (JS.len c) st).
    + unfold footerFilled. rewrite E.
      destruct (Embed.footer cur) as [v|] eqn:T; [|reflexivity].
      destruct (content_has cur) as (_ & _ & Hin).
      specialize (Hin v T). rewrite Hcont in Hin.
      pose proof (only_one_before isFooter done rest (SegFooter c) Hf
                    eq_refl _ Hin) as X.
      discriminate X.
    + unfold overflows. rewrite Hch. apply Z.ltb_ge.
      cbn [segmentSize] in Hsum. lia.
  - etransitivity; [|exact He].
    apply field_keeps_embeds.
    destruct (current st) as [cur|] eqn:E; [right | left; reflexivity].
    destruct (open_container_facts alertId r st cur He Hc Ho E) as (_ & Hch & Hcnt).
    rewrite Hrb in Hch, Hcnt.
    rewrite filter_app, length_app in Hn. cbn [filter isField length] in Hn.
    split; [lia|].
    unfold overflows. rewrite Hch. apply Z.ltb_ge.
    cbn [segmentSize] in Hsum. lia.
Qed.

Lemma pack_single_loop alertId now lvl (segs : list Segment) :
  length (filter isTitle segs) <= 1 ->
  length (filter isDescription segs) <= 1 ->
  length (filter isFooter segs) <= 1 ->
  length (filter isField segs) < DISCORD_LIMITS.EMBED_MAX_FIELDS ->
  (idCost alertId + sumSizes segs <= DISCORD_LIMITS.EMBED_TOTAL_CHARS)%Z ->
  forall (todo done : list Segment) (r : nat) (st : Packing),
    segs = done ++ todo ->
    embeds st = [] ->
    countersAgree st ->
    orderly alertId r st ->
    ascending r todo ->
    Forall nonblank todo ->
    readBack st = done ->
    embeds (fold_left (packSegment alertId now lvl) todo st) = [].
Proof.
  intros Ht Hd Hf Hn Hsum.
  induction todo as [|seg rest IH]; intros done r st Hsegs He Hc Ho Hasc Hnb Hrb.
  - exact He.
  - subst segs. destruct Hasc as [Hr Hasc]. inversion Hnb as [|? ? Hnb1 Hnb2]; subst.
    destruct (orderly_step alertId now lvl r st seg Ho Hr Hnb1) as [Ho' Hrb'].
    cbn [fold_left].
    apply (IH (readBack st ++ [seg]) (rank seg)).
    + rewrite <- app_assoc. reflexivity.
    + apply (pack_single_step alertId now lvl r st (readBack st) rest seg);
        auto.
    + apply countersAgree_step; [exact Hc|].
      unfold fitsFresh. fold (idCost alertId).
      rewrite sumSizes_split in Hsum.
      pose proof (sumSizes_nonneg (readBack st)).
      pose proof (sumSizes_nonneg rest). lia.
    + exact Ho'.
    + exact Hasc.
    + exact Hnb2.
    + exact Hrb'.
Qed.

Lemma filter_map_none {A : Type} (p : Segment -> bool) (mk : A -> Segment)
      (l : list A) :
  (forall a, p (mk a) = false) -> filter p (map mk l) = [].
Proof.
  intros H. induction l as [|a l IH]; [reflexivity|].
  simpl. rewrite H. exact IH.
Qed.

Lemma filter_map_all {A : Type} (p : Segment -> bool) (mk : A -> Segment)
      (l : list A) :
  (forall a, p (mk a) = true) -> filter p (map mk l) = map mk l.
Proof.
  intros H. induction l as [|a l IH]; [reflexivity|].
  simpl. rewrite H, IH. reflexivity.
Qed.

(** How many segments of each kind [segmentsOf] lists. *)
Lemma segmentsOf_counts (p : Prepared.t) :
  length (filter isTitle (segmentsOf p)) <= 1
  /\ length (filter isDescription (segmentsOf p))
     = length (Prepared.descriptionChunks p)
  /\ length (filter isFooter (segmentsOf p)) <= 1
  /\ length (filter isField (segmentsOf p)) = length (Prepared.fields p).
Proof.
  unfold segmentsOf. rewrite !filter_app, !length_app.
  rewrite (filter_map_none isTitle SegDescription), (filter_map_none isTitle SegField),
    (filter_map_all isDescription SegDescription),
    (filter_map_none isDescription SegField),
    (filter_map_none isFooter SegDescription), (filter_map_none isFooter SegField),
    (filter_map_none isField SegDescription), (filter_map_all isField SegField)
    by reflexivity.
  rewrite !length_map.
  destruct (JS.truthy (Prepared.title p)), (Prepared.title p),
    (JS.truthy (Prepared.footer p)), (Prepared.footer p); simpl; lia.
Qed.

(** X7. An alert with something to show, whose description needs no
    splitting, whose context has fewer than 25 entries and whose prepared
    parts together with the [alertId] field stay within the total budget,
    gives exactly one container: it holds all the prepared parts, and its
    recorded cost is the cost of the [alertId] field plus their sizes. *)
Theorem fitting_alert_one_container alertId now (alert : AlertInput)
        (suffix : str) (p : Prepared.t) :
  prepare alert suffix = Returns p ->
  hasContent alert = true ->
  length (Prepared.descriptionChunks p) <= 1 ->
  length (Prepared.fields p) < DISCORD_LIMITS.EMBED_MAX_FIELDS ->
  (idCost alertId + sumSizes (segmentsOf p) <= DISCORD_LIMITS.EMBED_TOTAL_CHARS)%Z ->
  exists e,
    alertToEmbeds alertId now alert suffix = Returns [e]
    /\ contentOf (embed e) = segmentsOf p
    /\ charsCount e = (idCost alertId + sumSizes (segmentsOf p))%Z.
Proof.
  intros Hp Hcontent Hd Hn Hsum.
  rewrite (alertToEmbeds_unfold alertId now alert suffix p Hp).
  destruct (segmentsOf_counts p) as (Ct & Cd & Cf & Cn).
  destruct (segments_ascending alert suffix p Hp) as [Hasc Hnb].
  assert (Hne : segmentsOf p <> []).
  { intros E. apply (segments_empty_iff alert suffix p Hp) in E. congruence. }
  set (segs := segmentsOf p) in *.
  set (st0 := {| embeds := []; current := None; charCount := 0%Z; fieldCount := 0 |}).
  set (final := fold_left (packSegment alertId now (level alert)) segs st0).
  assert (Hfit : Forall (fitsFresh alertId) segs).
  { apply Forall_forall. intros seg Hin.
    destruct (in_split _ _ Hin) as (l1 & l2 & E).
    unfold fitsFresh. fold (idCost alertId). rewrite E in Hsum.
    rewrite sumSizes_split in Hsum.
    pose proof (sumSizes_nonneg l1). pose proof (sumSizes_nonneg l2). lia. }
  assert (Hc0 : countersAgree st0) by (split; [constructor | exact I]).
  assert (Ho0 : orderly alertId 0 st0) by (split; [constructor | exact I]).
  assert (He : embeds final = []).
  { apply (pack_single_loop alertId now (level alert) segs) with (done := []) (r := 0);
      try assumption; try reflexivity; lia. }
  assert (Hopen : current final <> None).
  { unfold final. destruct segs as [|seg rest]; [congruence|].
    cbn [fold_left]. apply pack_loop_open.
    apply (packSegment_grows alertId now (level alert) st0 seg). }
  destruct (current final) as [cur|] eqn:Ecur; [|congruence].
  assert (Hpack : pack alertId now (level alert) segs
                  = [ {| embed := cur; charsCount := charCount final |} ]).
  { unfold pack. fold st0. fold final. unfold commitEmbed. cbn [embeds].
    rewrite Ecur, He. reflexivity. }
  destruct (pack_readBack alertId now (level alert) segs Hasc Hnb) as [Hrb Hhead].
  pose proof (pack_withinLimits alertId now (level alert) segs Hfit) as Hlim.
  rewrite Hpack in Hrb, Hhead, Hlim. rewrite Hpack.
  exists {| embed := cur; charsCount := charCount final |}.
  cbn [flat_map embed] in Hrb. rewrite app_nil_r in Hrb.
  inversion Hhead as [|? ? Hh _]; subst. inversion Hlim as [|? ? Hl _]; subst.
  destruct Hl as (Hcost & _). cbn [embed charsCount] in *.
  split; [reflexivity|]. split; [exact Hrb|].
  rewrite Hcost, (embedCost_content alertId cur Hh), Hrb. reflexivity.
Qed.

Lemma fitting_alert_one_container_witness :
  exists e,
    alertToEmbeds sampleId sampleClock sampleAlert dots = Returns [e]
    /\ contentOf (embed e) = segmentsOf (preparedAlert sampleAlert dots)
    /\ charsCount e
       = (idCost sampleId + sumSizes (segmentsOf (preparedAlert sampleAlert dots)))%Z.
Proof.
  apply (fitting_alert_one_container sampleId sampleClock sampleAlert dots
           (preparedAlert sampleAlert dots)).
  - vm_compute. reflexivity.
  - vm_compute. reflexivity.
  - vm_compute. lia.
  - vm_compute. lia.
  - vm_compute. discriminate.
Defined.

(* ------------------------------------------------------------------ *)
(** ** Colour and time stamp of the containers *)










(* ------------------------------------------------------------------ *)
(** ** [fillBatch] stops only when it has to *)

Lemma fillBatch_loop_maximal (batchSize : nat) :
  forall (source : list EmbedWithCharCount) (batch : list Embed.t) (acc : Z),
    length batch <= batchSize ->
    exists k,
      k <= length source
      /\ fillBatch_loop source batchSize batch acc
         = batch ++ map embed (firstn k source)
      /\ (k = length source
          \/ length batch + k = batchSize
          \/ (DISCORD_LIMITS.EMBED_TOTAL_CHARS
              < acc + sumCosts (firstn (S k) source))%Z).
Proof.
  induction source as [|e rest IH]; intros batch acc Hlen.
  - exists 0. cbn [fillBatch_loop firstn map length]. rewrite app_nil_r.
    split; [lia|]. split; [reflexivity|]. left. reflexivity.
  - cbn [fillBatch_loop].
    destruct (Nat.leb_spec batchSize (length batch)) as [Hfull|Hroom].
    + exists 0. cbn [firstn map length]. rewrite app_nil_r.
      split; [lia|]. split; [reflexivity|]. right. left. lia.
    + cbv zeta.
      destruct (Z.ltb_spec DISCORD_LIMITS.EMBED_TOTAL_CHARS (acc + charsCount e))
        as [Hover|Hfits].
      * exists 0. rewrite app_nil_r.
        split; [cbn [length]; lia|]. split; [reflexivity|]. right. right.
        cbn [firstn]. unfold sumCosts. cbn [fold_right]. lia.
      * destruct (IH (batch ++ [embed e]) (acc + charsCount e)%Z)
          as (k & Hk & Heq & Hstop).
        { rewrite length_app. cbn [length]. lia. }
        exists (S k). split; [cbn [length]; lia|].
        split; [rewrite Heq, <- app_assoc; reflexivity|].
        rewrite length_app in Hstop. cbn [length] in Hstop.
        destruct Hstop as [H | [H | H]].
        -- left. cbn [length]. lia.
        -- right. left. lia.
        -- right. right.
           change (firstn (S (S k)) (e :: rest)) with (e :: firstn (S k) rest).
           change (sumCosts (e :: firstn (S k) rest))
             with (charsCount e + sumCosts (firstn (S k) rest))%Z.
           lia.
Qed.

(** X9. [fillBatch] is greedy: the batch it returns is shorter than the queue
    only when it has [batchSize] containers, or when the recorded cost of the
    next container would take the sum over the budget of 5900. *)
Theorem fillBatch_maximal (source : list EmbedWithCharCount) (batchSize : nat) :
  let n := length (fillBatch source batchSize) in
  n = length source
  \/ n = batchSize
  \/ (DISCORD_LIMITS.EMBED_TOTAL_CHARS < sumCosts (firstn (S n) source))%Z.
Proof.
  cbv zeta. unfold fillBatch. destruct source as [|e rest]; [left; reflexivity|].
  destruct (fillBatch_loop_maximal batchSize (e :: rest) [] 0%Z (Nat.le_0_l _))
    as (k & Hk & Heq & Hstop).
  rewrite Heq. cbn [app]. rewrite length_map, length_firstn, Nat.min_l by exact Hk.
  cbn [length Nat.add] in Hstop. rewrite Z.add_0_l in Hstop. exact Hstop.
Qed.

(* ------------------------------------------------------------------ *)
(** ** The client under interleaving *)

Lemma finishSend_before (c : Client.AlertsClient) batch override
      (a b : list Client.Effect) :
  Client.finishSend c batch override (a ++ b)
  = (fst (fst (Client.finishSend c batch override b)),
     a ++ snd (fst (Client.finishSend c batch override b)),
     snd (Client.finishSend c batch override b)).
Proof.
  unfold Client.finishSend. cbv zeta.
  destruct (Client.embeds (Client.set_embeds c _)); cbn [fst snd];
    rewrite <- ?app_assoc; reflexivity.
Qed.

(** A send attempt that nothing interrupts is [sendAlertsBatch] as a single
    step. *)
Lemma sendAlertsBatch_split (c : Client.AlertsClient) override net :
  Client.sendAlertsBatch c override net
  = Runs.thenSettle (Runs.sendStart c override) override net.
Proof.
  unfold Client.sendAlertsBatch, Runs.sendStart, Runs.thenSettle.
  destruct (Client.embeds c) as [|e es] eqn:E; [reflexivity|].
  cbv zeta. cbn [Client.disabled Client.set_isSending].
  destruct (match Client.disabled c with Some true => true | _ => false end).
  - cbn [fst snd]. destruct (Client.finishSend _ _ _ _) as [[c' eff] out].
    reflexivity.
  - cbn [fst snd]. unfold Runs.sendSettle.
    destruct net as [res|]; [|cbn [fst snd]; rewrite app_nil_r; reflexivity].
    destruct (negb (Client.ok res)).
    + destruct (Client.status res =? 429)%Z.
      * cbn [fst snd]. reflexivity.
      * rewrite finishSend_before. reflexivity.
    + rewrite <- (app_nil_r (Client.clearPending c ++ _)) at 1.
      rewrite finishSend_before. reflexivity.
Qed.

Lemma fetched_app (a b : list Client.Effect) :
  fetched (a ++ b) = fetched a ++ fetched b.
Proof. unfold fetched. apply flat_map_app. Qed.

Lemma scheduled_app (a b : list Client.Effect) :
  scheduled (a ++ b) = scheduled a ++ scheduled b.
Proof. unfold scheduled. apply flat_map_app. Qed.

Lemma fetched_clearPending (c : Client.AlertsClient) :
  fetched (Client.clearPending c) = [].
Proof. unfold Client.clearPending. destruct (Client.timeoutId c); reflexivity. Qed.

Lemma fetched_finishSend (c : Client.AlertsClient) batch override before :
  fetched (snd (fst (Client.finishSend c batch override before))) = fetched before.
Proof.
  unfold Client.finishSend. cbv zeta.
  destruct (Client.embeds (Client.set_embeds c _)); cbn [fst snd];
    rewrite !fetched_app; cbn [fetched flat_map app]; rewrite ?app_nil_r;
    reflexivity.
Qed.

Lemma Forall_parts {A : Type} (P : A -> Prop) (k : nat) (l : list A) :
  Forall P l -> Forall P (firstn k l) /\ Forall P (skipn k l).
Proof.
  intros H. rewrite <- (firstn_skipn k l) in H. apply Forall_app in H. exact H.
Qed.

Lemma recorded_costs (l : list EmbedWithCharCount) :
  Forall withinLimits l ->
  fold_right (fun e acc => (embedCost e + acc)%Z) 0%Z (map embed l) = sumCosts l.
Proof.
  induction 1 as [|x l (Hx & _) _ IH]; [reflexivity|].
  cbn [map fold_right]. rewrite IH, <- Hx. reflexivity.
Qed.

(** The batch [fillBatch] selects from containers that are within the limits
    is fit to be posted. *)
Lemma fillBatch_batchOk (source : list EmbedWithCharCount) (batchSize : nat) :
  Forall withinLimits source ->
  batchSize <= DISCORD_LIMITS.MAX_EMBEDS_PER_PAYLOAD ->
  batchOk (fillBatch source batchSize).
Proof.
  intros Hall Hsize. unfold fillBatch.
  destruct source as [|e rest] eqn:Es.
  { split; [cbn [length]; lia|]. split; [vm_compute; discriminate | constructor]. }
  rewrite <- Es in *. clear Es.
  destruct (fillBatch_loop_spec batchSize source [] 0%Z)
    as (k & Hk & Heq & Hcnt & Hsum & _).
  rewrite Heq. cbn [app]. cbn [length Nat.add] in Hcnt.
  specialize (Hcnt (Nat.le_0_l _)).
  assert (H0 : (0 <= DISCORD_LIMITS.EMBED_TOTAL_CHARS)%Z) by (vm_compute; discriminate).
  specialize (Hsum H0). rewrite Z.add_0_l in Hsum.
  assert (Hpre : Forall withinLimits (firstn k source)).
  { apply (Forall_parts withinLimits k source Hall). }
  split; [rewrite length_map, length_firstn; lia|].
  split.
  - rewrite (recorded_costs _ Hpre). exact Hsum.
  - apply Forall_map. eapply Forall_impl; [|exact Hpre].
    intros x (Hx & Hle & Hn). split; [rewrite <- Hx; exact Hle | exact Hn].
Qed.

Lemma sound_set_timeout (c : Client.AlertsClient) :
  sound c -> sound (Client.set_timeout c).
Proof. intros H. exact H. Qed.

Lemma sound_finishSend (c : Client.AlertsClient) batch override before :
  sound c -> sound (fst (fst (Client.finishSend c batch override before))).
Proof.
  intros (Hall & Hs & Hb). unfold Client.finishSend. cbv zeta.
  assert (Hskip : Forall withinLimits (skipn (Client.BATCH_SIZE c) (Client.embeds c))).
  { apply (Forall_parts withinLimits _ _ Hall). }
  destruct (Client.embeds (Client.set_embeds c _)) eqn:E; cbn [fst snd];
    (split; [exact Hskip | split; [exact Hs | exact Hb]]).
Qed.

(** One event keeps the client sound, and what it posts is fit to be
    posted. *)
Lemma sound_step (c : Client.AlertsClient) (ev : Runs.Event) :
  sound c ->
  uuidSized ev ->
  sound (fst (Runs.step c ev))
  /\ Forall batchOk (fetched (snd (Runs.step c ev))).
Proof.
  intros Hc Hev. destruct ev as [alertId now alert | ov | batch ov net | | v];
    cbn [Runs.step].
  - unfold Client.addAlert.
    destruct (Client.isFlushing c); [split; [exact Hc | constructor]|].
    destruct (alertToEmbeds alertId now alert (Client.TRUNCATED_SUFFIX c))
      as [produced | e |] eqn:Ea; cbn [fst snd];
      try (split; [exact Hc | constructor]).
    assert (Hnew : sound (Client.set_embeds c (Client.embeds c ++ produced))).
    { destruct Hc as (Hall & Hs & Hb).
      split; [|split; [exact Hs | exact Hb]].
      cbn [Client.embeds Client.set_embeds]. apply Forall_app. split; [exact Hall|].
      destruct (alertToEmbeds_returned _ _ _ _ _ Ea) as (p & Hp & ->).
      apply pack_withinLimits.
      apply (segments_fit alertId alert _ p Hp Hs).
      cbn [uuidSized] in Hev. rewrite Hev. vm_compute. discriminate. }
    cbv zeta. destruct (_ && _); cbn [fst snd]; (split; [exact Hnew | constructor]).
  - unfold Runs.sendStart.
    destruct (Client.embeds c) as [|e es] eqn:E; [split; [exact Hc | constructor]|].
    cbv zeta. cbn [Client.disabled Client.set_isSending Client.embeds
                   Client.BATCH_SIZE Client.webhookUrl Client.label Client.env].
    destruct (match Client.disabled c with Some true => true | _ => false end);
      cbn [fst snd].
    + split; [apply sound_finishSend; exact Hc|].
      rewrite fetched_finishSend, fetched_app, fetched_clearPending. constructor.
    + split; [exact Hc|].
      rewrite fetched_app, fetched_clearPending. cbn [fetched flat_map app
        Client.Payload.embeds].
      constructor; [|constructor].
      destruct Hc as (Hall & _ & Hb). apply fillBatch_batchOk; assumption.
  - unfold Runs.sendSettle. destruct net as [res|]; [|split; [exact Hc | constructor]].
    destruct (negb (Client.ok res)).
    + destruct (Client.status res =? 429)%Z.
      * cbn [fst snd]. split; [exact Hc | constructor].
      * split; [apply sound_finishSend; exact Hc|].
        rewrite fetched_finishSend. constructor.
    + split; [apply sound_finishSend; exact Hc|].
      rewrite fetched_finishSend. constructor.
  - unfold Client.stop. cbn [fst snd]. split; [exact Hc|].
    rewrite fetched_clearPending. constructor.
  - cbn [fst snd]. split; [exact Hc | constructor].
Qed.

(** X10. Whatever happens to a client, in whatever order (alerts added,
    sends started by a timer or by [flush], requests settling with any
    answer, while flushing or not), every request it makes carries at most
    ten embeds, none of them over the budget of 5900 characters or with more
    than 25 fields, and together of at most 5900 characters. *)
Theorem posts_within_limits (c : Client.AlertsClient) (evs : list Runs.Event) :
  sound c ->
  Forall uuidSized evs ->
  Forall batchOk (fetched (snd (Runs.run c evs))).
Proof.
  revert c. induction evs as [|ev rest IH]; intros c Hc Hevs; [constructor|].
  inversion Hevs as [|? ? Hev Hrest]; subst.
  destruct (sound_step c ev Hc Hev) as [Hc1 Hf1].
  cbn [Runs.run]. cbv zeta. cbn [fst snd]. rewrite fetched_app.
  apply Forall_app. split; [exact Hf1 | apply IH; assumption].
Qed.

Lemma posts_within_limits_witness :
  Forall batchOk
    (fetched
       (snd (Runs.run (Client.new sampleOptions)
               [Runs.EvAddAlert sampleId sampleClock halfBudgetAlert;
                Runs.EvSendStart None;
                Runs.EvAddAlert otherId sampleClock sampleAlert;
                Runs.EvSendSettle [] None (Client.Responds okResponse)]))).
Proof.
  apply posts_within_limits.
  - split; [constructor|]. split; [vm_compute; discriminate | vm_compute; lia].
  - repeat constructor.
Defined.

Lemma finishSend_fields (c : Client.AlertsClient) batch override before :
  let c' := fst (fst (Client.finishSend c batch override before)) in
  Client.disabled c' = Client.disabled c
  /\ (Client.timeoutId c <> None -> Client.timeoutId c' <> None).
Proof.
  unfold Client.finishSend. cbv zeta.
  destruct (Client.embeds (Client.set_embeds c _)); cbn [fst snd];
    (split; [reflexivity|]); intros H; cbn; [exact H | discriminate].
Qed.

(** No event changes [disabled], and none forgets a timer handle. *)
Lemma step_fields (c : Client.AlertsClient) (ev : Runs.Event) :
  Client.disabled (fst (Runs.step c ev)) = Client.disabled c
  /\ (Client.timeoutId c <> None -> Client.timeoutId (fst (Runs.step c ev)) <> None).
Proof.
  destruct ev as [alertId now alert | ov | batch ov net | | v]; cbn [Runs.step].
  - unfold Client.addAlert. destruct (Client.isFlushing c); [split; auto|].
    destruct (alertToEmbeds _ _ _ _); cbn [fst snd]; try (split; auto; fail).
    cbv zeta. destruct (_ && _); cbn [fst snd]; (split; [reflexivity|]);
      intros H; cbn; [discriminate | exact H].
  - unfold Runs.sendStart. destruct (Client.embeds c); [split; auto|].
    cbv zeta. cbn [Client.disabled Client.set_isSending].
    destruct (match Client.disabled c with Some true => true | _ => false end);
      cbn [fst snd]; [|split; auto].
    apply (finishSend_fields (Client.set_isSending c true)).
  - unfold Runs.sendSettle. destruct net as [res|]; [|split; auto].
    destruct (negb (Client.ok res)); [destruct (Client.status res =? 429)%Z|];
      try apply finishSend_fields.
    cbn [fst snd]. split; [reflexivity|]. intros _. cbn. discriminate.
  - split; auto.
  - split; auto.
Qed.

(** X11. A client created with [disabled] set makes no request, whatever
    happens to it. *)
Theorem disabled_client_never_posts (c : Client.AlertsClient)
        (evs : list Runs.Event) :
  Client.disabled c = Some true ->
  fetched (snd (Runs.run c evs)) = [].
Proof.
  revert c. induction evs as [|ev rest IH]; intros c Hd; [reflexivity|].
  cbn [Runs.run]. cbv zeta. cbn [fst snd]. rewrite fetched_app.
  destruct (step_fields c ev) as [Hkeep _].
  rewrite (IH _ (eq_trans Hkeep Hd)), app_nil_r.
  destruct ev as [alertId now alert | ov | batch ov net | | v]; cbn [Runs.step].
  - unfold Client.addAlert. destruct (Client.isFlushing c); [reflexivity|].
    destruct (alertToEmbeds _ _ _ _); cbn [fst snd]; try reflexivity.
    cbv zeta. destruct (_ && _); reflexivity.
  - unfold Runs.sendStart. destruct (Client.embeds c); [reflexivity|].
    cbv zeta. cbn [Client.disabled Client.set_isSending]. rewrite Hd.
    cbn [fst snd]. rewrite fetched_finishSend, fetched_app, fetched_clearPending.
    reflexivity.
  - unfold Runs.sendSettle. destruct net as [res|]; [|reflexivity].
    destruct (negb (Client.ok res)); [destruct (Client.status res =? 429)%Z|];
      try (rewrite fetched_finishSend; reflexivity).
    reflexivity.
  - apply fetched_clearPending.
  - reflexivity.
Qed.

Lemma disabled_client_never_posts_witness :
  fetched
    (snd (Runs.run
            (Client.new
               {| Client.AlertsClientOptions.webhookUrl := lit "https://example.com/webhook";
                  Client.AlertsClientOptions.label := None;
                  Client.AlertsClientOptions.env := None;
                  Client.AlertsClientOptions.disabled := Some true;
                  Client.AlertsClientOptions.configs := None |})
            [Runs.EvAddAlert sampleId sampleClock sampleAlert;
             Runs.EvSendStart None])) = [].
Proof.
  apply disabled_client_never_posts. reflexivity.
Defined.

Lemma addAlert_schedules (c : Client.AlertsClient) alertId now alert :
  let r := Runs.step c (Runs.EvAddAlert alertId now alert) in
  length (scheduled (snd r)) <= 1
  /\ (Client.timeoutId c <> None -> scheduled (snd r) = [])
  /\ (scheduled (snd r) <> [] -> Client.timeoutId (fst r) <> None).
Proof.
  cbv zeta. cbn [Runs.step]. unfold Client.addAlert.
  destruct (Client.isFlushing c); [cbn; repeat split; auto; congruence|].
  destruct (alertToEmbeds _ _ _ _); cbn [fst snd];
    try (cbn; repeat split; auto; congruence).
  cbv zeta. cbn [Client.timeoutId Client.set_embeds Client.isSending].
  destruct (Client.timeoutId c) as [h|] eqn:Et.
  - cbn. repeat split; auto; congruence.
  - destruct (Client.isSending c); cbn; repeat split; auto; congruence.
Qed.

Lemma addTimers_none (evs : list Runs.Event) :
  forall c : Client.AlertsClient,
    Client.timeoutId c <> None -> Runs.addTimers c evs = 0.
Proof.
  induction evs as [|ev rest IH]; intros c Ht; [reflexivity|].
  cbn [Runs.addTimers].
  destruct (step_fields c ev) as [_ Hkeep].
  rewrite (IH _ (Hkeep Ht)), Nat.add_0_r.
  destruct ev as [alertId now alert | | | |]; try reflexivity.
  destruct (addAlert_schedules c alertId now alert) as (_ & Hnone & _).
  rewrite (Hnone Ht). reflexivity.
Qed.

(** X12. Over the whole life of a client, whatever happens to it, the calls
    of [addAlert] set at most one timer: the handle stored in [timeoutId] is
    never reset, so once a timer was set, [addAlert] only queues. *)
Theorem addAlert_sets_at_most_one_timer (c : Client.AlertsClient)
        (evs : list Runs.Event) :
  Runs.addTimers c evs <= 1.
Proof.
  revert c. induction evs as [|ev rest IH]; intros c; [cbn; lia|].
  cbn [Runs.addTimers].
  destruct ev as [alertId now alert | ov | batch ov net | | v];
    try (rewrite Nat.add_0_l; apply IH).
  destruct (addAlert_schedules c alertId now alert) as (Hle & _ & Hset).
  cbv zeta in Hle, Hset.
  destruct (scheduled (snd (Runs.step c (Runs.EvAddAlert alertId now alert))))
    as [|ms more] eqn:Es.
  - cbn [length]. rewrite Nat.add_0_l. apply IH.
  - rewrite (addTimers_none rest _ (Hset ltac:(discriminate))). lia.
Qed.

(* ------------------------------------------------------------------ *)
(** ** What a send attempt returns *)

Lemma scheduled_clearPending (c : Client.AlertsClient) :
  scheduled (Client.clearPending c) = [].
Proof. unfold Client.clearPending. destruct (Client.timeoutId c); reflexivity. Qed.

Lemma finishSend_result (P : Exn -> Prop) (c : Client.AlertsClient) batch
      override before :
  scheduled before = [] ->
  let r := Client.finishSend c batch override before in
  match snd r with
  | Returns ms =>
      scheduled (effectsOf r) = [ms]
      \/ (scheduled (effectsOf r) = [] /\ ms = JS.Fin 0 /\ queueOf r = [])
  | Throws e => P e
  | Diverges => False
  end.
Proof.
  intros Hb. cbv zeta. unfold Client.finishSend, effectsOf, queueOf. cbv zeta.
  cbn [Client.embeds Client.set_embeds].
  destruct (skipn (Client.BATCH_SIZE c) (Client.embeds c)) eqn:E; cbn [fst snd].
  - right. rewrite scheduled_app, Hb. cbn. auto.
  - left. rewrite !scheduled_app, Hb. reflexivity.
Qed.

(** X13. What a send attempt returns tells what it did. When it returns a
    number, either it set exactly one timer and the number is the delay of
    that timer, or it set none, the number is 0 and the queue is empty. It
    throws only when the request itself fails, and then it has set no timer
    and removed nothing from the queue. *)
Theorem send_result_announces_timer (c : Client.AlertsClient)
        (override : option JS.Num) (net : Client.Transport) :
  let r := Client.sendAlertsBatch c override net in
  match snd r with
  | Returns ms =>
      scheduled (effectsOf r) = [ms]
      \/ (scheduled (effectsOf r) = [] /\ ms = JS.Fin 0 /\ queueOf r = [])
  | Throws e =>
      e = FetchFailed /\ net = Client.Rejects
      /\ scheduled (effectsOf r) = [] /\ queueOf r = Client.embeds c
  | Diverges => False
  end.
Proof.
  cbv zeta. unfold Client.sendAlertsBatch.
  destruct (Client.embeds c) as [|e es] eqn:E.
  { cbn [snd]. right. unfold effectsOf, queueOf. cbn [fst snd]. auto. }
  cbv zeta. cbn [Client.disabled Client.set_isSending].
  pose proof (scheduled_clearPending c) as Hclear.
  destruct (match Client.disabled c with Some true => true | _ => false end).
  - match goal with
    | |- match snd ?r with Returns _ => _ | Throws e => @?P e | Diverges => _ end =>
        apply (finishSend_result P)
    end.
    rewrite scheduled_app, Hclear. reflexivity.
  - destruct net as [res|].
    + destruct (negb (Client.ok res)).
      * destruct (Client.status res =? 429)%Z.
        -- cbn [snd]. left. unfold effectsOf. cbn [fst snd].
           rewrite !scheduled_app, Hclear. reflexivity.
        -- match goal with
           | |- match snd ?r with Returns _ => _ | Throws e => @?P e | Diverges => _ end =>
               apply (finishSend_result P)
           end.
           rewrite !scheduled_app, Hclear. reflexivity.
      * match goal with
        | |- match snd ?r with Returns _ => _ | Throws e => @?P e | Diverges => _ end =>
            apply (finishSend_result P)
        end.
        rewrite !scheduled_app, Hclear. reflexivity.
    + cbn [snd]. unfold effectsOf, queueOf. cbn [fst snd].
      rewrite !scheduled_app, Hclear. cbn. rewrite E. auto.
Qed.

(* ------------------------------------------------------------------ *)
(** ** From [addAlert] to the request *)

(** A queue that fits one batch is taken whole. *)
Lemma fillBatch_loop_all (batchSize : nat) :
  forall (source : list EmbedWithCharCount) (batch : list Embed.t) (acc : Z),
    Forall (fun e => (0 <= charsCount e)%Z) source ->
    (acc + sumCosts source <= DISCORD_LIMITS.EMBED_TOTAL_CHARS)%Z ->
    length batch + length source <= batchSize ->
    fillBatch_loop source batchSize batch acc = batch ++ map embed source.
Proof.
  induction source as [|e rest IH]; intros batch acc Hpos Hsum Hlen.
  - cbn. rewrite app_nil_r. reflexivity.
  - inversion Hpos as [|? ? He Hrest]; subst.
    change (sumCosts (e :: rest)) with (charsCount e + sumCosts rest)%Z in Hsum.
    assert (Hr : (0 <= sumCosts rest)%Z).
    { clear - Hrest. induction Hrest as [|x l Hx _ IH]; [cbn; lia|].
      change (sumCosts (x :: l)) with (charsCount x + sumCosts l)%Z. lia. }
    cbn [fillBatch_loop length] in *.
    destruct (Nat.leb_spec batchSize (length batch)); [lia|].
    cbv zeta.
    destruct (Z.ltb_spec DISCORD_LIMITS.EMBED_TOTAL_CHARS (acc + charsCount e));
      [lia|].
    rewrite IH; [rewrite <- app_assoc; reflexivity | exact Hrest | lia |].
    rewrite length_app. cbn [length]. lia.
Qed.

Lemma embedCost_nonneg (e : Embed.t) : (0 <= embedCost e)%Z.
Proof.
  unfold embedCost.
  pose proof (fieldsCost_nonneg (Embed.fields e)).
  assert (H0 : forall s, (0 <= optLen s)%Z).
  { intros [v|]; cbn; [apply len_nonneg | lia]. }
  pose proof (H0 (Embed.title e)). pose proof (H0 (Embed.description e)).
  pose proof (H0 (option_map text (Embed.footer e))). lia.
Qed.

Lemma fillBatch_all (source : list EmbedWithCharCount) (batchSize : nat) :
  Forall withinLimits source ->
  (sumCosts source <= DISCORD_LIMITS.EMBED_TOTAL_CHARS)%Z ->
  length source <= batchSize ->
  fillBatch source batchSize = map embed source.
Proof.
  intros Hall Hsum Hlen. unfold fillBatch.
  destruct source as [|e rest] eqn:Es; [reflexivity|]. rewrite <- Es in *.
  apply (fillBatch_loop_all batchSize source [] 0%Z).
  - eapply Forall_impl; [|exact Hall]. intros x (Hx & _).
    rewrite Hx. apply embedCost_nonneg.
  - lia.
  - cbn [length]. lia.
Qed.

Lemma run_app (evs1 evs2 : list Runs.Event) :
  forall c : Client.AlertsClient,
    Runs.run c (evs1 ++ evs2)
    = (fst (Runs.run (fst (Runs.run c evs1)) evs2),
       snd (Runs.run c evs1) ++ snd (Runs.run (fst (Runs.run c evs1)) evs2)).
Proof.
  induction evs1 as [|ev rest IH]; intros c.
  - cbn [app Runs.run fst snd]. destruct (Runs.run c evs2). reflexivity.
  - cbn [app Runs.run]. cbv zeta. rewrite IH. cbn [fst snd].
    rewrite app_assoc. reflexivity.
Qed.

(** The settings of a client, which no [addAlert] changes. *)
Lemma addAlert_settings (c : Client.AlertsClient) alertId now alert :
  let c' := fst (Runs.step c (Runs.EvAddAlert alertId now alert)) in
  Client.TRUNCATED_SUFFIX c' = Client.TRUNCATED_SUFFIX c
  /\ Client.BATCH_SIZE c' = Client.BATCH_SIZE c
  /\ Client.webhookUrl c' = Client.webhookUrl c
  /\ Client.isFlushing c' = Client.isFlushing c
  /\ Client.disabled c' = Client.disabled c.
Proof.
  cbv zeta. cbn [Runs.step]. unfold Client.addAlert.
  destruct (Client.isFlushing c) eqn:F; [cbn [fst]; rewrite F; auto 6|].
  destruct (alertToEmbeds _ _ _ _); cbn [fst]; try (rewrite F; auto 6; fail).
  cbv zeta. destruct (_ && _); cbn; rewrite F; auto 6.
Qed.

(** A run of [addAlert] calls on a client that is not flushing appends the
    containers of the alerts to the queue, and posts nothing. *)
Lemma run_adds (adds : list (str * (nat -> str) * AlertInput)) :
  forall c : Client.AlertsClient,
    Client.isFlushing c = false ->
    let r := Runs.run c (addAll adds) in
    Client.embeds (fst r)
    = Client.embeds c ++ producedBy (Client.TRUNCATED_SUFFIX c) adds
    /\ fetched (snd r) = []
    /\ Client.BATCH_SIZE (fst r) = Client.BATCH_SIZE c
    /\ Client.webhookUrl (fst r) = Client.webhookUrl c
    /\ Client.disabled (fst r) = Client.disabled c.
Proof.
  induction adds as [|[[alertId now] alert] rest IH]; intros c Hf.
  - cbn. rewrite app_nil_r. auto 6.
  - cbv zeta. cbn [addAll map Runs.run fst snd]. cbv zeta.
    fold (addAll rest).
    destruct (addAlert_settings c alertId now alert) as (S1 & S2 & S3 & S4 & S5).
    cbv zeta in S1, S2, S3, S4, S5.
    destruct (IH (fst (Runs.step c (Runs.EvAddAlert alertId now alert)))
                (eq_trans S4 Hf)) as (I1 & I2 & I3 & I4 & I5).
    cbv zeta in I1, I2, I3, I4, I5. cbn [fst snd].
    rewrite I1, fetched_app, I2, I3, I4, I5, S1, S2, S3, S5, app_nil_r.
    assert (Hstep :
      Client.embeds (fst (Runs.step c (Runs.EvAddAlert alertId now alert)))
      = Client.embeds c
        ++ match alertToEmbeds alertId now alert (Client.TRUNCATED_SUFFIX c) with
           | Returns es => es
           | _ => []
           end
      /\ fetched (snd (Runs.step c (Runs.EvAddAlert alertId now alert))) = []).
    { cbn [Runs.step]. unfold Client.addAlert. rewrite Hf.
      destruct (alertToEmbeds alertId now alert (Client.TRUNCATED_SUFFIX c));
        cbn [fst snd]; rewrite ?app_nil_r; auto.
      cbv zeta. destruct (_ && _); cbn [fst snd]; auto. }
    destruct Hstep as [E1 E2]. rewrite E1, E2.
    cbn [producedBy flat_map fst snd]. fold (producedBy (Client.TRUNCATED_SUFFIX c) rest).
    rewrite <- app_assoc. auto 6.
Qed.

Lemma sound_run (evs : list Runs.Event) :
  forall c : Client.AlertsClient,
    sound c -> Forall uuidSized evs -> sound (fst (Runs.run c evs)).
Proof.
  induction evs as [|ev rest IH]; intros c Hc Hevs; [exact Hc|].
  inversion Hevs as [|? ? Hev Hrest]; subst.
  cbn [Runs.run]. cbv zeta. cbn [fst]. apply IH; [|exact Hrest].
  apply (sound_step c ev Hc Hev).
Qed.

(** X14. The alerts added to a new client before its first send, when their
    containers are at most ten and cost at most 5900 characters together,
    are posted in one request, all of them and in the order they were added;
    once the request is answered with success the queue is empty. *)
Theorem queued_alerts_posted_together (options : Client.AlertsClientOptions.t)
        (adds : list (str * (nat -> str) * AlertInput))
        (batch : list Embed.t) (res : Client.Response) :
  Client.AlertsClientOptions.disabled options <> Some true ->
  (JS.len (Client.TRUNCATED_SUFFIX (Client.new options)) <= DISCORD_LIMITS.TITLE)%Z ->
  Forall (fun a => JS.len (fst (fst a)) = 36%Z) adds ->
  producedBy (Client.TRUNCATED_SUFFIX (Client.new options)) adds <> [] ->
  length (producedBy (Client.TRUNCATED_SUFFIX (Client.new options)) adds)
  <= DISCORD_LIMITS.MAX_EMBEDS_PER_PAYLOAD ->
  (sumCosts (producedBy (Client.TRUNCATED_SUFFIX (Client.new options)) adds)
   <= DISCORD_LIMITS.EMBED_TOTAL_CHARS)%Z ->
  Client.ok res = true ->
  let r := Runs.run (Client.new options)
             (addAll adds
              ++ [Runs.EvSendStart None;
                  Runs.EvSendSettle batch None (Client.Responds res)]) in
  fetched (snd r)
  = [map embed (producedBy (Client.TRUNCATED_SUFFIX (Client.new options)) adds)]
  /\ Client.embeds (fst r) = [].
Proof.
  intros Hdis Hsuffix Hids Hne Hlen Hsum Hok. cbv zeta.
  set (c0 := Client.new options) in *.
  set (es := producedBy (Client.TRUNCATED_SUFFIX c0) adds) in *.
  assert (Hc0 : sound c0).
  { split; [constructor|]. split; [exact Hsuffix | cbn; unfold DISCORD_LIMITS.MAX_EMBEDS_PER_PAYLOAD; lia]. }
  assert (Hevs : Forall uuidSized (addAll adds)).
  { unfold addAll. apply Forall_map. eapply Forall_impl; [|exact Hids].
    intros a Ha. exact Ha. }
  destruct (run_adds adds c0 eq_refl) as (Hq & Hf & Hb & _ & Hd).
  cbv zeta in Hq, Hf, Hb, Hd.
  pose proof (sound_run (addAll adds) c0 Hc0 Hevs) as (Hall & _ & _).
  rewrite run_app. cbn [fst snd].
  set (c1 := fst (Runs.run c0 (addAll adds))) in *.
  change (Client.embeds c0) with (@nil EmbedWithCharCount) in Hq.
  cbn [app] in Hq. fold es in Hq.
  change (Client.BATCH_SIZE c0) with 10 in Hb.
  change (Client.disabled c0) with (Client.AlertsClientOptions.disabled options) in Hd.
  rewrite fetched_app, Hf. cbn [app].
  cbn [Runs.run Runs.step]. cbv zeta. cbn [fst snd].
  assert (Hstart :
    Runs.sendStart c1 None
    = (Client.set_isSending c1 true,
       Client.clearPending c1
       ++ [Client.Fetch (Client.webhookUrl c1)
             {| Client.Payload.embeds := map embed es;
                Client.Payload.content :=
                  lit "**" ++ Client.interpolate (Client.label c1) ++ lit " | "
                  ++ Client.interpolate (Client.env c1) ++ lit "**" |}],
       Runs.Awaiting (map embed es))).
  { unfold Runs.sendStart. rewrite Hq.
    destruct es as [|e rest] eqn:Ees; [congruence|]. rewrite <- Ees in *.
    cbv zeta. cbn [Client.disabled Client.set_isSending Client.embeds
                   Client.BATCH_SIZE Client.webhookUrl Client.label Client.env].
    rewrite Hd, Hq, Hb.
    rewrite (fillBatch_all es 10); [| rewrite <- Hq; exact Hall | exact Hsum | exact Hlen].
    destruct (Client.AlertsClientOptions.disabled options) as [[|]|];
      [congruence | reflexivity | reflexivity]. }
  rewrite Hstart. cbn [fst snd].
  unfold Runs.sendSettle. rewrite Hok. cbn [negb].
  unfold Client.finishSend. cbv zeta.
  cbn [Client.embeds Client.set_embeds Client.set_isSending Client.BATCH_SIZE].
  rewrite Hq, Hb, (skipn_all2 es) by exact Hlen.
  cbn [fst snd Client.embeds Client.set_isSending Client.set_embeds].
  rewrite !fetched_app, fetched_clearPending. cbn. auto.
Qed.

Lemma queued_alerts_posted_together_witness :
  fetched
    (snd (Runs.run (Client.new sampleOptions)
            (addAll [(sampleId, sampleClock, sampleAlert);
                     (otherId, sampleClock, longTitleAlert)]
             ++ [Runs.EvSendStart None;
                 Runs.EvSendSettle [] None (Client.Responds okResponse)])))
  = [map embed
       (producedBy (Client.TRUNCATED_SUFFIX (Client.new sampleOptions))
          [(sampleId, sampleClock, sampleAlert);
           (otherId, sampleClock, longTitleAlert)])]
  /\ Client.embeds
       (fst (Runs.run (Client.new sampleOptions)
               (addAll [(sampleId, sampleClock, sampleAlert);
                        (otherId, sampleClock, longTitleAlert)]
                ++ [Runs.EvSendStart None;
                    Runs.EvSendSettle [] None (Client.Responds okResponse)])))
     = [].
Proof.
  apply (queued_alerts_posted_together sampleOptions
           [(sampleId, sampleClock, sampleAlert);
            (otherId, sampleClock, longTitleAlert)] [] okResponse).
  - discriminate.
  - vm_compute. discriminate.
  - repeat constructor.
  - vm_compute. discriminate.
  - vm_compute. lia.
  - vm_compute. discriminate.
  - reflexivity.
Defined.

(** X15. A request answered with 429 loses nothing: the queue is as it was,
    the client is no longer sending, and the next attempt, with nothing added
    in between, posts the same embeds again. *)
Theorem rate_limited_batch_is_retried (c : Client.AlertsClient)
        (override override' : option JS.Num) (net net' : Client.Transport) :
  Client.embeds c <> [] ->
  isRateLimited c net = true ->
  let r := Client.sendAlertsBatch c override net in
  queueOf r = Client.embeds c
  /\ Client.isSending (fst (fst r)) = false
  /\ fetched (effectsOf r) = [fillBatch (Client.embeds c) (Client.BATCH_SIZE c)]
  /\ fetched (effectsOf (Client.sendAlertsBatch (fst (fst r)) override' net'))
     = fetched (effectsOf r).
Proof.
  intros Hne Hrl. cbv zeta.
  assert (Hfetch : forall (c' : Client.AlertsClient) ov nt,
             Client.embeds c' <> [] ->
             match Client.disabled c' with Some true => False | _ => True end ->
             fetched (effectsOf (Client.sendAlertsBatch c' ov nt))
             = [fillBatch (Client.embeds c') (Client.BATCH_SIZE c')]).
  { intros c' ov nt Hne' Hd'. rewrite sendAlertsBatch_split.
    unfold Runs.sendStart, Runs.thenSettle, effectsOf.
    destruct (Client.embeds c') as [|e es] eqn:E'; [congruence|].
    cbv zeta. cbn [Client.disabled Client.set_isSending Client.embeds Client.BATCH_SIZE].
    rewrite E'.
    assert (Hoff : match Client.disabled c' with Some true => true | _ => false end
                   = false).
    { destruct (Client.disabled c') as [[|]|]; [contradiction | reflexivity | reflexivity]. }
    rewrite Hoff. cbn [fst snd]. rewrite !fetched_app, fetched_clearPending.
    unfold Runs.sendSettle. destruct nt as [res|]; [|reflexivity].
    destruct (negb (Client.ok res)); [destruct (Client.status res =? 429)%Z|];
      rewrite ?fetched_finishSend; reflexivity. }
  assert (Hd : match Client.disabled c with Some true => False | _ => True end).
  { unfold isRateLimited in Hrl. destruct (Client.disabled c) as [[|]|];
      [discriminate | exact I | exact I]. }
  pose proof (rate_limited_keeps_queue c override net Hrl) as Hq.
  assert (Hstate : Client.isSending (fst (fst (Client.sendAlertsBatch c override net)))
                   = false
                   /\ Client.disabled (fst (fst (Client.sendAlertsBatch c override net)))
                      = Client.disabled c
                   /\ Client.BATCH_SIZE (fst (fst (Client.sendAlertsBatch c override net)))
                      = Client.BATCH_SIZE c).
  { unfold Client.sendAlertsBatch, isRateLimited in *.
    destruct (Client.embeds c) as [|e es] eqn:E; [congruence|].
    cbv zeta. cbn [Client.disabled Client.set_isSending].
    destruct (Client.disabled c) as [[|]|] eqn:Ed; try discriminate;
      (destruct net as [res|]; [|discriminate]);
      apply andb_true_iff in Hrl; destruct Hrl as [Hok H429];
      rewrite Hok, H429; cbn; rewrite Ed; auto. }
  destruct Hstate as (Hs & Hd' & Hb).
  split; [exact Hq|]. split; [exact Hs|].
  split; [apply Hfetch; assumption|].
  rewrite (Hfetch c override net Hne Hd).
  unfold queueOf in Hq.
  rewrite Hfetch; [rewrite Hq, Hb; reflexivity | rewrite Hq; exact Hne |].
  rewrite Hd'. exact Hd.
Qed.

Lemma rate_limited_batch_is_retried_witness :
  queueOf (Client.sendAlertsBatch twoQueued None (Client.Responds (rateLimited None)))
  = Client.embeds twoQueued
  /\ Client.isSending
       (fst (fst (Client.sendAlertsBatch twoQueued None
                    (Client.Responds (rateLimited None))))) = false
  /\ fetched (effectsOf (Client.sendAlertsBatch twoQueued None
                           (Client.Responds (rateLimited None))))
     = [fillBatch (Client.embeds twoQueued) (Client.BATCH_SIZE twoQueued)]
  /\ fetched
       (effectsOf
          (Client.sendAlertsBatch
             (fst (fst (Client.sendAlertsBatch twoQueued None
                          (Client.Responds (rateLimited None)))))
             None (Client.Responds okResponse)))
     = fetched (effectsOf (Client.sendAlertsBatch twoQueued None
                             (Client.Responds (rateLimited None)))).
Proof.
  apply (rate_limited_batch_is_retried twoQueued None None
           (Client.Responds (rateLimited None)) (Client.Responds okResponse)).
  - vm_compute. discriminate.
  - reflexivity.
Defined.

(* ------------------------------------------------------------------ *)
(** ** When [addAlert] throws *)

Lemma alertToEmbeds_cases alertId now (alert : AlertInput) (suffix : str) :
  if stringifiable alert
  then exists es, alertToEmbeds alertId now alert suffix = Returns es
  else alertToEmbeds alertId now alert suffix = Throws TypeError.
Proof.
  destruct (stringifiable alert) eqn:Hs.
  - destruct (prepare_total alert suffix Hs) as [p Hp].
    eexists. apply alertToEmbeds_unfold. exact Hp.
  - unfold alertToEmbeds, prepare. unfold stringifiable in Hs.
    destruct (chunk_spec (match description alert with Some d => d | None => [] end)
                DISCORD_LIMITS.DESCRIPTION) as [chunks [-> _]];
      [unfold DISCORD_LIMITS.DESCRIPTION; lia|].
    destruct (context alert) as [entries|]; [|discriminate].
    destruct (prepareFields entries suffix) as [fs|] eqn:E; [|reflexivity].
    rewrite (prepareFields_some entries suffix fs E) in Hs. discriminate.
Qed.



Lemma addAlert_result (c : Client.AlertsClient) alertId now (alert : AlertInput) :
  Client.isFlushing c = false ->
  snd (Client.addAlert c alertId now alert)
  = (if stringifiable alert then Returns tt else Throws TypeError)
  /\ Client.isFlushing (fst (fst (Client.addAlert c alertId now alert))) = false.
Proof.
  intros Hf. unfold Client.addAlert. rewrite Hf.
  pose proof (alertToEmbeds_cases alertId now alert (Client.TRUNCATED_SUFFIX c)) as H.
  destruct (stringifiable alert).
  - destruct H as [es ->]. cbv zeta. destruct (_ && _); cbn; auto.
  - rewrite H. cbn. auto.
Qed.

(** The loop of [processQueue] stops on the client where [LazyRuns.replay]
    stops: the calls it records are the calls made on the client. *)
Lemma replay_on_client (adds : list (str * (nat -> str) * AlertInput)) :
  forall (c : Client.AlertsClient) (core : LazyLoading.Core),
    Client.isFlushing c = false ->
    LazyLoading.received (fst (LazyRuns.replay core (map snd adds)))
    = LazyLoading.received core
      ++ map LazyLoading.CallAddAlert (snd (fst (replayOnClient c adds)))
    /\ snd (LazyRuns.replay core (map snd adds)) = snd (replayOnClient c adds).
Proof.
  induction adds as [|[[alertId now] alert] rest IH]; intros c core Hf.
  - cbn. rewrite app_nil_r. auto.
  - cbn [map snd fst LazyRuns.replay replayOnClient]. cbv zeta.
    destruct (addAlert_result c alertId now alert Hf) as [Hr Hf'].
    rewrite Hr. destruct (stringifiable alert).
    + destruct (IH (fst (fst (Client.addAlert c alertId now alert)))
                  (LazyLoading.call core (LazyLoading.CallAddAlert alert)) Hf')
        as [I1 I2].
      cbn [fst snd]. rewrite I1, I2. cbn [LazyLoading.call LazyLoading.received map].
      rewrite <- app_assoc. auto.
    + cbn. auto.
Qed.

(* ------------------------------------------------------------------ *)
(** ** The lazy-loading wrapper over whole histories *)

Lemma replay_all (alerts : list AlertInput) :
  forall core : LazyLoading.Core,
    Forall (fun a => stringifiable a = true) alerts ->
    LazyRuns.replay core alerts
    = (fold_left (fun k alert => LazyLoading.call k (LazyLoading.CallAddAlert alert))
         alerts core, true).
Proof.
  induction alerts as [|a rest IH]; intros core Hall; [reflexivity|].
  inversion Hall as [|? ? Ha Hrest]; subst.
  cbn [LazyRuns.replay fold_left]. cbv zeta. rewrite Ha. apply IH. exact Hrest.
Qed.

(** When every queued alert can be stringified, [init] is the [init] of the
    model without exceptions. *)
Lemma init_without_throw (w : LazyLoading.LazyLoadingAlertsClient)
      (cfg : Client.AlertsClientOptions.t) :
  Forall (fun a => stringifiable a = true) (LazyLoading.queuedAlerts w) ->
  LazyRuns.init w cfg = (LazyLoading.init w cfg, Returns tt).
Proof.
  intros Hall. unfold LazyRuns.init, LazyLoading.init.
  destruct (LazyLoading.client w); [reflexivity|].
  unfold LazyRuns.processQueue, LazyLoading.processQueue.
  cbn [LazyLoading.client LazyLoading.queuedAlerts LazyLoading.flushRequested
       LazyLoading.log].
  destruct (LazyLoading.queuedAlerts w) as [|a rest] eqn:E; [reflexivity|].
  cbv zeta. rewrite (replay_all (a :: rest) _ Hall). cbn [fst snd].
  destruct (LazyLoading.flushRequested w); reflexivity.
Qed.


(** Once the core client exists, every action leaves the wrapper as it is
    but for the call it passes on, or the warning of a second [init]. *)
Lemma initialised_history (history : list LazyRuns.Action) :
  forall (w : LazyLoading.LazyLoadingAlertsClient) (core : LazyLoading.Core),
    LazyLoading.client w = Some core ->
    exists core',
      LazyLoading.client (LazyRuns.actAll w history) = Some core'
      /\ LazyLoading.config core' = LazyLoading.config core
      /\ LazyLoading.received core'
         = LazyLoading.received core ++ LazyRuns.callsOf history
      /\ LazyLoading.queuedAlerts (LazyRuns.actAll w history)
         = LazyLoading.queuedAlerts w.
Proof.
  induction history as [|a rest IH]; intros w core Hw.
  - exists core. cbn. rewrite app_nil_r. auto.
  - unfold LazyRuns.actAll in *. cbn [fold_left].
    assert (Hstep : exists core1,
               LazyLoading.client (LazyRuns.act w a) = Some core1
               /\ LazyLoading.config core1 = LazyLoading.config core
               /\ LazyLoading.received core1
                  = LazyLoading.received core ++ LazyRuns.callsOf [a]
               /\ LazyLoading.queuedAlerts (LazyRuns.act w a)
                  = LazyLoading.queuedAlerts w).
    { destruct a as [[alert| |]|cfg]; cbn [LazyRuns.act LazyLoading.perform];
        unfold LazyLoading.addAlert, LazyLoading.flush, LazyLoading.stop,
          LazyRuns.init; rewrite Hw; cbn [fst];
        eexists; (split; [reflexivity|]); cbn; rewrite ?app_nil_r; auto. }
    destruct Hstep as (core1 & H1 & H2 & H3 & H4).
    destruct (IH _ core1 H1) as (core' & I1 & I2 & I3 & I4).
    exists core'. split; [exact I1|]. split; [congruence|].
    split; [|congruence].
    rewrite I3, H3, <- app_assoc. f_equal.
    unfold LazyRuns.callsOf. cbn [flat_map]. rewrite app_nil_r. reflexivity.
Qed.

Lemma calls_before_init (before : list LazyLoading.Call) :
  forall w : LazyLoading.LazyLoadingAlertsClient,
    LazyRuns.actAll w (map LazyRuns.Do before) = LazyLoading.performAll w before.
Proof.
  induction before as [|c rest IH]; intros w; [reflexivity|].
  unfold LazyRuns.actAll, LazyLoading.performAll in *. cbn [map fold_left].
  apply IH.
Qed.

(** The first [init], when every queued alert can be stringified. *)
Lemma init_state (w : LazyLoading.LazyLoadingAlertsClient)
      (cfg : Client.AlertsClientOptions.t) :
  LazyLoading.client w = None ->
  exists core,
    LazyLoading.client (LazyLoading.init w cfg) = Some core
    /\ LazyLoading.config core = cfg
    /\ LazyLoading.received core
       = map LazyLoading.CallAddAlert (LazyLoading.queuedAlerts w)
         ++ (if LazyLoading.flushRequested w
                && match LazyLoading.queuedAlerts w with [] => false | _ => true end
             then [LazyLoading.CallFlush] else [])
    /\ LazyLoading.queuedAlerts (LazyLoading.init w cfg) = [].
Proof.
  intros Hw. unfold LazyLoading.init. rewrite Hw.
  unfold LazyLoading.processQueue.
  cbn [LazyLoading.client LazyLoading.queuedAlerts LazyLoading.flushRequested
       LazyLoading.log].
  assert (Hcfg : forall (l : list AlertInput) (k : LazyLoading.Core),
             LazyLoading.config
               (fold_left (fun k alert =>
                             LazyLoading.call k (LazyLoading.CallAddAlert alert)) l k)
             = LazyLoading.config k).
  { induction l as [|x l IH]; intros k; [reflexivity|]. cbn [fold_left].
    rewrite IH. reflexivity. }
  destruct (LazyLoading.queuedAlerts w) as [|a rest] eqn:E.
  - eexists. split; [reflexivity|].
    cbn [LazyLoading.queuedAlerts LazyLoading.config LazyLoading.received map app].
    rewrite andb_false_r. auto.
  - cbv zeta. rewrite andb_true_r.
    destruct (LazyLoading.flushRequested w); eexists; (split; [reflexivity|]);
      cbn [LazyLoading.queuedAlerts LazyLoading.call
           LazyLoading.config LazyLoading.received];
      rewrite Hcfg, replay_appends;
      cbn [LazyLoading.config LazyLoading.received app];
      rewrite ?app_nil_r; auto.
Qed.

(** X17. For every history of calls made on a new wrapper before [init],
    with alerts that can all be stringified, and every history after it
    (further [init]s included): the core client is built with the
    configuration of the first [init]; it receives the alerts made before
    [init] in call order, then one [flush] if [flush] was called and at least
    one alert was queued, then every later call in order; nothing stays
    queued. *)
Theorem wrapper_delivers_history (before : list LazyLoading.Call)
        (cfg : Client.AlertsClientOptions.t) (after : list LazyRuns.Action) :
  Forall (fun a => stringifiable a = true) (LazyLoading.alertsOf before) ->
  let w := LazyRuns.actAll LazyLoading.new
             (map LazyRuns.Do before ++ LazyRuns.Init cfg :: after) in
  configOf w = Some cfg
  /\ receivedBy w
     = map LazyLoading.CallAddAlert (LazyLoading.alertsOf before)
       ++ (if LazyLoading.flushCalled before && negb (noAlerts before)
           then [LazyLoading.CallFlush] else [])
       ++ LazyRuns.callsOf after
  /\ LazyLoading.queuedAlerts w = [].
Proof.
  intros Hall. cbv zeta. unfold LazyRuns.actAll.
  rewrite fold_left_app. fold (LazyRuns.actAll LazyLoading.new (map LazyRuns.Do before)).
  rewrite calls_before_init. cbn [fold_left LazyRuns.act].
  destruct (performAll_uninitialised before LazyLoading.new eq_refl) as (H1 & H2 & H3).
  cbv zeta in H1, H2, H3. cbn [LazyLoading.new LazyLoading.queuedAlerts
    LazyLoading.flushRequested app orb] in H2, H3.
  set (w0 := LazyLoading.performAll LazyLoading.new before) in *.
  rewrite (init_without_throw w0 cfg) by (rewrite H2; exact Hall). cbn [fst].
  destruct (init_state w0 cfg H1) as (core & C1 & C2 & C3 & C4).
  destruct (initialised_history after _ core C1) as (core' & I1 & I2 & I3 & I4).
  unfold LazyRuns.actAll in I1, I4. unfold configOf, receivedBy.
  rewrite I1, I4, C4. cbn [option_map].
  split; [congruence|]. split; [|reflexivity].
  rewrite I3, C3, H2, H3, <- app_assoc. unfold noAlerts.
  destruct (LazyLoading.alertsOf before); reflexivity.
Qed.

Lemma wrapper_delivers_history_witness :
  configOf
    (LazyRuns.actAll LazyLoading.new
       (map LazyRuns.Do [LazyLoading.CallAddAlert sampleAlert; LazyLoading.CallFlush]
        ++ LazyRuns.Init sampleOptions
           :: [LazyRuns.Do (LazyLoading.CallAddAlert emptyAlert);
               LazyRuns.Init sampleOptions; LazyRuns.Do LazyLoading.CallStop]))
  = Some sampleOptions
  /\ receivedBy
       (LazyRuns.actAll LazyLoading.new
          (map LazyRuns.Do [LazyLoading.CallAddAlert sampleAlert; LazyLoading.CallFlush]
           ++ LazyRuns.Init sampleOptions
              :: [LazyRuns.Do (LazyLoading.CallAddAlert emptyAlert);
                  LazyRuns.Init sampleOptions; LazyRuns.Do LazyLoading.CallStop]))
     = map LazyLoading.CallAddAlert
         (LazyLoading.alertsOf
            [LazyLoading.CallAddAlert sampleAlert; LazyLoading.CallFlush])
       ++ (if LazyLoading.flushCalled
                [LazyLoading.CallAddAlert sampleAlert; LazyLoading.CallFlush]
              && negb (noAlerts
                         [LazyLoading.CallAddAlert sampleAlert; LazyLoading.CallFlush])
           then [LazyLoading.CallFlush] else [])
       ++ LazyRuns.callsOf
            [LazyRuns.Do (LazyLoading.CallAddAlert emptyAlert);
             LazyRuns.Init sampleOptions; LazyRuns.Do LazyLoading.CallStop]
  /\ LazyLoading.queuedAlerts
       (LazyRuns.actAll LazyLoading.new
          (map LazyRuns.Do [LazyLoading.CallAddAlert sampleAlert; LazyLoading.CallFlush]
           ++ LazyRuns.Init sampleOptions
              :: [LazyRuns.Do (LazyLoading.CallAddAlert emptyAlert);
                  LazyRuns.Init sampleOptions; LazyRuns.Do LazyLoading.CallStop]))
     = [].
Proof.
  apply (wrapper_delivers_history
           [LazyLoading.CallAddAlert sampleAlert; LazyLoading.CallFlush]
           sampleOptions
           [LazyRuns.Do (LazyLoading.CallAddAlert emptyAlert);
            LazyRuns.Init sampleOptions; LazyRuns.Do LazyLoading.CallStop]).
  repeat constructor.
Defined.



(* ------------------------------------------------------------------ *)
(** ** Attempts in a row *)

Lemma sendAlertsBatch_settings (c : Client.AlertsClient) override net :
  let c' := fst (fst (Client.sendAlertsBatch c override net)) in
  Client.BATCH_SIZE c' = Client.BATCH_SIZE c
  /\ Client.disabled c' = Client.disabled c.
Proof.
  cbv zeta. rewrite sendAlertsBatch_split.
  unfold Runs.thenSettle, Runs.sendStart.
  destruct (Client.embeds c); [cbn; auto|].
  cbv zeta. cbn [Client.disabled Client.set_isSending Client.embeds Client.BATCH_SIZE].
  assert (Hfin : forall k batch before,
             Client.BATCH_SIZE (fst (fst (Client.finishSend k batch override before)))
             = Client.BATCH_SIZE k
             /\ Client.disabled (fst (fst (Client.finishSend k batch override before)))
                = Client.disabled k).
  { intros k batch before. unfold Client.finishSend. cbv zeta.
    destruct (Client.embeds (Client.set_embeds k _)); cbn; auto. }
  destruct (match Client.disabled c with Some true => true | _ => false end);
    cbn [fst snd].
  - apply (Hfin (Client.set_isSending c true)).
  - unfold Runs.sendSettle. destruct net as [res|]; [|cbn; auto].
    destruct (negb (Client.ok res)); [destruct (Client.status res =? 429)%Z|];
      cbn [fst snd]; try apply (Hfin (Client.set_isSending c true)).
    cbn. auto.
Qed.

(** X19. Attempts that complete one after the other, with nothing added in
    between, each take the first ten containers off the queue: after [k] of
    them the queue is what was beyond its first [10 * k] containers, so a
    queue of [n] containers is empty after [n / 10], rounded up, completed
    attempts. *)
Theorem completed_attempts_drain_queue (c : Client.AlertsClient)
        (attempts : list (option JS.Num * Client.Transport)) :
  Forall (fun a => completes c (snd a) = true) attempts ->
  Client.embeds (sendEach c attempts)
  = skipn (Client.BATCH_SIZE c * length attempts) (Client.embeds c).
Proof.
  revert c. induction attempts as [|[ov net] rest IH]; intros c Hall.
  - cbn [sendEach fold_left length]. rewrite Nat.mul_0_r. reflexivity.
  - inversion Hall as [|? ? Ha Hrest]; subst. cbn [fst snd] in Ha.
    unfold sendEach in *. cbn [fold_left fst snd].
    destruct (sendAlertsBatch_settings c ov net) as [Hb Hd]. cbv zeta in Hb, Hd.
    assert (Hstep : Client.embeds (fst (fst (Client.sendAlertsBatch c ov net)))
                    = skipn (Client.BATCH_SIZE c) (Client.embeds c)).
    { destruct (Client.embeds c) as [|e es] eqn:E.
      - unfold Client.sendAlertsBatch. rewrite E. cbn [fst].
        rewrite E, skipn_nil. reflexivity.
      - rewrite <- E.
        apply (completed_send_drops_batch_size c ov net); [rewrite E; discriminate|].
        exact Ha. }
    rewrite IH.
    + rewrite Hb, Hstep, skipn_skipn. cbn [length]. rewrite Nat.mul_succ_r.
      reflexivity.
    + eapply Forall_impl; [|exact Hrest]. intros a Hc.
      unfold completes in *. rewrite Hd. exact Hc.
Qed.

Lemma completed_attempts_drain_queue_witness :
  Client.embeds
    (sendEach twoQueued [(None, Client.Responds okResponse);
                         (Some (JS.Fin 5000), Client.Responds okResponse)])
  = skipn (Client.BATCH_SIZE twoQueued * 2) (Client.embeds twoQueued).
Proof.
  apply (completed_attempts_drain_queue twoQueued
           [(None, Client.Responds okResponse);
            (Some (JS.Fin 5000), Client.Responds okResponse)]).
  repeat constructor.
Defined.
